(** * FeedPlayer: feed normalisation and playback-cursor logic

    A shallow embedding of the parts of the FeedPlayer sources that parse
    feed specifications, normalise feed responses, aggregate several source
    URLs, move the playback cursor, keep the active feed in the hash and
    decide what is drawn, together with the properties that hold (or
    fail) for them.

    Conventions of the embedding.
    - A JavaScript string is a [list ascii]: one element per code unit.
      Code units above 0x7F are outside the model, so the two non-ASCII
      line terminators and the non-ASCII white space of [String.trim] do
      not occur.
    - A JavaScript number that the source only uses as an index is a
      [num]: an integer, [NaN] or a signed infinity.  Pixel coordinates
      are exact rationals; rounding of doubles is not modelled.
    - A JavaScript object is an association list in insertion order;
      assignment to an existing key keeps the key's position.  Inherited
      (prototype) properties are not modelled, except where a name read
      from the hash is looked up in a map ([HashGrid.holds]).
    - Code that can throw returns a [result]; an [await]ed request is a
      function from the URL to the [result] of the request. *)

From Stdlib Require Import Ascii String List ZArith QArith Qround Bool Lia Arith.
From Stdlib Require Import DecimalString.
From Stdlib Require DecimalPos DecimalZ.
Import ListNotations.

Close Scope Q_scope.

Set Warnings "-register-all".

(** ** JavaScript strings *)

Module JS.

Definition str := list ascii.

(** A string literal of the source. *)
Definition lit (s : string) : str := list_ascii_of_string s.

Definition ascii_eqb (a b : ascii) : bool := Ascii.eqb a b.

Fixpoint str_eqb (s t : str) : bool :=
  match s, t with
  | [], [] => true
  | a :: s', b :: t' => ascii_eqb a b && str_eqb s' t'
  | _, _ => false
  end.

(** [s.startsWith(p)] *)
Fixpoint startsWith (s p : str) : bool :=
  match p, s with
  | [], _ => true
  | _ :: _, [] => false
  | b :: p', a :: s' => ascii_eqb a b && startsWith s' p'
  end.

(** [s.includes(p)] *)
Fixpoint includes (s p : str) : bool :=
  startsWith s p ||
  match s with
  | [] => false
  | _ :: s' => includes s' p
  end.

(** [s.split(c)] for a separator of one character: the pieces between the
    separators, in order; never the empty list. *)
Fixpoint split (c : ascii) (s : str) : list str :=
  match s with
  | [] => [[]]
  | a :: s' =>
      if ascii_eqb a c then [] :: split c s'
      else match split c s' with
           | [] => [[a]]
           | p :: ps => (a :: p) :: ps
           end
  end.

(** White space of [String.prototype.trim] within ASCII: TAB, LF, VT, FF,
    CR and SPACE. *)
Definition is_space (a : ascii) : bool :=
  let n := nat_of_ascii a in
  ((9 <=? n) && (n <=? 13))%nat || (n =? 32)%nat.

Fixpoint trimStart (s : str) : str :=
  match s with
  | [] => []
  | a :: s' => if is_space a then trimStart s' else s
  end.

Definition trimEnd (s : str) : str := rev (trimStart (rev s)).

(** [s.trim()] *)
Definition trim (s : str) : str := trimEnd (trimStart s).

(** Truthiness of a string: only the empty string is falsy. *)
Definition nonempty (s : str) : bool :=
  match s with [] => false | _ :: _ => true end.

(** ** Numbers used as indices *)

Inductive num :=
| Int (z : Z)
| NaN
| Inf (negative : bool).

(** [a % n] on integers: the remainder has the sign of the dividend, and a
    zero divisor gives [NaN]. *)
Definition rem (a n : Z) : num :=
  if (n =? 0)%Z then NaN else Int (Z.rem a n).

(** [String(n)] and a number inside a template literal.  An integer is
    printed in decimal, as the source prints every integer of magnitude
    below 10^21; the exponent form of larger numbers is outside the
    model. *)
Definition num_to_str (n : num) : str :=
  match n with
  | Int z => lit (NilZero.string_of_int (Z.to_int z))
  | NaN => lit "NaN"
  | Inf false => lit "Infinity"
  | Inf true => lit "-Infinity"
  end.

(** [s.toLowerCase()] within ASCII. *)
Definition lower (a : ascii) : ascii :=
  let n := nat_of_ascii a in
  if ((65 <=? n) && (n <=? 90))%nat then ascii_of_nat (n + 32) else a.

Definition toLowerCase (s : str) : str := map lower s.

(** [s.endsWith(p)] *)
Definition endsWith (s p : str) : bool := startsWith (rev s) (rev p).

(** [xs.pop()] on a fresh array: its last element. *)
Definition pop (xs : list str) : str := last xs [].

(** ** Values, truthiness and property reads *)

Inductive value :=
| VUndefined
| VNull
| VBool (b : bool)
| VNum (n : num)
| VStr (s : str)
| VArr (elems : list value)
| VObj (props : list (str * value)).

Definition truthy (v : value) : bool :=
  match v with
  | VUndefined | VNull => false
  | VBool b => b
  | VNum (Int z) => negb (z =? 0)%Z
  | VNum NaN => false
  | VNum (Inf _) => true
  | VStr s => nonempty s
  | VArr _ | VObj _ => true
  end.

(** [a || b] on values that are already evaluated. *)
Definition or_ (a b : value) : value := if truthy a then a else b.

(** Own properties of an object, in insertion order. *)
Fixpoint lookup (k : str) (props : list (str * value)) : option value :=
  match props with
  | [] => None
  | (k', v) :: rest => if str_eqb k' k then Some v else lookup k rest
  end.

(** [obj[k] = v] for a key other than [__proto__], and a property of an
    object literal or spread: an existing key keeps its place, a new key
    goes last. *)
Fixpoint set (k : str) (v : value) (props : list (str * value))
  : list (str * value) :=
  match props with
  | [] => [(k, v)]
  | (k', v') :: rest =>
      if str_eqb k' k then (k', v) :: rest else (k', v') :: set k v rest
  end.

(** [obj[k] = v] for a computed key [k] on a plain object.  The key
    [__proto__] is not stored: the assignment goes to the setter that
    every plain object inherits, which adds no property (the prototype
    that it may install is outside the model). *)
Definition put (k : str) (v : value) (props : list (str * value))
  : list (str * value) :=
  if str_eqb k (lit "__proto__") then props else set k v props.

(** What a [catch] clause receives: [error.response.status] when the
    rejection carries an HTTP response, and [error.message]. *)
Record error := mkError { response : option Z; message : str }.

(** The text of the engine's message is not modelled. *)
Definition TypeError : error :=
  {| response := None; message := lit "TypeError" |}.

Inductive result (A : Type) :=
| Ok (a : A)
| Throw (e : error).

Arguments Ok {A} a.
Arguments Throw {A} e.

Definition bind {A B} (r : result A) (f : A -> result B) : result B :=
  match r with
  | Ok a => f a
  | Throw e => Throw e
  end.

Notation "x <- r ;; k" := (bind r (fun x => k))
  (at level 61, r at next level, right associativity).

(** [xs.map(f)] where [f] may throw: the first exception aborts the map. *)
Fixpoint mapM {A B} (f : A -> result B) (xs : list A) : result (list B) :=
  match xs with
  | [] => Ok []
  | x :: xs' => y <- f x ;; ys <- mapM f xs' ;; Ok (y :: ys)
  end.

(** [v.k] / [v[k]]: a read from [undefined] or [null] throws; a read of a
    property that an object does not own gives [undefined]; so does a read
    from any other value.  This is the read of a name that is neither
    built in ([length], an index of a string or an array) nor inherited
    from a prototype, which are the names the sources read with a
    literal key. *)
Definition get (v : value) (k : str) : result value :=
  match v with
  | VUndefined | VNull => Throw TypeError
  | VObj props =>
      match lookup k props with
      | Some x => Ok x
      | None => Ok VUndefined
      end
  | _ => Ok VUndefined
  end.

(** The receiver of [.map], [.filter] or [.flatMap]: an array, or else a
    [TypeError] (the method is missing, or the receiver is [undefined]). *)
Definition as_array (v : value) : result (list value) :=
  match v with
  | VArr xs => Ok xs
  | _ => Throw TypeError
  end.

(** The receiver of a string method ([.split], [.trim]): a string, or
    else a [TypeError]. *)
Definition as_string (v : value) : result str :=
  match v with
  | VStr s => Ok s
  | _ => Throw TypeError
  end.

(** [String(v)]: what a template literal and [RegExp.test] see. *)
Fixpoint to_string (v : value) : str :=
  match v with
  | VUndefined => lit "undefined"
  | VNull => lit "null"
  | VBool true => lit "true"
  | VBool false => lit "false"
  | VNum n => num_to_str n
  | VStr s => s
  | VArr xs =>
      let elem x := match x with
                    | VUndefined | VNull => []
                    | _ => to_string x
                    end in
      (fix join (ys : list value) : str :=
         match ys with
         | [] => []
         | [y] => elem y
         | y :: ys' => elem y ++ lit "," ++ join ys'
         end) xs
  | VObj _ => lit "[object Object]"
  end.

(** [arr[i]] for a list and a number: [undefined] outside the list. *)
Definition at_index (xs : list value) (i : num) : value :=
  match i with
  | Int z =>
      if (z <? 0)%Z then VUndefined
      else nth (Z.to_nat z) xs VUndefined
  | _ => VUndefined
  end.

End JS.

Import JS.

(** ** The playback cursor (VideoPlayer)

    Both copies of the player in [Context.jsx] define [handleNext],
    [handlePrev], [handleProgressBarClick] and [moveToSlide] with the same
    text; one model serves both. *)

Module Player.

(** An entry of [mediaList]: one configured feed. *)
Record media := mkMedia { feed : str; title : str; url : str }.

(** The state variables the cursor operations read and write. *)
Record state := mkState {
  mediaList : list media;            (* the configured feeds *)
  index : Z;                         (* the feed chosen in the dropdown *)
  selectedMediaList : list value;    (* the items of the chosen feed *)
  currentMediaIndex : num;           (* the cursor's item index *)
  currentMedia : value               (* the item on display *)
}.

Definition setCurrentMediaIndex (f : num -> num) (st : state) : state :=
  {| mediaList := mediaList st;
     index := index st;
     selectedMediaList := selectedMediaList st;
     currentMediaIndex := f (currentMediaIndex st);
     currentMedia := currentMedia st |}.

Definition setCurrentMedia (v : value) (st : state) : state :=
  {| mediaList := mediaList st;
     index := index st;
     selectedMediaList := selectedMediaList st;
     currentMediaIndex := currentMediaIndex st;
     currentMedia := v |}.

Definition len {A} (xs : list A) : Z := Z.of_nat (length xs).

(** [(prevIndex + 1) % mediaList.length] *)
Definition handleNext (st : state) : state :=
  setCurrentMediaIndex
    (fun prevIndex =>
       match prevIndex with
       | Int i => rem (i + 1) (len (mediaList st))
       | _ => NaN
       end) st.

(** [(prevIndex - 1 + mediaList.length) % mediaList.length] *)
Definition handlePrev (st : state) : state :=
  setCurrentMediaIndex
    (fun prevIndex =>
       match prevIndex with
       | Int i => rem (i - 1 + len (mediaList st)) (len (mediaList st))
       | _ => NaN
       end) st.

(** [moveToSlide(index)]: the updater ignores the previous index. *)
Definition moveToSlide (i : num) (st : state) : state :=
  setCurrentMediaIndex (fun _ => i) st.

(** [selectedMediaList.length < 7 ? selectedMediaList.length : 7] *)
Definition totalSlides (st : state) : Z :=
  if (len (selectedMediaList st) <? 7)%Z then len (selectedMediaList st) else 7.

(** [Math.floor((clickX / progressWidth) * totalSlides)] on exact
    rationals; a zero width gives [NaN] or an infinity as in IEEE
    arithmetic. *)
Definition targetSlide (clickX progressWidth : Q) (total : Z) : num :=
  if Qeq_bool progressWidth 0 then
    if Qeq_bool clickX 0 then NaN
    else if (total =? 0)%Z then NaN
    else Inf (negb (Qle_bool 0 clickX))
  else Int (Qfloor ((clickX / progressWidth) * inject_Z total)).

(** [clickX] is [event.clientX - rect.left], [progressWidth] is
    [rect.width]. *)
Definition handleProgressBarClick (clickX progressWidth : Q) (st : state)
  : state :=
  moveToSlide (targetSlide clickX progressWidth (totalSlides st)) st.

(** The indices of the progress points,
    [selectedMediaList.slice(0, 7).map((item, index) => ...)]; a click on
    point [index] calls [moveToSlide(index)]. *)
Definition progressPoints (st : state) : list Z :=
  map Z.of_nat (seq 0 (length (firstn 7 (selectedMediaList st)))).

(** The effect that follows a change of [currentMediaIndex]:
    [if (selectedMediaList.length > 0)
       setCurrentMedia(selectedMediaList[currentMediaIndex])]. *)
Definition syncCurrentMedia (st : state) : state :=
  if (0 <? len (selectedMediaList st))%Z
  then setCurrentMedia (at_index (selectedMediaList st) (currentMediaIndex st)) st
  else st.

(** The effect that follows a change of [currentMedia]:
    [if (selectedMediaList.length > 0 && !currentMedia)
       { setCurrentMediaIndex(0); setCurrentMedia(selectedMediaList[0]); }] *)
Definition resetWhenNoMedia (st : state) : state :=
  if (0 <? len (selectedMediaList st))%Z && negb (truthy (currentMedia st))
  then setCurrentMedia (at_index (selectedMediaList st) (Int 0))
                       (setCurrentMediaIndex (fun _ => Int 0) st)
  else st.

(** The cursor is within the item list of the selected feed. *)
Definition in_bounds (st : state) : Prop :=
  exists i, currentMediaIndex st = Int i /\
            (0 <= i < len (selectedMediaList st))%Z.

Definition in_boundsb (st : state) : bool :=
  match currentMediaIndex st with
  | Int i => (0 <=? i)%Z && (i <? len (selectedMediaList st))%Z
  | _ => false
  end.

(** Where a seek index comes from: a click on a progress point, or a
    click on the progress bar of a non-empty list at a position inside
    the bar. *)
Inductive seek_source (st : state) : num -> Prop :=
| from_point (i : Z) :
    In i (progressPoints st) -> seek_source st (Int i)
| from_bar (clickX progressWidth : Q) :
    selectedMediaList st <> [] ->
    (0 <= clickX)%Q -> (clickX < progressWidth)%Q ->
    seek_source st (targetSlide clickX progressWidth (totalSlides st)).

(** Two feeds are configured; the selected feed has three items. *)
Definition two_feeds_three_items (i : Z) : state :=
  {| mediaList :=
       [ mkMedia (lit "nasa") (lit "NASA") (lit "https://api.nasa.gov/planetary/apod");
         mkMedia (lit "seeclickfix-311") (lit "SeeClickFix")
                 (lit "https://seeclickfix.com/api/v2/issues") ];
     index := 0;
     selectedMediaList :=
       [ VObj [(lit "title", VStr (lit "a"))];
         VObj [(lit "title", VStr (lit "b"))];
         VObj [(lit "title", VStr (lit "c"))] ];
     currentMediaIndex := Int i;
     currentMedia := VObj [(lit "title", VStr (lit "a"))] |}.

End Player.

(** ** Loading a feed in the player (second VideoPlayer of [Context.jsx]) *)

Module Loader.

Import Player.

Definition no_description : value := VStr (lit "No description available").

(** [a || b] where [b] is only evaluated when [a] is falsy. *)
Definition or_else (a : value) (b : result value) : result value :=
  if truthy a then Ok a else b.

(** [v[i]] for a literal index. *)
Definition get_at (v : value) (i : Z) : result value :=
  match v with
  | VUndefined | VNull => Throw TypeError
  | VArr xs => Ok (at_index xs (Int i))
  | VObj props =>
      match lookup (num_to_str (Int i)) props with
      | Some x => Ok x
      | None => Ok VUndefined
      end
  | VStr s =>
      if (i <? 0)%Z then Ok VUndefined
      else match nth_error s (Z.to_nat i) with
           | Some c => Ok (VStr [c])
           | None => Ok VUndefined
           end
  | _ => Ok VUndefined
  end.

(** [v.split("/").pop()] *)
Definition split_pop (v : value) : result value :=
  s <- as_string v ;; Ok (VStr (pop (split "/"%char s))).

(** [/\.(jpg|jpeg|gif)$/i.test(v)] *)
Definition is_repo_image (v : value) : bool :=
  let s := toLowerCase (to_string v) in
  endsWith s (lit ".jpg") || endsWith s (lit ".jpeg") || endsWith s (lit ".gif").

(** [xs.filter(p)] where [p] may throw. *)
Fixpoint filterM {A} (p : A -> result bool) (xs : list A) : result (list A) :=
  match xs with
  | [] => Ok []
  | x :: xs' =>
      b <- p x ;; ys <- filterM p xs' ;; Ok (if b then x :: ys else ys)
  end.

(** The message texts of the [catch] clause. *)
Definition rate_limit_message : str :=
  lit "NASA API rate limit exceeded (429). Please use your own API key for more requests. See https://api.nasa.gov/ for details.".

Definition bad_request_message : str :=
  lit "Bad request (400): Please check your API key or feed URL.".

Definition unknown_error_message : str := lit "An unknown error occurred.".

Definition status_message (status : Z) : str :=
  lit "Request failed with status code " ++ num_to_str (Int status).

Definition errorMessage (e : error) : str :=
  match response e with
  | Some status =>
      if (status =? 429)%Z then rate_limit_message
      else if (status =? 400)%Z then bad_request_message
      else status_message status
  | None =>
      if nonempty (message e) then message e
      else unknown_error_message
  end.

Definition failed_title (m : media) : value :=
  VStr (lit "Failed to load " ++ title m).

Definition error_item (m : media) (e : error) : value :=
  VObj [ (lit "url", VNull);
         (lit "text", VStr (lit "Error: " ++ errorMessage e));
         (lit "title", failed_title m);
         (lit "isError", VBool true) ].

Section Fetch.

(** [await axios.get(url)]: the response's [data], or the rejection. *)
Variable axios_get : str -> result value.
(** The component's [swiperData] and [videoData] ([null] until set). *)
Variables swiperData videoData : value.
(** The configured feeds, for the [repo] case. *)
Variable feeds : list media.

(** The item mappers of the [switch]. *)

Definition seeclickfix_item (item : value) : result value :=
  m <- get item (lit "media") ;;
  full <- get m (lit "image_full") ;;
  u <- or_else full (get m (lit "representative_image_url")) ;;
  d <- get item (lit "description") ;;
  t <- get item (lit "summary") ;;
  Ok (VObj [ (lit "url", u); (lit "text", or_ d no_description);
             (lit "title", t) ]).

Definition film_photo (item : value) (i : nat) : result (list value) :=
  let n := num_to_str (Int (Z.of_nat i)) in
  p <- get item (lit "photo" ++ n) ;;
  if truthy p then
    d <- get item (lit "description") ;;
    t <- get item (lit "photoText" ++ n) ;;
    Ok [ VObj [ (lit "url", p); (lit "text", or_ d no_description);
                (lit "title", or_ t (VStr (lit "No title available"))) ] ]
  else Ok [].

Definition film_item (item : value) : result (list value) :=
  ps <- mapM (film_photo item) (seq 1 10) ;; Ok (concat ps).

Definition repo_item (file : value) : result value :=
  p <- get file (lit "path") ;;
  t <- split_pop p ;;
  Ok (VObj [ (lit "url",
              VStr (lit "https://raw.githubusercontent.com/modelearth/requests/main/"
                    ++ to_string p));
             (lit "text", no_description);
             (lit "title", t) ]).

Definition video_item (u : value) : result value :=
  t <- split_pop u ;;
  Ok (VObj [ (lit "url", u); (lit "text", no_description); (lit "title", t) ]).

Definition default_item (item : value) : result value :=
  hd <- get item (lit "hdurl") ;;
  u <- or_else hd (get item (lit "url")) ;;
  ex <- get item (lit "explanation") ;;
  t <- get item (lit "title") ;;
  Ok (VObj [ (lit "url", u); (lit "text", or_ ex no_description);
             (lit "title", t) ]).

Definition feed_kind (m : media) : str := toLowerCase (trim (feed m)).

(** The body of the [try] block of [fetchMediaFromAPI]. *)
Definition fetch_body (m : media) : result value :=
  if str_eqb (feed_kind m) (lit "swiper") && nonempty (url m) then
    if negb (truthy swiperData) then
      Ok (VObj [ (lit "url", VNull);
                 (lit "text", VStr (lit "Please click on a Swiper Image to view"));
                 (lit "title", failed_title m);
                 (lit "isError", VBool true) ])
    else
      u <- get swiperData (lit "url") ;;
      x <- get swiperData (lit "text") ;;
      t <- get swiperData (lit "title") ;;
      Ok (VObj [ (lit "url", u); (lit "text", or_ x no_description);
                 (lit "title", t) ])
  else if str_eqb (feed_kind m) (lit "linkedvideo") then
    if negb (truthy videoData) then
      Ok (VObj [ (lit "url", VNull);
                 (lit "text", VStr (lit "Please upload a video link to view"));
                 (lit "title", failed_title m);
                 (lit "isError", VBool true) ])
    else
      u <- get videoData (lit "url") ;;
      x <- get videoData (lit "text") ;;
      t <- get videoData (lit "title") ;;
      Ok (VObj [ (lit "url", u); (lit "text", x); (lit "title", t) ])
  else
    data <- axios_get (url m) ;;
    if str_eqb (feed_kind m) (lit "seeclickfix-311") then
      issues <- get data (lit "issues") ;;
      xs <- as_array issues ;;
      ys <- mapM seeclickfix_item xs ;;
      Ok (VArr ys)
    else if str_eqb (feed_kind m) (lit "film-scouting") then
      xs <- as_array data ;;
      ys <- mapM film_item xs ;;
      Ok (VArr (concat ys))
    else if str_eqb (feed_kind m) (lit "repo") then
      match find (fun f => str_eqb (trim (feed f)) (lit "repo")) feeds with
      | None => Throw TypeError
      | Some repoFeed =>
          repo <- axios_get (url repoFeed) ;;
          tree <- get repo (lit "tree") ;;
          xs <- as_array tree ;;
          fs <- filterM (fun file => p <- get file (lit "path") ;;
                                     Ok (is_repo_image p)) xs ;;
          ys <- mapM repo_item fs ;;
          Ok (VArr ys)
      end
    else if str_eqb (feed_kind m) (lit "videos") then
      first <- get_at data 0 ;;
      vs <- get first (lit "videosURLs") ;;
      xs <- as_array vs ;;
      ys <- mapM video_item xs ;;
      Ok (VArr ys)
    else if str_eqb (feed_kind m) (lit "feedview") then
      first <- get_at data 0 ;;
      vs <- get first (lit "videosURLs") ;;
      bigBunnyLink <- get_at vs 1 ;;
      if truthy bigBunnyLink then
        y <- video_item bigBunnyLink ;; Ok (VArr [y])
      else Ok (VArr [])
    else
      xs <- as_array data ;;
      ys <- mapM default_item xs ;;
      Ok (VArr ys).

(** [fetchMediaFromAPI]: the [catch] clause turns every exception of the
    body into an array holding one error item. *)
Definition fetchMediaFromAPI (m : media) : value :=
  match fetch_body m with
  | Ok v => v
  | Throw e => VArr [error_item m e]
  end.

(** The first player's [fetchMediaFromAPI]: every call also requests the
    [repo] feed, the [switch] has no [feedview] case, and the [catch]
    clause returns the empty array. *)
Definition fetch_body_first (m : media) : result value :=
  data <- axios_get (url m) ;;
  match find (fun f => str_eqb (trim (feed f)) (lit "repo")) feeds with
  | None => Throw TypeError
  | Some repoFeed =>
      repo <- axios_get (url repoFeed) ;;
      if str_eqb (feed_kind m) (lit "seeclickfix-311") then
        issues <- get data (lit "issues") ;;
        xs <- as_array issues ;;
        ys <- mapM seeclickfix_item xs ;;
        Ok (VArr ys)
      else if str_eqb (feed_kind m) (lit "film-scouting") then
        xs <- as_array data ;;
        ys <- mapM film_item xs ;;
        Ok (VArr (concat ys))
      else if str_eqb (feed_kind m) (lit "repo") then
        tree <- get repo (lit "tree") ;;
        xs <- as_array tree ;;
        fs <- filterM (fun file => p <- get file (lit "path") ;;
                                   Ok (is_repo_image p)) xs ;;
        ys <- mapM repo_item fs ;;
        Ok (VArr ys)
      else if str_eqb (feed_kind m) (lit "videos") then
        first <- get_at data 0 ;;
        vs <- get first (lit "videosURLs") ;;
        xs <- as_array vs ;;
        ys <- mapM video_item xs ;;
        Ok (VArr ys)
      else
        xs <- as_array data ;;
        ys <- mapM default_item xs ;;
        Ok (VArr ys)
  end.

Definition fetchMediaFromAPI_first (m : media) : value :=
  match fetch_body_first m with
  | Ok v => v
  | Throw _ => VArr []
  end.

(** [{ ...media, url }] *)
Definition clone (m : media) (u : str) : media :=
  {| feed := feed m; title := title m; url := u |}.

(** One turn of the loop over the pipe-separated URLs. *)
Definition add_items (mediaItems : list value) (items : value) : list value :=
  match items with
  | VArr xs => mediaItems ++ xs
  | _ => if truthy items then mediaItems ++ [items] else mediaItems
  end.

Definition urls_of (m : media) : list str :=
  filter nonempty (map trim (split "|"%char (url m))).

(** [loadFeed]: the list stored under [media.title]. *)
Definition loadFeed_items (m : media) : list value :=
  if nonempty (url m) && includes (url m) (lit "|") then
    fold_left (fun mediaItems u => add_items mediaItems (fetchMediaFromAPI (clone m u)))
              (urls_of m) []
  else
    match fetchMediaFromAPI m with
    | VArr xs => xs
    | v => [v]
    end.

End Fetch.

(** A request that always answers 429, and a feed to load with it. *)
Definition error_429 : error :=
  {| response := Some 429%Z;
     message := lit "Request failed with status code 429" |}.

Definition always_429 (u : str) : result value := Throw error_429.

Definition nasa_feed : media :=
  mkMedia (lit "nasa") (lit "NASA") (lit "https://api.nasa.gov/planetary/apod").

(** A civic-issue feed whose response holds one issue with an image and
    one issue with no [media] field. *)
Definition seeclickfix_feed : media :=
  mkMedia (lit "seeclickfix-311") (lit "SeeClickFix")
          (lit "https://seeclickfix.com/api/v2/issues?per_page=100").

Definition repo_feed : media :=
  mkMedia (lit "repo") (lit "Repo")
          (lit "https://api.github.com/repos/modelearth/requests/git/trees/main").

Definition issue_with_image : value :=
  VObj [ (lit "summary", VStr (lit "Pothole"));
         (lit "description", VStr (lit "Deep pothole on Elm St"));
         (lit "media", VObj [ (lit "image_full", VStr (lit "https://img/pothole.jpg")) ]) ].

Definition issue_without_media : value :=
  VObj [ (lit "summary", VStr (lit "Streetlight out"));
         (lit "description", VStr (lit "Dark corner")) ].

Definition issues_response (issues : list value) (u : str) : result value :=
  if str_eqb u (url repo_feed) then Ok (VObj [ (lit "tree", VArr []) ])
  else Ok (VObj [ (lit "issues", VArr issues) ]).

(** A feed backed by two URLs, of which the first answers with two
    items and the second with a server error. *)
Definition two_url_feed : media :=
  mkMedia (lit "nasa") (lit "NASA") (lit "https://a/apod|https://b/apod").

Definition error_500 : error :=
  {| response := Some 500%Z;
     message := lit "Request failed with status code 500" |}.

Definition first_url_only (u : str) : result value :=
  if str_eqb u (lit "https://a/apod") then
    Ok (VArr [ VObj [ (lit "title", VStr (lit "M31")); (lit "url", VStr (lit "https://img/m31.jpg")) ];
               VObj [ (lit "title", VStr (lit "M42")); (lit "url", VStr (lit "https://img/m42.jpg")) ] ])
  else Throw error_500.

(** The items one fetched value adds to the list. *)
Definition items_of (v : value) : list value := add_items [] v.

End Loader.

(** ** The card grid with typed adapters ([FeedPlayer.tsx], first copy) *)

Module Grid.

Definition detectFeedType (url : str) : str :=
  if includes url (lit "api.nasa.gov") then lit "nasa"
  else if includes url (lit "seeclickfix.com") then lit "seeclickfix"
  else if includes url (lit "bsky.app") then lit "bsky"
  else if includes url (lit "docs.google.com/spreadsheets") then lit "googlesheet"
  else lit "default".

(** A line terminator, which [.] of a regular expression does not match. *)
Definition is_line_terminator (a : ascii) : bool :=
  ascii_eqb a "010"%char || ascii_eqb a "013"%char.

(** [(.*?)(\/|$)] from the position after ["/d/"]: the shortest run of
    characters other than line terminators that is followed by a slash or
    by the end of the string. *)
Fixpoint lazy_until_slash (s : str) : option str :=
  match s with
  | [] => Some []
  | c :: s' =>
      if ascii_eqb c "/"%char then Some []
      else if is_line_terminator c then None
      else match lazy_until_slash s' with
           | Some id => Some (c :: id)
           | None => None
           end
  end.

(** [url.match(/\/d\/(.*?)(\/|$)/)]: the first group of the leftmost match,
    or [None] when nothing matches. *)
Fixpoint match_d (s : str) : option str :=
  match s with
  | [] => None
  | _ :: s' =>
      if startsWith s (lit "/d/") then
        match lazy_until_slash (skipn 3 s) with
        | Some id => Some id
        | None => match_d s'
        end
      else match_d s'
  end.

Definition gviz_csv_url (id : str) : str :=
  lit "https://docs.google.com/spreadsheets/d/" ++ id ++ lit "/gviz/tq?tqx=out:csv".

Definition processGoogleSheetUrl (url : str) : str :=
  if includes url (lit "/pub?") || includes url (lit "/gviz/tq?") then url
  else match match_d url with
       | Some id => if nonempty id then gviz_csv_url id else url
       | None => url
       end.

(** The normalisation written inline in [fetchFeeds] of the hash-driven
    grid: only the gviz form passes through. *)
Definition inlineSheetUrl (url : str) : str :=
  if negb (includes url (lit "/gviz/tq?")) then
    match match_d url with
    | Some id => if nonempty id then gviz_csv_url id else url
    | None => url
    end
  else url.

(** The request URL of the hash-driven grid for the selected feed. *)
Definition requestUrl (selectedUrl : str) : str :=
  if str_eqb (detectFeedType selectedUrl) (lit "googlesheet")
  then inlineSheetUrl selectedUrl else selectedUrl.

(** [Object.assign(target, source)]: the own properties of [source], in
    order, are written to [target]. *)
Definition indexed (xs : list value) : list (str * value) :=
  combine (map (fun i => num_to_str (Int (Z.of_nat i))) (seq 0 (length xs))) xs.

Definition own_props (v : value) : list (str * value) :=
  match v with
  | VObj props => props
  | VArr xs => indexed xs
  | VStr s => indexed (map (fun c => VStr [c]) s)
  | _ => []
  end.

Definition assign (target : list (str * value)) (source : value)
  : list (str * value) :=
  fold_left (fun acc kv => put (fst kv) (snd kv) acc) (own_props source) target.

(** [a || item.k]: the property is only read when [a] is falsy. *)
Definition or_else_get (a item : value) (k : str) : result value :=
  if truthy a then Ok a else get item k.

Section Adapters.

(** The component's props. *)
Variable feedType : str.
Variable feedFields : list str.
(** [await axios.get(url)]: the response's [data], or the rejection. *)
Variable axios_get : str -> result value.

Definition processFeedItem (item : value) (type : str) (sourceUrl : str)
  : result value :=
  let t := toLowerCase type in
  if str_eqb t (lit "nasa") then
    title <- get item (lit "title") ;;
    explanation <- get item (lit "explanation") ;;
    url <- get item (lit "url") ;;
    date <- get item (lit "date") ;;
    media_type <- get item (lit "media_type") ;;
    Ok (VObj [ (lit "title", title); (lit "description", explanation);
               (lit "url", url); (lit "date", date);
               (lit "media_type", media_type);
               (lit "source", VStr (lit "NASA APOD")) ])
  else if str_eqb t (lit "seeclickfix") then
    summary <- get item (lit "summary") ;;
    title <- or_else_get summary item (lit "title") ;;
    description <- get item (lit "description") ;;
    html_url <- get item (lit "html_url") ;;
    url <- or_else_get html_url item (lit "url") ;;
    created_at <- get item (lit "created_at") ;;
    date <- or_else_get created_at item (lit "date") ;;
    Ok (VObj [ (lit "title", title); (lit "description", description);
               (lit "url", url); (lit "date", date);
               (lit "source", VStr (lit "SeeClickFix"));
               (lit "media_type", VStr (lit "text")) ])
  else if str_eqb t (lit "bsky") then
    title <- get item (lit "title") ;;
    content <- get item (lit "content") ;;
    description <- or_else_get content item (lit "description") ;;
    link <- get item (lit "link") ;;
    url <- or_else_get link item (lit "url") ;;
    pubDate <- get item (lit "pubDate") ;;
    date <- or_else_get pubDate item (lit "date") ;;
    Ok (VObj [ (lit "title", title); (lit "description", description);
               (lit "url", url); (lit "date", date);
               (lit "source", VStr (lit "BlueSky"));
               (lit "media_type", VStr (lit "text")) ])
  else
    let processedItem := [ (lit "source", VStr sourceUrl) ] in
    if (0 <? length feedFields)%nat then
      fields <- mapM (fun field => v <- get item field ;; Ok (field, v)) feedFields ;;
      Ok (VObj (fold_left (fun acc kv => put (fst kv) (snd kv) acc)
                          fields processedItem))
    else Ok (VObj (assign processedItem item)).

(** One data row of the sheet zipped against the headers:
    [item[header.trim()] = row[index]?.trim() || ''] for each header. *)
Definition cell (row : list str) (index : nat) : value :=
  or_ (match nth_error row index with
       | Some c => VStr (trim c)
       | None => VUndefined
       end) (VStr []).

Definition zip_row (headers row : list str) : list (str * value) :=
  fold_left (fun item hi => put (trim (fst hi)) (cell row (snd hi)) item)
            (combine headers (seq 0 (length headers))) [].

(** The body of the [try] block of one feed promise. *)
Definition currentFeedType (url : str) : str :=
  if str_eqb feedType (lit "mixed") then detectFeedType url else feedType.

Definition feed_body (url : str) : result (list value) :=
  data <- axios_get url ;;
  let t := toLowerCase (currentFeedType url) in
  if str_eqb t (lit "nasa") then
    mapM (fun item => processFeedItem item (lit "nasa") url)
         (match data with VArr xs => xs | _ => [data] end)
  else if str_eqb t (lit "seeclickfix") then
    i <- get data (lit "issues") ;;
    match or_ i data with
    | VArr xs => mapM (fun item => processFeedItem item (lit "seeclickfix") url) xs
    | _ => Ok []
    end
  else if str_eqb t (lit "bsky") then
    i <- get data (lit "items") ;;
    match or_ i data with
    | VArr xs => mapM (fun item => processFeedItem item (lit "bsky") url) xs
    | _ => Ok []
    end
  else if str_eqb t (lit "googlesheet") then
    body <- as_string data ;;
    let rows := map (split ","%char) (split "010"%char body) in
    let headers := hd [] rows in
    mapM (fun row => processFeedItem (VObj (zip_row headers row))
                                     (lit "googlesheet") url)
         (tl rows)
  else
    if (0 <? length feedFields)%nat then
      match data with
      | VArr xs => mapM (fun item => processFeedItem item (lit "default") url) xs
      | _ => item <- processFeedItem data (lit "default") url ;; Ok [item]
      end
    else Ok (match data with VArr xs => xs | _ => [data] end).

(** A feed promise: a failed body resolves to the empty array. *)
Definition feed_promise (url : str) : list value :=
  match feed_body url with
  | Ok items => items
  | Throw _ => []
  end.

(** The URL list of [fetchFeeds]. *)
Definition feed_urls (feedUrls : str) : list str :=
  map (fun url => if str_eqb (detectFeedType url) (lit "googlesheet")
                  then processGoogleSheetUrl url else url)
      (filter nonempty (map trim (split "|"%char feedUrls))).

(** [results.flat()] *)
Definition flattenedResults (urls : list str) : list value :=
  concat (map feed_promise urls).

(** The component state written by [fetchFeeds]. *)
Record view := mkView {
  feeds : list value;
  loading : bool;
  error_text : option str
}.

Definition fetchFeeds (feedUrls : str) (v : view) : view :=
  let urls := feed_urls feedUrls in
  if (length urls =? 0)%nat then
    {| feeds := feeds v; loading := false;
       error_text := Some (lit "No valid feed URLs provided") |}
  else
    let flat := flattenedResults urls in
    if (length flat =? 0)%nat then
      {| feeds := feeds v; loading := false;
         error_text := Some (lit "No feed data available") |}
    else
      {| feeds := flat; loading := false; error_text := error_text v |}.

End Adapters.

(** A character that may stand inside a document identifier. *)
Definition id_char (c : ascii) : Prop :=
  c <> "/"%char /\ is_line_terminator c = false.

(** A sheet URL in its edit form, as the README gives it. *)
Definition edit_url : str :=
  lit "https://docs.google.com/spreadsheets/d/1jQTlXWom-pXvyP9zuTcbdluyvpb43hu2h7anxhF5qlQ/edit?usp=sharing".

(** A sheet URL in its published CSV form. *)
Definition published_csv_url : str :=
  lit "https://docs.google.com/spreadsheets/d/e/2PACX-1vSx/pub?output=csv".

(** The sheet of the scenario: a header line and two data lines. *)
Definition two_row_sheet : str :=
  lit "title,url" ++ ["010"%char] ++ lit "A,http://img/a.jpg"
    ++ ["010"%char] ++ lit "B,http://img/b.jpg".

(** A civic-issue response whose [issues] field is not an array, and a
    request that always fails. *)
Definition issues_not_array (u : str) : result value :=
  Ok (VObj [ (lit "issues", VStr (lit "temporarily unavailable")) ]).

Definition network_down (u : str) : result value :=
  Throw {| response := None; message := lit "Network Error" |}.

Definition empty_view : view :=
  {| feeds := []; loading := true; error_text := None |}.

Definition nullish (v : value) : bool :=
  match v with VUndefined | VNull => true | _ => false end.

(** What a property read gives on a value that is not nullish. *)
Definition read (v : value) (k : str) : value :=
  match v with
  | VObj props => match lookup k props with Some x => x | None => VUndefined end
  | _ => VUndefined
  end.

End Grid.

(** ** The feed map of the hash-driven grid ([key=url] entries) *)

Module FeedMap.

(** [acc] after one entry of the [reduce]:
    [const [key, url] = entry.split('='); if (key && url) acc[key.trim()] = url.trim();] *)
Definition add_entry (acc : list (str * value)) (entry : str)
  : list (str * value) :=
  match split "="%char entry with
  | key :: url :: _ =>
      if nonempty key && nonempty url then put (trim key) (VStr (trim url)) acc
      else acc
  | _ => acc
  end.

Definition buildFeedMap (feedUrls : str) : list (str * value) :=
  fold_left add_entry (split "|"%char feedUrls) [].

(** The value of a decimal digit. *)
Definition digit (c : ascii) : option N :=
  let n := N_of_ascii c in
  if ((48 <=? n) && (n <=? 57))%N then Some (n - 48)%N else None.

Fixpoint digits (acc : N) (s : str) : option N :=
  match s with
  | [] => Some acc
  | c :: s' =>
      match digit c with
      | Some d => digits (acc * 10 + d)%N s'
      | None => None
      end
  end.

(** A property key that is an array index: the canonical decimal form of
    an integer from 0 to 2^32 - 2. *)
Definition array_index (k : str) : option N :=
  match k with
  | [] => None
  | c :: rest =>
      if ascii_eqb c "0"%char && nonempty rest then None
      else match digits 0 k with
           | Some n => if (n <=? 4294967294)%N then Some n else None
           | None => None
           end
  end.

Definition is_index (k : str) : bool :=
  match array_index k with Some _ => true | None => false end.

Fixpoint insert_index (k : str) (n : N) (ks : list (str * N))
  : list (str * N) :=
  match ks with
  | [] => [(k, n)]
  | (k', n') :: rest =>
      if (n <=? n')%N then (k, n) :: ks else (k', n') :: insert_index k n rest
  end.

Definition sort_indices (ks : list (str * N)) : list (str * N) :=
  fold_right (fun kn acc => insert_index (fst kn) (snd kn) acc) [] ks.

Definition index_keys (ks : list str) : list (str * N) :=
  flat_map (fun k => match array_index k with
                     | Some n => [(k, n)]
                     | None => []
                     end) ks.

(** [Object.keys(obj)]: the array-index keys in ascending order, then the
    other keys in insertion order. *)
Definition Object_keys (obj : list (str * value)) : list str :=
  map fst (sort_indices (index_keys (map fst obj)))
  ++ filter (fun k => negb (is_index k)) (map fst obj).



(** Writing one property per element of a list, in order. *)
Definition write_all {A} (kf : A -> str) (vf : A -> value) (xs : list A)
           (acc : list (str * value)) : list (str * value) :=
  fold_left (fun a x => set (kf x) (vf x) a) xs acc.





Definition spec_of_scenario : str :=
  lit "nasa=https://x/apod|seeclickfix=https://y/issues".

End FeedMap.

(** ** The plain card grid ([src/components/FeedPlayer.jsx]) *)

Module CardGrid.

(** [before] and [after] the first occurrence of [pat] in [s]. *)
Fixpoint find_first (pat s : str) : option (str * str) :=
  if startsWith s pat then Some ([], skipn (length pat) s)
  else match s with
       | [] => None
       | c :: s' =>
           match find_first pat s' with
           | Some (before, after) => Some (c :: before, after)
           | None => None
           end
       end.

(** The replacement text of [String.prototype.replace] for a string
    pattern: [$$], [$&], [$`] and [$'] are expanded, every other character
    stands for itself. *)
Fixpoint substitution (matched before after replacement : str) : str :=
  match replacement with
  | [] => []
  | c :: r =>
      if ascii_eqb c "$"%char then
        match r with
        | d :: r' =>
            if ascii_eqb d "$"%char then "$"%char :: substitution matched before after r'
            else if ascii_eqb d "&"%char then matched ++ substitution matched before after r'
            else if ascii_eqb d "`"%char then before ++ substitution matched before after r'
            else if ascii_eqb d "'"%char then after ++ substitution matched before after r'
            else c :: substitution matched before after r
        | [] => [c]
        end
      else c :: substitution matched before after r
  end.

(** [s.replace(pat, replacement)] for a string pattern: only the first
    occurrence is replaced. *)
Definition replace (s pat replacement : str) : str :=
  match find_first pat s with
  | Some (before, after) =>
      before ++ substitution pat before after replacement ++ after
  | None => s
  end.

Section Fetch.

(** [localStorage.getItem(key)]: the stored string, or [null]. *)
Variable getItem : str -> option str.
(** [await axios.get(url)]: the response's [data], or the rejection. *)
Variable axios_get : str -> result value.

(** [localStorage.getItem(key) || fallback] *)
Definition stored_or (key fallback : str) : str :=
  match getItem key with
  | Some s => if nonempty s then s else fallback
  | None => fallback
  end.

(** The request URL of one source URL. *)
Definition apiUrl (url : str) : str :=
  if includes url (lit "seeclickfix.com") then
    replace (replace url (lit "{latitude}") (stored_or (lit "latitude") (lit "41.307")))
            (lit "{longitude}") (stored_or (lit "longitude") (lit "-72.925"))
  else url.

(** [item.media && (item.media.image_full || item.media.representative_image_url)] *)
Definition has_image (item : value) : result bool :=
  m <- get item (lit "media") ;;
  if truthy m then
    full <- get m (lit "image_full") ;;
    if truthy full then Ok true
    else r <- get m (lit "representative_image_url") ;; Ok (truthy r)
  else Ok false.

(** The body of the [try] block for one source URL: the items to append. *)
Definition fetch_url (url : str) : result (list value) :=
  let apiUrl := apiUrl url in
  response_data <- axios_get apiUrl ;;
  issues <- get response_data (lit "issues") ;;
  let data := or_ issues response_data in
  if includes apiUrl (lit "seeclickfix.com") then
    xs <- as_array data ;;
    ys <- Loader.filterM has_image xs ;;
    Ok (firstn 5 ys)
  else
    Ok (match data with VArr xs => xs | _ => [data] end).

Definition failed_item (e : error) : value :=
  VObj [ (lit "title", VStr (lit "Failed to load feed"));
         (lit "description", VStr (message e));
         (lit "image", VStr []) ].

(** One turn of the loop: [allItems] after the URL. *)
Definition step (allItems : list value) (url : str) : list value :=
  match fetch_url url with
  | Ok data => allItems ++ data
  | Throw e => allItems ++ [failed_item e]
  end.

Definition fetchFeeds (feedUrls : str) : list value :=
  fold_left step (filter nonempty (map trim (split "|"%char feedUrls))) [].

End Fetch.

(** An issue has an image when its [media] is truthy and one of the two
    image fields is. *)
Definition has_imageb (item : value) : bool :=
  truthy (Grid.read item (lit "media")) &&
  (truthy (Grid.read (Grid.read item (lit "media")) (lit "image_full")) ||
   truthy (Grid.read (Grid.read item (lit "media"))
                     (lit "representative_image_url"))).

(** The request URL of the README, no stored coordinates, and a response
    of seven issues of which six have an image. *)
Definition template_url : str :=
  lit "https://seeclickfix.com/api/v2/issues?lat={latitude}&lng={longitude}&per_page=100".

Definition no_storage (key : str) : option str := None.

Definition issue (n : Z) (image : value) : value :=
  VObj [ (lit "id", VNum (Int n));
         (lit "media", VObj [ (lit "image_full", image) ]) ].

Definition seven_issues : list value :=
  [ issue 1 (VStr (lit "https://img/1.jpg")); issue 2 VNull;
    issue 3 (VStr (lit "https://img/3.jpg")); issue 4 (VStr (lit "https://img/4.jpg"));
    issue 5 (VStr (lit "https://img/5.jpg")); issue 6 (VStr (lit "https://img/6.jpg"));
    issue 7 (VStr (lit "https://img/7.jpg")) ].

Definition seven_issue_response (u : str) : result value :=
  Ok (VObj [ (lit "issues", VArr seven_issues) ]).

End CardGrid.

(** ** The hash router of the player

    [window.location.hash] is a string; the strings that the router
    writes hold no character that the browser would re-encode, so
    assigning to it stores the string as it is. *)

Module Hash.

(** *** Percent-encoding *)

Definition hex_digit (n : nat) : ascii :=
  if (n <? 10)%nat then ascii_of_nat (48 + n) else ascii_of_nat (55 + n).

Definition hex_value (c : ascii) : option nat :=
  let n := nat_of_ascii c in
  if ((48 <=? n) && (n <=? 57))%nat then Some (n - 48)
  else if ((65 <=? n) && (n <=? 70))%nat then Some (n - 55)
  else if ((97 <=? n) && (n <=? 102))%nat then Some (n - 87)
  else None.

Definition percent_byte (c : ascii) : str :=
  let n := nat_of_ascii c in
  [ "%"%char; hex_digit (n / 16); hex_digit (n mod 16) ].

Definition is_alnum (c : ascii) : bool :=
  let n := nat_of_ascii c in
  ((48 <=? n) && (n <=? 57) || (65 <=? n) && (n <=? 90)
   || (97 <=? n) && (n <=? 122))%nat.

Definition one_of (chars : string) (c : ascii) : bool :=
  existsb (ascii_eqb c) (lit chars).

(** [encodeURIComponent(s)] *)
Definition encodeURIComponent (s : str) : str :=
  flat_map (fun c => if is_alnum c || one_of "-_.!~*'()" c then [c]
                     else percent_byte c) s.

(** The serialiser of [URLSearchParams.toString()] for one name or
    value. *)
Definition form_encode (s : str) : str :=
  flat_map (fun c => if ascii_eqb c " "%char then ["+"%char]
                     else if is_alnum c || one_of "*-._" c then [c]
                     else percent_byte c) s.

Fixpoint percent_decode (s : str) : str :=
  match s with
  | [] => []
  | c :: tail =>
      if ascii_eqb c "%"%char then
        match tail with
        | h1 :: h2 :: rest =>
            match hex_value h1, hex_value h2 with
            | Some a, Some b => ascii_of_nat (16 * a + b) :: percent_decode rest
            | _, _ => c :: percent_decode tail
            end
        | _ => c :: percent_decode tail
        end
      else c :: percent_decode tail
  end.

Definition plus_to_space (s : str) : str :=
  map (fun c => if ascii_eqb c "+"%char then " "%char else c) s.

(** *** [URLSearchParams] *)

Definition params := list (str * str).

(** The name and the value of one sequence: cut at the first [=]. *)
Fixpoint cut_at_equals (s : str) : str * str :=
  match s with
  | [] => ([], [])
  | c :: s' =>
      if ascii_eqb c "="%char then ([], s')
      else let (name, value) := cut_at_equals s' in (c :: name, value)
  end.

Definition parse_pair (s : str) : str * str :=
  let (name, value) := cut_at_equals s in
  (percent_decode (plus_to_space name), percent_decode (plus_to_space value)).

(** [new URLSearchParams(init)] for a string. *)
Definition URLSearchParams (init : str) : params :=
  let s := match init with
           | c :: s' => if ascii_eqb c "?"%char then s' else init
           | [] => init
           end in
  map parse_pair (filter nonempty (split "&"%char s)).

(** [params.get(name)]: the first value of the name, or [null]. *)
Fixpoint get_param (name : str) (ps : params) : option str :=
  match ps with
  | [] => None
  | (n, v) :: rest => if str_eqb n name then Some v else get_param name rest
  end.

(** [params.set(name, value)]: the first pair of the name takes the
    value and the other pairs of the name are removed; a new name is
    appended. *)
Fixpoint set_param (name value : str) (ps : params) : params :=
  match ps with
  | [] => [(name, value)]
  | (n, v) :: rest =>
      if str_eqb n name
      then (n, value) :: filter (fun p => negb (str_eqb (fst p) name)) rest
      else (n, v) :: set_param name value rest
  end.

Fixpoint join (sep : str) (xs : list str) : str :=
  match xs with
  | [] => []
  | [x] => x
  | x :: rest => x ++ sep ++ join sep rest
  end.

(** [params.toString()] *)
Definition toString (ps : params) : str :=
  join (lit "&") (map (fun p => form_encode (fst p) ++ lit "=" ++ form_encode (snd p)) ps).

(** *** [parseInt(s, 10)]

    The numeral is read as the integer it writes.  The source reads it
    as a double: the two agree for every numeral below 2^53; a longer
    numeral is rounded there, and one of more than 308 digits reads as
    an infinity.  White space is the white space of ASCII; [seven_bit]
    names the strings on which this is all the white space there is. *)

Fixpoint leading_digits (s : str) : str :=
  match s with
  | c :: s' => match FeedMap.digit c with
               | Some _ => c :: leading_digits s'
               | None => []
               end
  | [] => []
  end.

Definition digits_value (s : str) : Z :=
  fold_left (fun acc c => match FeedMap.digit c with
                          | Some d => acc * 10 + Z.of_N d
                          | None => acc
                          end)%Z s 0%Z.

Definition parseInt (v : option str) : num :=
  match v with
  | None => NaN
  | Some s =>
      let t := trimStart s in
      let (negative, body) :=
        match t with
        | c :: t' => if ascii_eqb c "-"%char then (true, t')
                     else if ascii_eqb c "+"%char then (false, t')
                     else (false, t)
        | [] => (false, t)
        end in
      match leading_digits body with
      | [] => NaN
      | ds => Int (if negative then - digits_value ds else digits_value ds)
      end
  end.

(** A string of ASCII characters. *)
Definition seven_bit (s : str) : bool :=
  forallb (fun c => (nat_of_ascii c <? 128)%nat) s.

(** [n || 0] *)
Definition or_zero (n : num) : num :=
  match n with
  | NaN => Int 0
  | _ => n
  end.

(** [hash.substring(1)] *)
Definition substring1 (s : str) : str := tl s.

(** [parseHash()] on the current hash. *)
Definition parseHash (hash : str) : str * num :=
  let ps := URLSearchParams (substring1 hash) in
  (match get_param (lit "feed") ps with
   | Some s => s           (* [s || ""] is [s] for every string *)
   | None => []
   end,
   or_zero (parseInt (get_param (lit "ref") ps))).

(** *** [updateURLHash(feed, ref)]: the new hash *)

(** The first player writes the two parameters and nothing else. *)
Definition updateURLHash_first (feed : str) (ref : num) (hash : str) : str :=
  lit "#feed=" ++ encodeURIComponent feed ++ lit "&ref=" ++ num_to_str ref.

(** The second player carries the other parameters over. *)
Definition otherParams (hash : str) : params :=
  fold_left (fun other p =>
               if negb (str_eqb (fst p) (lit "feed"))
                  && negb (str_eqb (fst p) (lit "ref"))
               then set_param (fst p) (snd p) other else other)
            (URLSearchParams (substring1 hash)) [].

Definition updateURLHash (feed : str) (ref : num) (hash : str) : str :=
  let base := lit "#feed=" ++ encodeURIComponent feed ++ lit "&ref="
              ++ num_to_str ref in
  if nonempty (toString (otherParams hash))
  then base ++ lit "&" ++ toString (otherParams hash)
  else base.

(** What [encodeURIComponent] and the serialiser write for one
    character. *)
Definition uri_char (c : ascii) : str :=
  if is_alnum c || one_of "-_.!~*'()" c then [c] else percent_byte c.

Definition form_char (c : ascii) : str :=
  if ascii_eqb c " "%char then ["+"%char]
  else if is_alnum c || one_of "*-._" c then [c]
  else percent_byte c.

(** The value of a decimal numeral read from the left with an
    accumulator, as [digits_value] reads its characters. *)
Fixpoint uint_value (d : Decimal.uint) (acc : Z) : Z :=
  match d with
  | Decimal.Nil => acc
  | Decimal.D0 d' => uint_value d' (acc * 10 + 0)
  | Decimal.D1 d' => uint_value d' (acc * 10 + 1)
  | Decimal.D2 d' => uint_value d' (acc * 10 + 2)
  | Decimal.D3 d' => uint_value d' (acc * 10 + 3)
  | Decimal.D4 d' => uint_value d' (acc * 10 + 4)
  | Decimal.D5 d' => uint_value d' (acc * 10 + 5)
  | Decimal.D6 d' => uint_value d' (acc * 10 + 6)
  | Decimal.D7 d' => uint_value d' (acc * 10 + 7)
  | Decimal.D8 d' => uint_value d' (acc * 10 + 8)
  | Decimal.D9 d' => uint_value d' (acc * 10 + 9)
  end%Z.

Definition digit_step (acc : Z) (c : ascii) : Z :=
  match FeedMap.digit c with
  | Some d => acc * 10 + Z.of_N d
  | None => acc
  end%Z.

(** The text of one parameter in [toString]. *)
Definition pair_text (p : str * str) : str :=
  form_encode (fst p) ++ lit "=" ++ form_encode (snd p).

Definition is_digit (c : ascii) : bool :=
  match FeedMap.digit c with Some _ => true | None => false end.

(** [d] does not occur in [s]. *)
Definition lacks (d : ascii) (s : str) : bool :=
  forallb (fun x => negb (ascii_eqb x d)) s.

(** The parameters [updateURLHash] carries over. *)
Definition carried (p : str * str) : bool :=
  negb (str_eqb (fst p) (lit "feed")) && negb (str_eqb (fst p) (lit "ref")).

(** The parameter of a hash, as [URLSearchParams] reads it. *)
Definition param_of (hash name : str) : option str :=
  get_param name (URLSearchParams (substring1 hash)).

(** A hash that carries the settings tab of the host page, and a hash
    in which a parameter stands twice. *)
Definition hash_with_sidetab : str := lit "#feed=nasa&ref=0&sidetab=settings".

Definition hash_with_repeated_param : str := lit "#feed=nasa&ref=0&tag=a&tag=b".

End Hash.

(** ** Navigation by hash in the player (second VideoPlayer)

    [listofMedia] maps a feed title to the item list that [loadFeed]
    stored for it; every write to it stores an array.  Feed titles are
    taken not to be names of [Object.prototype]. *)

Module Router.

Import Player Loader Hash.

Definition store_of := list (str * list value).

(** [listofMedia[title]] *)
Fixpoint loaded (title : str) (l : store_of) : option (list value) :=
  match l with
  | [] => None
  | (t, items) :: rest => if str_eqb t title then Some items else loaded title rest
  end.

(** [listofMedia[title] = items] *)
Fixpoint store (title : str) (items : list value) (l : store_of) : store_of :=
  match l with
  | [] => [(title, items)]
  | (t, old) :: rest =>
      if str_eqb t title then (t, items) :: rest
      else (t, old) :: store title items rest
  end.

(** [media.feed.trim().toLowerCase() === feed.toLowerCase()] *)
Definition feed_matches (feed : str) (m : media) : bool :=
  str_eqb (toLowerCase (trim (Player.feed m))) (toLowerCase feed).

(** [mediaList.find(p)] together with [mediaList.indexOf] of the element
    found: the first element that satisfies [p], and its position. *)
Fixpoint find_from {A} (p : A -> bool) (xs : list A) (i : nat)
  : option (nat * A) :=
  match xs with
  | [] => None
  | x :: rest => if p x then Some (i, x) else find_from p rest (S i)
  end.

(** [ref >= 0] *)
Definition nonneg (n : num) : bool :=
  match n with
  | Int z => (0 <=? z)%Z
  | NaN => false
  | Inf negative => negb negative
  end.

(** [if (selectedMedia && ref >= 0 && selectedMedia[ref]) { setIndex(...);
    setSelectedMediaList(selectedMedia); setCurrentMedia(selectedMedia[ref]);
    setCurrentMediaIndex(ref); }] *)
Definition show_ref (idx : nat) (selectedMedia : list value) (ref : num)
           (st : state) : state :=
  if nonneg ref && truthy (at_index selectedMedia ref) then
    {| mediaList := mediaList st;
       index := Z.of_nat idx;
       selectedMediaList := selectedMedia;
       currentMediaIndex := ref;
       currentMedia := at_index selectedMedia ref |}
  else st.

Section Navigation.

Variable axios_get : str -> result value.
Variables swiperData videoData : value.

(** The list that [loadFeed(media, listofMedia)] stores under the
    title. *)
Definition loadFeed (st : state) (m : media) : list value :=
  loadFeed_items axios_get swiperData videoData (mediaList st) m.

(** [handleHashChange]: the store and the state after the handler (and
    after the load it may start) have run. *)
Definition handleHashChange (listofMedia : store_of) (hash : str) (st : state)
  : store_of * state :=
  let (feed, ref) := parseHash hash in
  if nonempty feed then
    match find_from (feed_matches feed) (mediaList st) 0 with
    | Some (idx, selectedFeed) =>
        match loaded (title selectedFeed) listofMedia with
        | None =>
            let items := loadFeed st selectedFeed in
            (store (title selectedFeed) items listofMedia,
             show_ref idx items ref st)
        | Some selectedMedia =>
            (listofMedia, show_ref idx selectedMedia ref st)
        end
    | None => (listofMedia, st)
    end
  else (listofMedia, st).

(** A click on entry [idx] of the feed menu: a feed that is listed in
    [loadedFeeds] is shown from the store, any other feed is loaded
    first.  The result is the store, the state and the hash; reading the
    first item of a feed that the store does not hold throws. *)
Definition selectFeed (loadedFeeds : list str) (listofMedia : store_of)
           (idx : nat) (m : media) (hash : str) (st : state)
  : result (store_of * state * str) :=
  let shown (l : store_of) :=
    match loaded (title m) l with
    | Some items =>
        Ok (l,
            {| mediaList := mediaList st;
               index := Z.of_nat idx;
               selectedMediaList := items;
               currentMediaIndex := Int 0;
               currentMedia := at_index items (Int 0) |},
            updateURLHash (Player.feed m) (Int 0) hash)
    | None => Throw TypeError
    end in
  if existsb (str_eqb (toLowerCase (trim (Player.feed m)))) loadedFeeds
  then shown listofMedia
  else shown (store (title m) (loadFeed st m) listofMedia).

(** [processMediaList]: the first load of the player.  The feed whose
    key is [nasa] is loaded and shown from its first item; without such
    a feed nothing is loaded. *)
Definition processMediaList (listofMedia : store_of) (st : state)
  : store_of * state :=
  match find (fun m => str_eqb (feed_kind m) (lit "nasa")) (mediaList st) with
  | Some nasaFeed =>
      let items := loadFeed st nasaFeed in
      ([(title nasaFeed, items)],
       {| mediaList := mediaList st;
          index := index st;
          selectedMediaList := items;
          currentMediaIndex := currentMediaIndex st;
          currentMedia := at_index items (Int 0) |})
  | None => (listofMedia, st)
  end.

End Navigation.

(** The effect that follows a change of the cursor or of the current
    item: [if (currentMedia && selectedMediaList.length > 0)
    updateURLHash(mediaList[index].feed, currentMediaIndex)].  The
    result is the new hash; reading the feed of an entry that the menu
    does not have throws. *)
Definition writeHash (hash : str) (st : state) : result str :=
  if truthy (currentMedia st) && (0 <? len (selectedMediaList st))%Z then
    if (index st <? 0)%Z then Throw TypeError
    else match nth_error (mediaList st) (Z.to_nat (index st)) with
         | Some m => Ok (updateURLHash (Player.feed m) (currentMediaIndex st) hash)
         | None => Throw TypeError
         end
  else Ok hash.

(** The position of an item in a list, as a number. *)
Definition item_at (xs : list value) (z : Z) : value := at_index xs (Int z).

(** A request that answers every URL with two pictures. *)
Definition two_pictures (u : str) : result value :=
  Ok (VArr [ VObj [ (lit "title", VStr (lit "M31"));
                    (lit "url", VStr (lit "https://img/m31.jpg")) ];
             VObj [ (lit "title", VStr (lit "M42"));
                    (lit "url", VStr (lit "https://img/m42.jpg")) ] ]).

End Router.
(** ** The feed chosen by hash in the hash-driven grids

    Two copies of the grid keep the active feed in the hash:
    [feed/src/components/FeedPlayer.tsx] names a feed by its detected
    type, [part_003] by the key of a [key=url] entry. *)

Module HashGrid.

Import Hash.

(** [acc[type] = url.trim()] with [type = detectFeedType(url.trim())] *)
Definition add_url (acc : list (str * value)) (url : str)
  : list (str * value) :=
  set (Grid.detectFeedType (trim url)) (VStr (trim url)) acc.

(** [buildFeedMap] of [FeedPlayer.tsx], which names a feed by its
    type. *)
Definition buildFeedMap (feedUrls : str) : list (str * value) :=
  fold_left add_url (split "|"%char feedUrls) [].

Definition feedTypes (feedUrls : str) : list str :=
  FeedMap.Object_keys (buildFeedMap feedUrls).

(** [window.location.hash = `feed=${encodeURIComponent(feedType)}`]: the
    hash that is stored. *)
Definition setFeedHash (feedType : str) : str :=
  lit "#feed=" ++ encodeURIComponent feedType.

(** [hash.replace(/^#/, '')] *)
Definition strip_hash (hash : str) : str :=
  match hash with
  | c :: rest => if ascii_eqb c "#"%char then rest else hash
  | [] => []
  end.

(** [window.location.hash && window.location.hash.includes('feed=')] *)
Definition names_feed (hash : str) : bool :=
  nonempty hash && includes hash (lit "feed=").

Definition feed_param (query : str) : option str :=
  get_param (lit "feed") (URLSearchParams query).

(** [xs.includes(x)] *)
Definition member (x : str) (xs : list str) : bool := existsb (str_eqb x) xs.

(** A value that may be [null] is truthy. *)
Definition given (v : option str) : bool :=
  match v with Some s => nonempty s | None => false end.

(** *** [FeedPlayer.tsx]: the first type that the parameter starts with *)

Definition getFeedFromHash (feedTypes : list str) (hash : str) : option str :=
  if names_feed hash then
    match feed_param (strip_hash hash) with
    | Some feedParam =>
        if nonempty feedParam then
          match find (fun type => startsWith feedParam type) feedTypes with
          | Some matchedType =>
              if nonempty matchedType then Some matchedType else None
          | None => None
          end
        else None
    | None => None
    end
  else None.

Definition onMount (feedTypes : list str) (hash : str)
           (activeFeed : option str) : option str * str :=
  match feedTypes with
  | [] => (activeFeed, hash)
  | defaultFeedType :: _ =>
      if given (getFeedFromHash feedTypes hash)
      then (getFeedFromHash feedTypes hash, hash)
      else (Some defaultFeedType, setFeedHash defaultFeedType)
  end.

Definition onHashChange (feedTypes : list str) (hash : str)
           (activeFeed : option str) : option str :=
  match getFeedFromHash feedTypes hash with
  | Some f => if nonempty f && member f feedTypes then Some f else activeFeed
  | None => activeFeed
  end.

(** *** [part_003]: a key of the [key=url] map *)

(** The names that every object inherits from [Object.prototype]; a
    read of one of them on a map that does not own it finds a function
    (or, for [__proto__], the prototype), which is truthy. *)
Definition inherited (k : str) : bool :=
  member k [ lit "constructor"; lit "hasOwnProperty"; lit "isPrototypeOf";
             lit "propertyIsEnumerable"; lit "toLocaleString";
             lit "toString"; lit "valueOf"; lit "__proto__";
             lit "__defineGetter__"; lit "__defineSetter__";
             lit "__lookupGetter__"; lit "__lookupSetter__" ].

(** Truthiness of [feedMap[k]]. *)
Definition holds (feedMap : list (str * value)) (k : str) : bool :=
  match lookup k feedMap with
  | Some v => truthy v
  | None => inherited k
  end.

Definition getFeedFromHash_key (feedMap : list (str * value)) (hash : str)
  : option str :=
  if names_feed hash then
    match feed_param (strip_hash hash) with
    | Some feedParam =>
        if nonempty feedParam && holds feedMap feedParam
        then Some feedParam else None
    | None => None
    end
  else None.

Definition onMount_key (feedMap : list (str * value)) (hash : str)
           (activeFeed : option str) : option str * str :=
  match FeedMap.Object_keys feedMap with
  | [] => (activeFeed, hash)
  | defaultFeed :: _ =>
      if given (getFeedFromHash_key feedMap hash)
      then (getFeedFromHash_key feedMap hash, hash)
      else (Some defaultFeed, setFeedHash defaultFeed)
  end.

Definition onHashChange_key (feedMap : list (str * value)) (hash : str)
           (activeFeed : option str) : option str :=
  if given (getFeedFromHash_key feedMap hash)
  then getFeedFromHash_key feedMap hash else activeFeed.

(** The five feed types. *)
Definition known_types : list str :=
  [ lit "nasa"; lit "seeclickfix"; lit "bsky"; lit "googlesheet"; lit "default" ].

(** The trimmed segments of a specification string. *)
Definition trimmed_segments (feedUrls : str) : list str :=
  map trim (split "|"%char feedUrls).

End HashGrid.
(** ** The card grid of civic issues by coordinates
    ([feed/src/components/FeedPlayer.jsx], first script) *)

Module CoordGrid.

Import Hash.

(** [s.split(/[|]|(?=seeclickfix\.com)/)]: the string is cut at every
    [|], which is dropped, and before every occurrence of
    [seeclickfix.com] that does not stand at the start of a piece.
    [fresh] says that the piece in progress is still empty. *)
Definition cons_head (c : ascii) (pieces : list str) : list str :=
  match pieces with
  | p :: ps => (c :: p) :: ps
  | [] => [[c]]
  end.

Fixpoint split_parts (s : str) (fresh : bool) : list str :=
  match s with
  | [] => [[]]
  | c :: s' =>
      if ascii_eqb c "|"%char then [] :: split_parts s' true
      else if startsWith (c :: s') (lit "seeclickfix.com") && negb fresh
           then [] :: cons_head c (split_parts s' false)
           else cons_head c (split_parts s' false)
  end.

(** A character of the class [[\d.-]]. *)
Definition coord_char (c : ascii) : bool :=
  is_digit c || ascii_eqb c "."%char || ascii_eqb c "-"%char.

Fixpoint take_class (s : str) : str :=
  match s with
  | c :: s' => if coord_char c then c :: take_class s' else []
  | [] => []
  end.

(** [/name([\d.-]+)/.exec(s)]: the first group of the leftmost match. *)
Fixpoint exec_coord (name s : str) : option str :=
  let next := match s with
              | [] => None
              | _ :: s' => exec_coord name s'
              end in
  if startsWith s name then
    match take_class (skipn (length name) s) with
    | [] => next
    | run => Some run
    end
  else next.

(** The request URL built from the coordinates of one part. *)
Definition issues_url (lat lng : str) : str :=
  lit "https://seeclickfix.com/api/v2/issues?"
  ++ toString (set_param (lit "per_page") (lit "100")
                 (set_param (lit "lng") lng (set_param (lit "lat") lat []))).

(** What one part of the specification adds to [urls]. *)
Definition request_of (part : str) : list str :=
  let part := trim part in
  if negb (nonempty part) then []
  else if negb (includes part (lit "seeclickfix.com/api/v2/issues")) then []
  else match exec_coord (lit "lat=") part, exec_coord (lit "lng=") part with
       | Some lat, Some lng => [issues_url lat lng]
       | _, _ => []
       end.

(** [(feedUrls || "").trim()] and the request URLs made from its parts. *)
Definition request_urls (feedUrls : option str) : list str :=
  let input := trim (match feedUrls with Some s => s | None => [] end) in
  flat_map request_of (split_parts input true).

Record view := mkView {
  items : list value;
  loading : bool;
  error : option str
}.

Definition no_urls_message : str :=
  lit "No valid SeeClickFix URLs found. Please check the URL format.".

Definition no_items_message : str :=
  lit "No items found with images. Please check the coordinates or try different locations.".

Section Fetch.

Variable axios_get : str -> result value.

(** The body of the [try] block for one request URL: the issues to
    append. *)
Definition issues_with_image (apiUrl : str) : result (list value) :=
  data <- axios_get apiUrl ;;
  i <- get data (lit "issues") ;;
  let issues := match i with VArr xs => xs | _ => [] end in
  if (length issues =? 0)%nat then Ok []
  else ys <- Loader.filterM CardGrid.has_image issues ;; Ok (firstn 5 ys).

Definition step (allItems : list value) (apiUrl : str) : list value :=
  match issues_with_image apiUrl with
  | Ok data => allItems ++ data
  | Throw _ => allItems
  end.

(** The component state after [fetchFeeds]. *)
Definition fetchFeeds (feedUrls : option str) : view :=
  let urls := request_urls feedUrls in
  if (length urls =? 0)%nat then
    {| items := []; loading := false; error := Some no_urls_message |}
  else
    let allItems := fold_left step urls [] in
    if (length allItems =? 0)%nat then
      {| items := []; loading := false; error := Some no_items_message |}
    else {| items := allItems; loading := false; error := None |}.

End Fetch.

(** The URL of the README with a status filter, and a specification of
    two places. *)
Definition open_issues_url : str :=
  lit "https://seeclickfix.com/api/v2/issues?lat=41.307&lng=-72.925&status=open&per_page=5".

End CoordGrid.
(** ** The cards of the plain card grid ([src/components/FeedPlayer.jsx]) *)

Module Cards.

Import Grid.

(** [extractFields(item)]: the fields of the card. *)
Definition extractFields (item : value) : result value :=
  title <- get item (lit "title") ;;
  title <- or_else_get title item (lit "summary") ;;
  title <- or_else_get title item (lit "name") ;;
  description <- get item (lit "description") ;;
  description <- or_else_get description item (lit "text") ;;
  description <- or_else_get description item (lit "content") ;;
  image_url <- get item (lit "image_url") ;;
  image <- (if truthy image_url then Ok image_url
            else
              media <- get item (lit "media") ;;
              of_media <- (if truthy media then
                             full <- get media (lit "image_full") ;;
                             or_else_get full media (lit "representative_image_url")
                           else Ok media) ;;
              or_else_get of_media item (lit "url")) ;;
  date <- get item (lit "date") ;;
  date <- or_else_get date item (lit "created_at") ;;
  Ok (VObj [ (lit "title", or_ title (VStr (lit "Untitled")));
             (lit "description", or_ description (VStr []));
             (lit "image", or_ image (VStr []));
             (lit "date", or_ date (VStr [])) ]).

(** [{image && <img src={image} />}]: the card shows a picture. *)
Definition shows_image (card : value) : bool :=
  truthy (read card (lit "image")).

Section Fetch.

Variable getItem : str -> option str.
Variable axios_get : str -> result value.

(** What one source URL adds to [allItems]. *)
Definition contribution (url : str) : list value :=
  match CardGrid.fetch_url getItem axios_get url with
  | Ok data => data
  | Throw e => [CardGrid.failed_item e]
  end.

End Fetch.

(** The source URLs of the grid. *)
Definition source_urls (feedUrls : str) : list str :=
  filter nonempty (map trim (split "|"%char feedUrls)).

End Cards.
(** ** What the feed kinds of the player produce *)

Module FeedKinds.

Import Player Loader Grid.

(** The number [i] in a template literal. *)
Definition nth_name (prefix : string) (i : nat) : str :=
  lit prefix ++ num_to_str (Int (Z.of_nat i)).

(** A film entry has photo [i]. *)
Definition has_photo (item : value) (i : nat) : bool :=
  truthy (read item (nth_name "photo" i)).

(** The item made for photo [i] of a film entry. *)
Definition photo_card (item : value) (i : nat) : value :=
  VObj [ (lit "url", read item (nth_name "photo" i));
         (lit "text", or_ (read item (lit "description")) no_description);
         (lit "title", or_ (read item (nth_name "photoText" i))
                           (VStr (lit "No title available"))) ].

Definition photos_of (item : value) : list value :=
  map (photo_card item) (filter (has_photo item) (seq 1 10)).

(** The object returned for the [swiper] and the [linkedvideo] feed
    while nothing has been chosen. *)
Definition prompt_item (m : media) (text : string) : value :=
  VObj [ (lit "url", VNull);
         (lit "text", VStr (lit text));
         (lit "title", failed_title m);
         (lit "isError", VBool true) ].

(** The address of a file of the repository. *)
Definition raw_url (path : str) : str :=
  lit "https://raw.githubusercontent.com/modelearth/requests/main/" ++ path.

(** A path names a picture of the repository feed. *)
Definition is_picture (path : str) : bool := is_repo_image (VStr path).

(** The item made for a file of the repository. *)
Definition file_card (path : str) : value :=
  VObj [ (lit "url", VStr (raw_url path));
         (lit "text", no_description);
         (lit "title", VStr (pop (split "/"%char path))) ].

(** The feed named [repo], as [mediaList.find] looks for it. *)
Definition repoFeed (feeds : list media) : option media :=
  find (fun f => str_eqb (trim (feed f)) (lit "repo")) feeds.

(** A film entry with two photos, the second without a caption. *)
Definition film_entry : value :=
  VObj [ (lit "description", VStr (lit "Old mill"));
         (lit "photo1", VStr (lit "https://img/mill-1.jpg"));
         (lit "photoText1", VStr (lit "Front"));
         (lit "photo3", VStr (lit "https://img/mill-3.jpg"));
         (lit "photo11", VStr (lit "https://img/mill-11.jpg")) ].

Definition film_feed : media :=
  mkMedia (lit "film-scouting") (lit "Film")
          (lit "https://example.org/film.json").

(** A tree of three files, of which two are pictures. *)
Definition tree_response (u : str) : result value :=
  Ok (VObj [ (lit "tree",
              VArr [ VObj [ (lit "path", VStr (lit "img/a/Mill.JPG")) ];
                     VObj [ (lit "path", VStr (lit "README.md")) ];
                     VObj [ (lit "path", VStr (lit "logo.gif")) ] ]) ]).

Definition swiper_feed : media :=
  mkMedia (lit "swiper") (lit "Swiper") (lit "https://example.org/swiper").

End FeedKinds.
(** ** What is drawn *)

Module Screens.

Import Grid.

(** The three screens of the typed card grid ([FeedPlayer.tsx], first
    copy): [if (loading) ...; if (error) ...; return <Grid>...]. *)
Inductive screen :=
| Spinner
| ErrorText (e : str)
| Cards (items : list value).

Definition render (v : view) : screen :=
  if loading v then Spinner
  else match error_text v with
       | Some e => if nonempty e then ErrorText e else Cards (feeds v)
       | None => Cards (feeds v)
       end.

(** The item that the [nasa] adapter makes. *)
Definition nasa_card (item : value) : value :=
  VObj [ (lit "title", read item (lit "title"));
         (lit "description", read item (lit "explanation"));
         (lit "url", read item (lit "url"));
         (lit "date", read item (lit "date"));
         (lit "media_type", read item (lit "media_type"));
         (lit "source", VStr (lit "NASA APOD")) ].

(** A type that [processFeedItem] handles in its [default] case. *)
Definition generic (type : str) : bool :=
  negb (str_eqb (toLowerCase type) (lit "nasa"))
  && negb (str_eqb (toLowerCase type) (lit "seeclickfix"))
  && negb (str_eqb (toLowerCase type) (lit "bsky")).

(** [extensions.some((extension) => src.toLowerCase().endsWith(extension))] *)
Definition ends_with_one_of (extensions : list str) (src : str) : bool :=
  existsb (fun extension => endsWith (toLowerCase src) extension) extensions.

Definition imageExtensions : list str :=
  [ lit ".jpg"; lit ".jpeg"; lit ".png"; lit ".gif"; lit ".bmp"; lit ".webp" ].

Definition videoExtensions : list str :=
  [ lit ".mp4"; lit ".webm"; lit ".ogg" ].

(** [isImageFile(src)] and [isVideoFile(src)] of the player: a falsy
    [src] is neither, a string is tested by its ending, and any other
    truthy value has no [toLowerCase] to call. *)
Definition isImageFile (src : value) : result bool :=
  if negb (truthy src) then Ok false
  else s <- as_string src ;; Ok (ends_with_one_of imageExtensions s).

Definition isVideoFile (src : value) : result bool :=
  if negb (truthy src) then Ok false
  else s <- as_string src ;; Ok (ends_with_one_of videoExtensions s).

(** What the player draws for the current item when it is not loading:
    the chain of conditions of the [return]. *)
Inductive stage :=
| ErrorPlaceholder
| Picture (url : str)
| Video (url : str)
| Unsupported
| NoMedia.

Definition draw (currentMedia : value) : result stage :=
  if truthy currentMedia then
    isError <- get currentMedia (lit "isError") ;;
    if truthy isError then Ok ErrorPlaceholder
    else
      url <- get currentMedia (lit "url") ;;
      if truthy url then
        image <- isImageFile url ;;
        if image then Ok (Picture (to_string url))
        else
          video <- isVideoFile url ;;
          if video then Ok (Video (to_string url)) else Ok Unsupported
      else Ok NoMedia
  else Ok NoMedia.

(** What a card of the typed grid shows above its text:
    [item.media_type === 'image' && item.url] gives a picture,
    [item.media_type === 'video' && item.url] a video frame. *)
Inductive card_media :=
| CardPicture (url : value)
| CardVideo (url : value)
| TextOnly.

Definition is_string (v : value) (s : string) : bool :=
  match v with VStr t => str_eqb t (lit s) | _ => false end.

Definition media_of (card : value) : card_media :=
  if is_string (read card (lit "media_type")) "image"
     && truthy (read card (lit "url"))
  then CardPicture (read card (lit "url"))
  else if is_string (read card (lit "media_type")) "video"
          && truthy (read card (lit "url"))
  then CardVideo (read card (lit "url"))
  else TextOnly.

(** A civic issue with a picture address. *)
Definition issue_with_picture : value :=
  VObj [ (lit "summary", VStr (lit "Pothole"));
         (lit "url", VStr (lit "https://img/pothole.jpg"));
         (lit "media_type", VStr (lit "image")) ].

(** An event record of the typed grid, with a full allow-list. *)
Definition event_item : value :=
  VObj [ (lit "name", VStr (lit "Fair"));
         (lit "source", VStr (lit "city"));
         (lit "secret", VStr (lit "x")) ].

End Screens.
(** ** The adapters of the hash-driven grids
    ([FeedPlayer.tsx] and [part_003]: the [switch] of [fetchFeeds]) *)

Module TypedFetch.

Import Grid.

(** [{ ...item, source: label }] *)
Definition labelled (label : str) (item : value) : value :=
  VObj (set (lit "source") (VStr label) (own_props item)).

(** [Array.isArray(data) ? data : [data]] *)
Definition as_list (data : value) : list value :=
  match data with VArr xs => xs | _ => [data] end.

(** The items made from the response for a feed of the given type. *)
Definition adapt (type : str) (data : value) : result (list value) :=
  if str_eqb type (lit "nasa") then
    Ok (map (labelled (lit "NASA APOD")) (as_list data))
  else if str_eqb type (lit "seeclickfix") then
    i <- get data (lit "issues") ;;
    match or_ i data with
    | VArr xs => Ok (map (labelled (lit "SeeClickFix")) xs)
    | _ => Ok []
    end
  else if str_eqb type (lit "bsky") then
    i <- get data (lit "items") ;;
    match or_ i data with
    | VArr xs => Ok (map (labelled (lit "BlueSky")) xs)
    | _ => Ok []
    end
  else if str_eqb type (lit "googlesheet") then
    body <- as_string data ;;
    let rows := map (split ","%char) (split "010"%char body) in
    let headers := hd [] rows in
    Ok (map (fun row => labelled (lit "GoogleSheet") (VObj (zip_row headers row)))
            (tl rows))
  else Ok (as_list data).

(** The label of a typed feed. *)
Definition label_of (type : str) : option str :=
  if str_eqb type (lit "nasa") then Some (lit "NASA APOD")
  else if str_eqb type (lit "seeclickfix") then Some (lit "SeeClickFix")
  else if str_eqb type (lit "bsky") then Some (lit "BlueSky")
  else if str_eqb type (lit "googlesheet") then Some (lit "GoogleSheet")
  else None.

(** A response of two pictures of the day, of which one names a
    source of its own, with a [null] between them. *)
Definition apod_response : value :=
  VArr [ VObj [ (lit "title", VStr (lit "M31"));
                (lit "source", VStr (lit "ESA")) ];
         VNull;
         VObj [ (lit "title", VStr (lit "M42")) ] ].

End TypedFetch.
(** ** Properties of the string primitives *)

Module StrFacts.

Lemma ascii_eqb_refl (a : ascii) : ascii_eqb a a = true.
Proof. apply Ascii.eqb_refl. Qed.

Lemma ascii_eqb_eq (a b : ascii) : ascii_eqb a b = true <-> a = b.
Proof. apply Ascii.eqb_eq. Qed.

Lemma ascii_eqb_neq (a b : ascii) : ascii_eqb a b = false <-> a <> b.
Proof. apply Ascii.eqb_neq. Qed.

Lemma str_eqb_eq (s t : str) : str_eqb s t = true <-> s = t.
Proof.
  revert t. induction s as [|a s IH]; intros [|b t]; simpl;
    try (split; [discriminate | discriminate]); try tauto.
  rewrite andb_true_iff, ascii_eqb_eq, IH.
  split; [intros [-> ->]; reflexivity | intros E; inversion E; tauto].
Qed.

Lemma str_eqb_refl (s : str) : str_eqb s s = true.
Proof. apply str_eqb_eq. reflexivity. Qed.

Lemma str_eqb_neq (s t : str) : str_eqb s t = false <-> s <> t.
Proof.
  rewrite <- str_eqb_eq. destruct (str_eqb s t); split; congruence.
Qed.

Lemma startsWith_app_self (p s : str) : startsWith (p ++ s) p = true.
Proof.
  induction p as [|a p IH]; simpl; [destruct s; reflexivity|].
  rewrite ascii_eqb_refl. exact IH.
Qed.

(** [startsWith] only looks at as many characters as the prefix has. *)
Lemma startsWith_app (x y p : str) :
  length p <= length x -> startsWith (x ++ y) p = startsWith x p.
Proof.
  revert x. induction p as [|b p IH]; intros [|a x] H; simpl in *;
    try reflexivity; try lia.
  - destruct y; reflexivity.
  - rewrite IH by lia. reflexivity.
Qed.

Lemma startsWith_iff (s p : str) :
  startsWith s p = true <-> exists r, s = p ++ r.
Proof.
  revert s. induction p as [|b p IH]; intros s; simpl.
  - split; [intros _; exists s; reflexivity | intros _; destruct s; reflexivity].
  - destruct s as [|a s].
    + split; [discriminate | intros [r E]; discriminate].
    + simpl. rewrite andb_true_iff, ascii_eqb_eq, IH. split.
      * intros [-> [r ->]]. exists r. reflexivity.
      * intros [r E]. inversion E. split; [reflexivity | exists r; reflexivity].
Qed.

Lemma includes_nil (p : str) : includes [] p = startsWith [] p.
Proof. unfold includes. apply orb_false_r. Qed.

Lemma includes_cons (a : ascii) (s p : str) :
  includes (a :: s) p = startsWith (a :: s) p || includes s p.
Proof. reflexivity. Qed.

Lemma includes_iff (s p : str) :
  includes s p = true <-> exists x y, s = x ++ p ++ y.
Proof.
  induction s as [|a s IH].
  - rewrite includes_nil, startsWith_iff. split.
    + intros [r E]. exists [], r. exact E.
    + intros [x [y E]]. destruct x as [|c x]; [|discriminate].
      exists y. exact E.
  - rewrite includes_cons, orb_true_iff, startsWith_iff, IH. split.
    + intros [[r E] | [x [y E]]].
      * exists [], r. exact E.
      * exists (a :: x), y. simpl. rewrite E. reflexivity.
    + intros [[|c x] [y E]].
      * left. exists y. exact E.
      * right. inversion E. exists x, y. reflexivity.
Qed.

Lemma includes_app_r (x p y : str) : includes (x ++ p ++ y) p = true.
Proof. apply includes_iff. exists x, y. reflexivity. Qed.

(** [split] cuts exactly at the separators. *)
Lemma split_nonempty (c : ascii) (s : str) : split c s <> [].
Proof.
  destruct s as [|a s]; simpl; [discriminate|].
  destruct (ascii_eqb a c); [discriminate|].
  destruct (split c s); discriminate.
Qed.

Lemma split_no_sep (c : ascii) (s : str) :
  ~ In c s -> split c s = [s].
Proof.
  induction s as [|a s IH]; simpl; intros H; [reflexivity|].
  destruct (ascii_eqb a c) eqn:E.
  - apply ascii_eqb_eq in E. tauto.
  - rewrite IH by tauto. reflexivity.
Qed.

Lemma split_app (c : ascii) (s t : str) :
  ~ In c s -> split c (s ++ c :: t) = s :: split c t.
Proof.
  induction s as [|a s IH]; simpl; intros H.
  - rewrite ascii_eqb_refl. reflexivity.
  - destruct (ascii_eqb a c) eqn:E.
    + apply ascii_eqb_eq in E. tauto.
    + rewrite IH by tauto. reflexivity.
Qed.

End StrFacts.

(** ** Properties of objects and of the exception monad *)

Module ObjFacts.

Import StrFacts.

Lemma lookup_set_eq (k : str) (v : value) (ps : list (str * value)) :
  lookup k (set k v ps) = Some v.
Proof.
  induction ps as [|[k' v'] ps IH]; simpl.
  - rewrite str_eqb_refl. reflexivity.
  - destruct (str_eqb k' k) eqn:E; simpl; rewrite E; [reflexivity | exact IH].
Qed.

Lemma lookup_set_neq (k k' : str) (v : value) (ps : list (str * value)) :
  k <> k' -> lookup k' (set k v ps) = lookup k' ps.
Proof.
  intros Hne. induction ps as [|[k0 v0] ps IH]; simpl.
  - apply str_eqb_neq in Hne. rewrite Hne. reflexivity.
  - destruct (str_eqb k0 k) eqn:E; simpl.
    + apply str_eqb_eq in E. subst k0.
      apply str_eqb_neq in Hne. rewrite Hne. reflexivity.
    + rewrite IH. reflexivity.
Qed.

Lemma lookup_app (k : str) (ps qs : list (str * value)) :
  lookup k (ps ++ qs) =
  match lookup k ps with Some v => Some v | None => lookup k qs end.
Proof.
  induction ps as [|[k' v'] ps IH]; simpl; [reflexivity|].
  destruct (str_eqb k' k); [reflexivity | exact IH].
Qed.

(** Writing a list of properties one after the other: the last write of a
    key wins, and keys that are not written keep their value. *)
Lemma lookup_fold_set {A} (kf : A -> str) (vf : A -> value) (xs : list A)
      (acc : list (str * value)) (k : str) :
  lookup k (fold_left (fun a x => set (kf x) (vf x) a) xs acc) =
  match lookup k (rev (map (fun x => (kf x, vf x)) xs)) with
  | Some v => Some v
  | None => lookup k acc
  end.
Proof.
  revert acc. induction xs as [|x xs IH]; intros acc; simpl; [reflexivity|].
  rewrite IH, lookup_app. simpl.
  destruct (lookup k (rev (map (fun x0 => (kf x0, vf x0)) xs))); [reflexivity|].
  destruct (str_eqb (kf x) k) eqn:E.
  - apply str_eqb_eq in E. subst k. apply lookup_set_eq.
  - apply str_eqb_neq in E. apply lookup_set_neq. exact E.
Qed.

(** The same for [put]: the key [__proto__] is never written, every
    other key is written as by [set]. *)
Lemma put_set (k : str) (v : value) (ps : list (str * value)) :
  k <> lit "__proto__" -> put k v ps = set k v ps.
Proof.
  intros H. unfold put. apply str_eqb_neq in H. rewrite H. reflexivity.
Qed.

Lemma lookup_put_other (k k' : str) (v : value) (ps : list (str * value)) :
  k <> k' -> lookup k' (put k v ps) = lookup k' ps.
Proof.
  intros H. unfold put. destruct (str_eqb k (lit "__proto__")); [reflexivity|].
  apply lookup_set_neq. exact H.
Qed.

Lemma lookup_fold_put {A} (kf : A -> str) (vf : A -> value) (xs : list A)
      (acc : list (str * value)) (k : str) :
  k <> lit "__proto__" ->
  lookup k (fold_left (fun a x => put (kf x) (vf x) a) xs acc) =
  match lookup k (rev (map (fun x => (kf x, vf x)) xs)) with
  | Some v => Some v
  | None => lookup k acc
  end.
Proof.
  intros Hk. revert acc. induction xs as [|x xs IH]; intros acc; simpl;
    [reflexivity|].
  rewrite IH, lookup_app. simpl.
  destruct (lookup k (rev (map (fun x0 => (kf x0, vf x0)) xs))); [reflexivity|].
  destruct (str_eqb (kf x) k) eqn:E.
  - apply str_eqb_eq in E. subst k. rewrite (put_set _ _ _ Hk).
    apply lookup_set_eq.
  - apply str_eqb_neq in E. apply lookup_put_other. exact E.
Qed.

Lemma lookup_fold_put_proto {A} (kf : A -> str) (vf : A -> value) (xs : list A)
      (acc : list (str * value)) :
  lookup (lit "__proto__") (fold_left (fun a x => put (kf x) (vf x) a) xs acc)
  = lookup (lit "__proto__") acc.
Proof.
  revert acc. induction xs as [|x xs IH]; intros acc; simpl; [reflexivity|].
  rewrite IH. unfold put.
  destruct (str_eqb (kf x) (lit "__proto__")) eqn:E; [reflexivity|].
  apply str_eqb_neq in E. apply lookup_set_neq. exact E.
Qed.

(** Writing with [put] is writing with [set] what is not [__proto__]. *)
Lemma fold_put_filter {A} (kf : A -> str) (vf : A -> value) (xs : list A)
      (acc : list (str * value)) :
  fold_left (fun a x => put (kf x) (vf x) a) xs acc
  = fold_left (fun a x => set (kf x) (vf x) a)
              (filter (fun x => negb (str_eqb (kf x) (lit "__proto__"))) xs) acc.
Proof.
  revert acc. induction xs as [|x xs IH]; intros acc; [reflexivity|].
  cbn [fold_left filter].
  destruct (str_eqb (kf x) (lit "__proto__")) eqn:E; cbn [negb fold_left].
  - replace (put (kf x) (vf x) acc) with acc
      by (unfold put; rewrite E; reflexivity).
    apply IH.
  - replace (put (kf x) (vf x) acc) with (set (kf x) (vf x) acc)
      by (unfold put; rewrite E; reflexivity).
    apply IH.
Qed.

(** A key whose every entry carries the same value. *)
Lemma lookup_all_same (k : str) (v : value) (ps : list (str * value)) :
  In k (map fst ps) -> (forall v', In (k, v') ps -> v' = v) ->
  lookup k ps = Some v.
Proof.
  induction ps as [|[k' v'] ps IH]; simpl; intros Hin Hall; [tauto|].
  destruct (str_eqb k' k) eqn:E.
  - apply str_eqb_eq in E. subst k'. f_equal. apply Hall. left. reflexivity.
  - apply str_eqb_neq in E. apply IH.
    + destruct Hin as [Hin | Hin]; [congruence | exact Hin].
    + intros v0 H0. apply Hall. right. exact H0.
Qed.

Lemma lookup_nodup (k : str) (v : value) (ps : list (str * value)) :
  NoDup (map fst ps) -> In (k, v) ps -> lookup k ps = Some v.
Proof.
  induction ps as [|[k0 v0] ps IH]; simpl; intros Hnd Hin; [tauto|].
  inversion Hnd as [|? ? Hnot Hnd']; subst.
  destruct Hin as [E | Hin].
  - inversion E; subst. rewrite str_eqb_refl. reflexivity.
  - destruct (str_eqb k0 k) eqn:Eq.
    + apply str_eqb_eq in Eq. subst k0. exfalso. apply Hnot.
      apply in_map_iff. exists (k, v). split; [reflexivity | exact Hin].
    + apply IH; assumption.
Qed.

Lemma mapM_ok {A B} (f : A -> result B) (xs : list A) :
  (forall x, In x xs -> exists y, f x = Ok y) ->
  exists ys, mapM f xs = Ok ys /\ length ys = length xs /\
             forall i d d', i < length xs -> f (nth i xs d) = Ok (nth i ys d').
Proof.
  induction xs as [|x xs IH]; intros H; simpl.
  - exists []. repeat split. intros i d d' Hi. simpl in Hi. lia.
  - destruct (H x (or_introl eq_refl)) as [y Ey].
    destruct IH as [ys [E [L N]]]; [intros x' Hx'; apply H; right; exact Hx'|].
    exists (y :: ys). rewrite Ey. simpl. rewrite E. simpl.
    repeat split; [lia|].
    intros [|i] d d' Hi; simpl; [exact Ey | apply N; simpl in Hi; lia].
Qed.

End ObjFacts.

(** ** Properties of the cursor operations *)

Module PlayerFacts.

Import Player.

Lemma in_boundsb_spec st : in_boundsb st = true <-> in_bounds st.
Proof.
  unfold in_boundsb, in_bounds. split.
  - destruct (currentMediaIndex st) as [i| |b]; try discriminate.
    intros H. apply andb_prop in H. destruct H as [H0 H1].
    exists i. split; [reflexivity|]. lia.
  - intros [i [E H]]. rewrite E.
    apply andb_true_intro. split; lia.
Qed.

(** The step of [handleNext] and [handlePrev] is taken modulo the number of
    configured feeds. *)
Lemma handleNext_mod_feeds st i :
  currentMediaIndex st = Int i -> (0 <= i)%Z -> mediaList st <> [] ->
  currentMediaIndex (handleNext st) = Int ((i + 1) mod len (mediaList st)).
Proof.
  intros E Hi Hne. unfold handleNext, setCurrentMediaIndex. simpl.
  rewrite E. unfold rem.
  assert (0 < len (mediaList st))%Z as Hpos.
  { unfold len. destruct (mediaList st); [congruence | simpl; lia]. }
  destruct (Z.eqb_spec (len (mediaList st)) 0); [lia|].
  f_equal. apply Z.rem_mod_nonneg; lia.
Qed.

Lemma handlePrev_mod_feeds st i :
  currentMediaIndex st = Int i -> (0 <= i)%Z -> mediaList st <> [] ->
  currentMediaIndex (handlePrev st) = Int ((i - 1) mod len (mediaList st)).
Proof.
  intros E Hi Hne. unfold handlePrev, setCurrentMediaIndex. simpl.
  rewrite E. unfold rem.
  assert (0 < len (mediaList st))%Z as Hpos.
  { unfold len. destruct (mediaList st); [congruence | simpl; lia]. }
  destruct (Z.eqb_spec (len (mediaList st)) 0); [lia|].
  f_equal. rewrite Z.rem_mod_nonneg by lia.
  rewrite <- (Z.mod_add (i - 1) 1 (len (mediaList st))) by lia.
  f_equal. lia.
Qed.

(** C1 (the code at the failing input).  With two configured feeds and a
    selected feed of three items, advance-next from item 1 gives item 0
    where a step modulo the item count gives 2, and advance-prev from
    item 0 gives item 1 where a step modulo the item count gives 2: the
    cursor wraps at the number of feeds, not at the number of items. *)
Theorem handleNext_handlePrev_wrap_at_feed_count :
  currentMediaIndex (handleNext (two_feeds_three_items 1)) = Int 0 /\
  Int ((1 + 1) mod len (selectedMediaList (two_feeds_three_items 1))) = Int 2 /\
  currentMediaIndex (handlePrev (two_feeds_three_items 0)) = Int 1 /\
  Int ((0 - 1) mod len (selectedMediaList (two_feeds_three_items 0))) = Int 2.
Proof. repeat split. Qed.

Lemma len_firstn_7 (xs : list value) :
  len (firstn 7 xs) = if (len xs <? 7)%Z then len xs else 7%Z.
Proof.
  unfold len. rewrite length_firstn.
  destruct (Z.ltb_spec (Z.of_nat (length xs)) 7); lia.
Qed.

Lemma totalSlides_bounds st :
  selectedMediaList st <> [] ->
  (0 < totalSlides st <= len (selectedMediaList st))%Z.
Proof.
  intros Hne. unfold totalSlides.
  assert (0 < len (selectedMediaList st))%Z.
  { unfold len. destruct (selectedMediaList st); [congruence | simpl; lia]. }
  destruct (Z.ltb_spec (len (selectedMediaList st)) 7); lia.
Qed.

(** A click inside the bar lands on a slide below the display cap. *)
Lemma targetSlide_range (clickX progressWidth : Q) (total : Z) :
  (0 <= clickX)%Q -> (clickX < progressWidth)%Q -> (0 < total)%Z ->
  exists i, targetSlide clickX progressWidth total = Int i /\
            (0 <= i < total)%Z.
Proof.
  intros H0 H1 Ht. unfold targetSlide.
  assert (0 < progressWidth)%Q as Hw by (eapply Qle_lt_trans; eauto).
  destruct (Qeq_bool progressWidth 0) eqn:E.
  { apply Qeq_bool_eq in E. rewrite E in Hw. exfalso. revert Hw. apply Qlt_irrefl. }
  eexists. split; [reflexivity|].
  set (x := (clickX / progressWidth * inject_Z total)%Q).
  assert (0 <= clickX / progressWidth)%Q as R0.
  { apply Qle_shift_div_l; [assumption|]. rewrite Qmult_0_l. assumption. }
  assert (clickX / progressWidth < 1)%Q as R1.
  { apply Qlt_shift_div_r; [assumption|]. rewrite Qmult_1_l. assumption. }
  assert (0 < inject_Z total)%Q as Qt.
  { rewrite <- Zlt_Qlt with (x := 0%Z). assumption. }
  assert (0 <= x)%Q as X0.
  { apply Qmult_le_0_compat; [assumption | apply Qlt_le_weak; assumption]. }
  assert (x < inject_Z total)%Q as X1.
  { unfold x. rewrite <- (Qmult_1_l (inject_Z total)) at 2.
    apply Qmult_lt_compat_r; assumption. }
  split.
  - rewrite <- (Qfloor_Z 0). apply Qfloor_resp_le. assumption.
  - rewrite Zlt_Qlt. eapply Qle_lt_trans; [apply Qfloor_le | assumption].
Qed.

Lemma in_progressPoints st i :
  In i (progressPoints st) <-> (0 <= i < totalSlides st)%Z.
Proof.
  unfold progressPoints, totalSlides. rewrite <- len_firstn_7. unfold len.
  rewrite in_map_iff. split.
  - intros [n [E Hn]]. apply in_seq in Hn. lia.
  - intros H. exists (Z.to_nat i). split; [lia|]. apply in_seq. lia.
Qed.

Lemma at_index_in (xs : list value) i :
  (0 <= i < len xs)%Z -> In (at_index xs (Int i)) xs.
Proof.
  intros H. unfold at_index.
  destruct (Z.ltb_spec i 0); [lia|].
  apply nth_In. unfold len in H. lia.
Qed.

(** C9 (as the claim states it, at a concrete input).  With three items
    loaded, [moveToSlide(10)] is neither rejected nor clamped: the cursor
    becomes 10, which is outside [0, 3), and the read
    [selectedMediaList[10]] that follows gives [undefined]. *)
Lemma moveToSlide_keeps_out_of_range_index :
  currentMediaIndex (moveToSlide (Int 10) (two_feeds_three_items 0)) = Int 10 /\
  in_boundsb (moveToSlide (Int 10) (two_feeds_three_items 0)) = false /\
  ~ in_bounds (moveToSlide (Int 10) (two_feeds_three_items 0)) /\
  currentMedia (syncCurrentMedia (moveToSlide (Int 10) (two_feeds_three_items 0)))
    = VUndefined.
Proof.
  repeat split.
  intros H. apply in_boundsb_spec in H. discriminate H.
Qed.

Lemma at_index_outside (xs : list value) (n : num) :
  (forall i, n = Int i -> ~ (0 <= i < len xs)%Z) -> at_index xs n = VUndefined.
Proof.
  intros H. destruct n as [i| |b]; try reflexivity. unfold at_index.
  destruct (Z.ltb_spec i 0); [reflexivity|].
  apply nth_overflow. specialize (H i eq_refl). unfold len in H. lia.
Qed.

(** C9 (amended).  [moveToSlide] stores the index it is given, whatever
    it is.  The two controls that call it only produce indices below the
    display cap [min(count, 7)], so after a seek from a control the cursor
    is within the item list and the item read at the cursor is an item of
    the list.  For any other index, outside a non-empty list, the read at
    the cursor gives [undefined], and the effect that watches the current
    item then puts the cursor back to index 0. *)
Theorem seek_from_controls_in_bounds (st : state) (n : num) :
  currentMediaIndex (moveToSlide n st) = n /\
  (seek_source st n ->
   in_bounds (moveToSlide n st) /\
   In (currentMedia (syncCurrentMedia (moveToSlide n st)))
      (selectedMediaList st)) /\
  (selectedMediaList st <> [] -> ~ in_bounds (moveToSlide n st) ->
   currentMedia (syncCurrentMedia (moveToSlide n st)) = VUndefined /\
   currentMediaIndex
     (resetWhenNoMedia (syncCurrentMedia (moveToSlide n st))) = Int 0 /\
   in_bounds (resetWhenNoMedia (syncCurrentMedia (moveToSlide n st)))).
Proof.
  split; [reflexivity|]. split.
  - intros Hsrc.
    assert (exists i, n = Int i /\ (0 <= i < len (selectedMediaList st))%Z
                      /\ selectedMediaList st <> []) as [i [En [Hi Hne]]].
    { destruct Hsrc as [i Hin | clickX w Hne H0 H1].
      - apply in_progressPoints in Hin. exists i. split; [reflexivity|].
        assert (selectedMediaList st <> []) as Hne.
        { intros E. unfold totalSlides, len in Hin. rewrite E in Hin.
          simpl in Hin. lia. }
        pose proof (totalSlides_bounds st Hne). split; [lia | assumption].
      - pose proof (totalSlides_bounds st Hne) as Ht.
        destruct (targetSlide_range clickX w (totalSlides st) H0 H1)
          as [i [E Hi]]; [lia|].
        exists i. split; [assumption|]. split; [lia | assumption]. }
    subst n. split.
    + exists i. split; [reflexivity | exact Hi].
    + unfold syncCurrentMedia. simpl.
      destruct (Z.ltb_spec 0 (len (selectedMediaList st))); [|lia].
      simpl. apply at_index_in. exact Hi.
  - intros Hne Hout.
    assert (0 < len (selectedMediaList st))%Z as Hpos.
    { unfold len. destruct (selectedMediaList st); [congruence | simpl; lia]. }
    assert (at_index (selectedMediaList st) n = VUndefined) as Hread.
    { apply at_index_outside. intros i -> Hi. apply Hout.
      exists i. split; [reflexivity | exact Hi]. }
    assert (syncCurrentMedia (moveToSlide n st)
            = setCurrentMedia VUndefined (moveToSlide n st)) as Hsync.
    { unfold syncCurrentMedia. cbn [moveToSlide setCurrentMediaIndex
        selectedMediaList currentMediaIndex].
      destruct (Z.ltb_spec 0 (len (selectedMediaList st))); [|lia].
      rewrite Hread. reflexivity. }
    rewrite Hsync. split; [reflexivity|].
    unfold resetWhenNoMedia.
    cbn [setCurrentMedia moveToSlide setCurrentMediaIndex selectedMediaList
         currentMedia currentMediaIndex truthy negb].
    destruct (Z.ltb_spec 0 (len (selectedMediaList st))); [|lia].
    cbn [andb currentMediaIndex selectedMediaList].
    split; [reflexivity|]. exists 0%Z. split; [reflexivity|].
    cbn [selectedMediaList setCurrentMedia setCurrentMediaIndex moveToSlide]. lia.
Qed.

Lemma seek_from_controls_in_bounds_witness :
  seek_source (two_feeds_three_items 0) (Int 2) /\
  in_bounds (moveToSlide (Int 2) (two_feeds_three_items 0)) /\
  currentMediaIndex
    (resetWhenNoMedia
       (syncCurrentMedia (moveToSlide (Int 10) (two_feeds_three_items 0))))
  = Int 0.
Proof.
  assert (seek_source (two_feeds_three_items 0) (Int 2)) as H.
  { apply from_point. simpl. tauto. }
  split; [exact H|]. split.
  - exact (proj1 (proj1 (proj2 (seek_from_controls_in_bounds
                                  (two_feeds_three_items 0) (Int 2))) H)).
  - apply (proj2 (proj2 (seek_from_controls_in_bounds
                           (two_feeds_three_items 0) (Int 10)))).
    + discriminate.
    + intros Hb. apply in_boundsb_spec in Hb. discriminate Hb.
Defined.

(** [handleNext] and [handlePrev] undo each other: from an index below
    the number of configured feeds, a step forward and a step back (or a
    step back and a step forward) return to that index, and each single
    step stays below the number of feeds. *)
Theorem handleNext_and_handlePrev_undo_each_other st i :
  currentMediaIndex st = Int i -> (0 <= i < len (mediaList st))%Z ->
  currentMediaIndex (handlePrev (handleNext st)) = Int i /\
  currentMediaIndex (handleNext (handlePrev st)) = Int i /\
  (exists j, currentMediaIndex (handleNext st) = Int j
             /\ (0 <= j < len (mediaList st))%Z) /\
  (exists j, currentMediaIndex (handlePrev st) = Int j
             /\ (0 <= j < len (mediaList st))%Z).
Proof.
  intros E Hi.
  assert (mediaList st <> []) as Hne.
  { intros N. rewrite N in Hi. cbn in Hi. lia. }
  pose proof (handleNext_mod_feeds st i E ltac:(lia) Hne) as Hn.
  pose proof (handlePrev_mod_feeds st i E ltac:(lia) Hne) as Hp.
  assert (0 <= (i + 1) mod len (mediaList st) < len (mediaList st))%Z as Bn
    by (apply Z.mod_pos_bound; lia).
  assert (0 <= (i - 1) mod len (mediaList st) < len (mediaList st))%Z as Bp
    by (apply Z.mod_pos_bound; lia).
  repeat split.
  - rewrite (handlePrev_mod_feeds (handleNext st) _ Hn); [|lia|exact Hne].
    change (mediaList (handleNext st)) with (mediaList st).
    rewrite Zminus_mod_idemp_l. f_equal.
    replace (i + 1 - 1)%Z with i by lia. apply Z.mod_small. exact Hi.
  - rewrite (handleNext_mod_feeds (handlePrev st) _ Hp); [|lia|exact Hne].
    change (mediaList (handlePrev st)) with (mediaList st).
    rewrite Zplus_mod_idemp_l. f_equal.
    replace (i - 1 + 1)%Z with i by lia. apply Z.mod_small. exact Hi.
  - exists ((i + 1) mod len (mediaList st))%Z. split; [exact Hn | exact Bn].
  - exists ((i - 1) mod len (mediaList st))%Z. split; [exact Hp | exact Bp].
Qed.

Lemma handleNext_and_handlePrev_undo_each_other_witness :
  currentMediaIndex (handlePrev (handleNext (two_feeds_three_items 1))) = Int 1.
Proof.
  refine (proj1 (handleNext_and_handlePrev_undo_each_other
                   (two_feeds_three_items 1) 1 eq_refl _)).
  cbn. lia.
Defined.

End PlayerFacts.

(** ** Properties of the loader *)

Module LoaderFacts.

Import Player Loader.






(** C4 (the code at the failing input).  The civic-issue mapper of the
    player reads [item.media.image_full] without testing [item.media]: for
    an issue with no [media] field it throws.  The exception ends the
    whole [map], so a response of two issues, one of them without media,
    gives no issue at all: the first player returns the empty array and
    the second an array with one error item.  The same response with only
    the issue that has an image gives that issue. *)
Theorem seeclickfix_item_throws_without_media :
  seeclickfix_item issue_without_media = Throw TypeError /\
  fetchMediaFromAPI_first
    (issues_response [issue_with_image; issue_without_media]) [repo_feed]
    seeclickfix_feed = VArr [] /\
  fetchMediaFromAPI
    (issues_response [issue_with_image; issue_without_media]) VNull VNull
    [repo_feed] seeclickfix_feed
  = VArr [error_item seeclickfix_feed TypeError] /\
  fetchMediaFromAPI (issues_response [issue_with_image]) VNull VNull
    [repo_feed] seeclickfix_feed
  = VArr [ VObj [ (lit "url", VStr (lit "https://img/pothole.jpg"));
                  (lit "text", VStr (lit "Deep pothole on Elm St"));
                  (lit "title", VStr (lit "Pothole")) ] ].
Proof. repeat split. Qed.

End LoaderFacts.

(** ** Properties of the typed card grid *)

Module GridFacts.

Import Grid StrFacts ObjFacts.

Lemma lazy_until_slash_id (id rest : str) :
  Forall id_char id -> (rest = [] \/ exists r, rest = "/"%char :: r) ->
  lazy_until_slash (id ++ rest) = Some id.
Proof.
  intros Hid Hrest. induction Hid as [|c id [Hc Ht] _ IH]; simpl.
  - destruct Hrest as [-> | [r ->]]; reflexivity.
  - apply ascii_eqb_neq in Hc. rewrite Hc, Ht, IH. reflexivity.
Qed.

Lemma match_d_cons (a : ascii) (s : str) :
  match_d (a :: s) =
  if startsWith (a :: s) (lit "/d/")
  then match lazy_until_slash (skipn 3 (a :: s)) with
       | Some id => Some id
       | None => match_d s
       end
  else match_d s.
Proof. reflexivity. Qed.

Lemma match_d_none (s : str) :
  includes s (lit "/d/") = false -> match_d s = None.
Proof.
  induction s as [|a s IH]; [reflexivity|].
  intros H. rewrite includes_cons in H.
  apply orb_false_elim in H. destruct H as [H1 H2].
  rewrite match_d_cons, H1. exact (IH H2).
Qed.

(** The leftmost ["/d/"] decides, when what follows it is an identifier. *)
Lemma match_d_first (pre id rest : str) :
  includes (pre ++ lit "/d") (lit "/d/") = false ->
  Forall id_char id -> (rest = [] \/ exists r, rest = "/"%char :: r) ->
  match_d (pre ++ lit "/d/" ++ id ++ rest) = Some id.
Proof.
  intros Hpre Hid Hrest. induction pre as [|a pre IH].
  - change ([] ++ lit "/d/" ++ id ++ rest)
      with ("/"%char :: "d"%char :: "/"%char :: id ++ rest).
    rewrite match_d_cons.
    change (startsWith ("/"%char :: "d"%char :: "/"%char :: id ++ rest) (lit "/d/"))
      with (startsWith (id ++ rest) []).
    replace (startsWith (id ++ rest) []) with true by (destruct (id ++ rest); reflexivity).
    change (skipn 3 ("/"%char :: "d"%char :: "/"%char :: id ++ rest)) with (id ++ rest).
    rewrite lazy_until_slash_id by assumption. reflexivity.
  - rewrite <- app_comm_cons in Hpre. rewrite includes_cons in Hpre.
    apply orb_false_elim in Hpre. destruct Hpre as [H1 H2].
    rewrite <- app_comm_cons, match_d_cons.
    assert (startsWith (a :: pre ++ lit "/d/" ++ id ++ rest) (lit "/d/") = false)
      as E.
    { transitivity (startsWith (a :: pre ++ lit "/d") (lit "/d/")); [|exact H1].
      change (a :: pre ++ lit "/d/" ++ id ++ rest)
        with ((a :: pre) ++ lit "/d" ++ ("/"%char :: id ++ rest)).
      rewrite app_assoc. apply startsWith_app.
      simpl. rewrite length_app. simpl. lia. }
    rewrite E. exact (IH H2).
Qed.

(** [processGoogleSheetUrl] of the typed card grid is a total function on
    strings (nothing in it throws) and
    - returns a URL that contains ["/pub?"] or ["/gviz/tq?"] unchanged;
    - otherwise, when the leftmost ["/d/"] is followed by a non-empty
      identifier that runs up to the next slash or the end of the URL,
      returns [https://docs.google.com/spreadsheets/d/<id>/gviz/tq?tqx=out:csv]
      for that identifier;
    - returns the URL unchanged when it contains no ["/d/"], or when the
      identifier after the leftmost ["/d/"] is empty.
    The normalisation written inline in the hash-driven grid lets only
    the gviz form pass and agrees with [processGoogleSheetUrl] on every
    URL without ["/pub?"]. *)
Lemma processGoogleSheetUrl_normalises (url : str) :
  (includes url (lit "/pub?") = true \/ includes url (lit "/gviz/tq?") = true ->
   processGoogleSheetUrl url = url) /\
  (forall pre id rest,
     includes url (lit "/pub?") = false ->
     includes url (lit "/gviz/tq?") = false ->
     url = pre ++ lit "/d/" ++ id ++ rest ->
     includes (pre ++ lit "/d") (lit "/d/") = false ->
     Forall id_char id -> (rest = [] \/ exists r, rest = "/"%char :: r) ->
     processGoogleSheetUrl url
     = if nonempty id
       then lit "https://docs.google.com/spreadsheets/d/" ++ id
            ++ lit "/gviz/tq?tqx=out:csv"
       else url) /\
  (includes url (lit "/d/") = false -> processGoogleSheetUrl url = url) /\
  (includes url (lit "/gviz/tq?") = true -> inlineSheetUrl url = url) /\
  (includes url (lit "/pub?") = false ->
   inlineSheetUrl url = processGoogleSheetUrl url).
Proof.
  split; [|split; [|split; [|split]]].
  - intros H. unfold processGoogleSheetUrl.
    destruct H as [H | H]; rewrite H; [reflexivity|].
    rewrite orb_true_r. reflexivity.
  - intros pre id rest Hp Hg E Hpre Hid Hrest.
    unfold processGoogleSheetUrl. rewrite Hp, Hg. simpl.
    rewrite E, (match_d_first pre id rest Hpre Hid Hrest). reflexivity.
  - intros H. unfold processGoogleSheetUrl.
    rewrite (match_d_none url H).
    destruct (includes url (lit "/pub?") || includes url (lit "/gviz/tq?"));
      reflexivity.
  - intros H. unfold inlineSheetUrl. rewrite H. reflexivity.
  - intros H. unfold inlineSheetUrl, processGoogleSheetUrl. rewrite H.
    destruct (includes url (lit "/gviz/tq?")); reflexivity.
Qed.

(** C6 (the code at the failing input).  A sheet that is published as
    CSV has a URL of the form [.../d/e/<key>/pub?output=csv], which is
    already a CSV export.  [processGoogleSheetUrl] of the typed card grid
    returns it unchanged.  The normalisation written inline in
    [fetchFeeds] of the hash-driven grid tests for the gviz form only: it
    takes the [e] after [/d/] for the document identifier and requests
    [https://docs.google.com/spreadsheets/d/e/gviz/tq?tqx=out:csv], which
    names no document.  On a sheet URL in its edit form both give the
    gviz CSV address of the document, and both return a gviz address and
    a URL without [/d/] unchanged. *)
Theorem inlineSheetUrl_rewrites_published_form :
  detectFeedType published_csv_url = lit "googlesheet" /\
  processGoogleSheetUrl published_csv_url
    = lit "https://docs.google.com/spreadsheets/d/e/2PACX-1vSx/pub?output=csv" /\
  inlineSheetUrl published_csv_url
    = lit "https://docs.google.com/spreadsheets/d/e/gviz/tq?tqx=out:csv" /\
  requestUrl published_csv_url
    = lit "https://docs.google.com/spreadsheets/d/e/gviz/tq?tqx=out:csv" /\
  processGoogleSheetUrl edit_url
    = lit "https://docs.google.com/spreadsheets/d/1jQTlXWom-pXvyP9zuTcbdluyvpb43hu2h7anxhF5qlQ/gviz/tq?tqx=out:csv" /\
  inlineSheetUrl edit_url
    = lit "https://docs.google.com/spreadsheets/d/1jQTlXWom-pXvyP9zuTcbdluyvpb43hu2h7anxhF5qlQ/gviz/tq?tqx=out:csv" /\
  processGoogleSheetUrl
    (lit "https://docs.google.com/spreadsheets/d/abc/gviz/tq?tqx=out:csv")
    = lit "https://docs.google.com/spreadsheets/d/abc/gviz/tq?tqx=out:csv" /\
  inlineSheetUrl
    (lit "https://docs.google.com/spreadsheets/d/abc/gviz/tq?tqx=out:csv")
    = lit "https://docs.google.com/spreadsheets/d/abc/gviz/tq?tqx=out:csv" /\
  processGoogleSheetUrl (lit "https://docs.google.com/spreadsheets/u/0/")
    = lit "https://docs.google.com/spreadsheets/u/0/" /\
  inlineSheetUrl (lit "https://docs.google.com/spreadsheets/u/0/")
    = lit "https://docs.google.com/spreadsheets/u/0/".
Proof. repeat split. Qed.

Lemma includes_gviz_csv_url (id : str) :
  includes (gviz_csv_url id) (lit "/gviz/tq?") = true.
Proof.
  unfold gviz_csv_url.
  replace (lit "https://docs.google.com/spreadsheets/d/" ++ id
           ++ lit "/gviz/tq?tqx=out:csv")
    with ((lit "https://docs.google.com/spreadsheets/d/" ++ id)
          ++ lit "/gviz/tq?" ++ lit "tqx=out:csv")
    by (rewrite <- app_assoc; reflexivity).
  apply includes_app_r.
Qed.

(** The two copies of the sheet normalisation differ exactly on
    published sheets.  A URL that holds [/pub?] and a document part
    [/d/<id>] passes through [processGoogleSheetUrl] unchanged, and is
    rewritten by the inline normalisation of the hash-driven grids to
    the CSV address of that document part. *)
Theorem published_sheet_is_rewritten_inline (url id : str) :
  includes url (lit "/pub?") = true ->
  includes url (lit "/gviz/tq?") = false ->
  match_d url = Some id -> id <> [] ->
  processGoogleSheetUrl url = url /\
  inlineSheetUrl url = gviz_csv_url id /\
  inlineSheetUrl url <> processGoogleSheetUrl url.
Proof.
  intros Hpub Hgviz Hm Hid.
  assert (processGoogleSheetUrl url = url) as P.
  { unfold processGoogleSheetUrl. rewrite Hpub. reflexivity. }
  assert (inlineSheetUrl url = gviz_csv_url id) as Q.
  { unfold inlineSheetUrl. rewrite Hgviz, Hm. cbn [negb].
    destruct id; [congruence | reflexivity]. }
  repeat split; try assumption.
  rewrite P, Q. intros E.
  pose proof (includes_gviz_csv_url id) as G. rewrite E in G. congruence.
Qed.

Lemma published_sheet_is_rewritten_inline_witness :
  inlineSheetUrl
    (lit "https://docs.google.com/spreadsheets/d/e/2PACX-1vSx/pub?output=csv")
  = gviz_csv_url (lit "e").
Proof.
  refine (proj1 (proj2 (published_sheet_is_rewritten_inline
                   (lit "https://docs.google.com/spreadsheets/d/e/2PACX-1vSx/pub?output=csv")
                   (lit "e") _ _ _ _))); try reflexivity.
  discriminate.
Defined.

(** *** The adapters never throw on an item that is not nullish *)

Lemma get_read (v : value) (k : str) :
  nullish v = false -> get v k = Ok (read v k).
Proof.
  destruct v; simpl; try discriminate; try reflexivity.
  intros _. destruct (lookup k props); reflexivity.
Qed.

Lemma or_else_get_read (a v : value) (k : str) :
  nullish v = false -> or_else_get a v k = Ok (or_ a (read v k)).
Proof.
  intros H. unfold or_else_get, or_. destruct (truthy a); [reflexivity|].
  apply get_read. exact H.
Qed.

Lemma mapM_fields (item : value) (fields : list str) :
  nullish item = false ->
  mapM (fun field => v <- get item field ;; Ok (field, v)) fields
  = Ok (map (fun field => (field, read item field)) fields).
Proof.
  intros H. induction fields as [|f fs IH]; simpl; [reflexivity|].
  rewrite (get_read item f H). simpl. rewrite IH. reflexivity.
Qed.

Lemma processFeedItem_total (feedFields : list str) (item : value)
      (type sourceUrl : str) :
  nullish item = false ->
  exists y, processFeedItem feedFields item type sourceUrl = Ok y.
Proof.
  intros H. unfold processFeedItem.
  rewrite (mapM_fields item feedFields H).
  repeat (first [ rewrite (get_read item _ H)
                | rewrite (or_else_get_read _ item _ H) ]; cbn [bind]).
  repeat match goal with
         | |- context [if ?b then _ else _] => destruct b
         end; eexists; reflexivity.
Qed.

(** A civic-issue or social-post response that is not an array (and has
    no array under [issues] or [items]) gives no item and no exception. *)
Theorem feed_body_not_array (feedType : str) (feedFields : list str)
        (axios_get : str -> result value) (url : str) (data : value) :
  axios_get url = Ok data -> nullish data = false ->
  (toLowerCase (currentFeedType feedType url) = lit "seeclickfix" ->
   (forall xs, or_ (read data (lit "issues")) data <> VArr xs) ->
   feed_body feedType feedFields axios_get url = Ok []) /\
  (toLowerCase (currentFeedType feedType url) = lit "bsky" ->
   (forall xs, or_ (read data (lit "items")) data <> VArr xs) ->
   feed_body feedType feedFields axios_get url = Ok []).
Proof.
  intros Hget Hdata. split; intros Htype Hshape; unfold feed_body;
    rewrite Hget; cbn [bind]; rewrite Htype;
    change (str_eqb (lit "seeclickfix") (lit "nasa")) with false;
    change (str_eqb (lit "seeclickfix") (lit "seeclickfix")) with true;
    change (str_eqb (lit "bsky") (lit "nasa")) with false;
    change (str_eqb (lit "bsky") (lit "seeclickfix")) with false;
    change (str_eqb (lit "bsky") (lit "bsky")) with true;
    cbv iota;
    match goal with
    | |- context [get data ?k] => rewrite (get_read data k Hdata)
    end; cbn [bind];
    match goal with
    | |- context [or_ ?a data] =>
        destruct (or_ a data); try reflexivity;
        exfalso; exact (Hshape _ eq_refl)
    end.
Qed.

Lemma feed_body_not_array_witness :
  feed_body (lit "seeclickfix") [] issues_not_array
            (lit "https://seeclickfix.com/api/v2/issues") = Ok [].
Proof.
  apply (proj1 (feed_body_not_array (lit "seeclickfix") [] issues_not_array
                  (lit "https://seeclickfix.com/api/v2/issues")
                  (VObj [ (lit "issues", VStr (lit "temporarily unavailable")) ])
                  eq_refl eq_refl)).
  - reflexivity.
  - intros xs. discriminate.
Defined.

(** When every source URL fails, the typed grid shows the error text
    "No feed data available" and keeps its items; when the specification
    has no non-blank segment it shows "No valid feed URLs provided". *)
Theorem fetchFeeds_total_failure (feedType : str) (feedFields : list str)
        (axios_get : str -> result value) (feedUrls : str) (v : view) :
  (feed_urls feedUrls = [] ->
   fetchFeeds feedType feedFields axios_get feedUrls v
   = {| feeds := feeds v; loading := false;
        error_text := Some (lit "No valid feed URLs provided") |}) /\
  (feed_urls feedUrls <> [] ->
   (forall u, In u (feed_urls feedUrls) ->
              exists e, feed_body feedType feedFields axios_get u = Throw e) ->
   fetchFeeds feedType feedFields axios_get feedUrls v
   = {| feeds := feeds v; loading := false;
        error_text := Some (lit "No feed data available") |}).
Proof.
  split.
  - intros E. unfold fetchFeeds. rewrite E. reflexivity.
  - intros Hne Hfail. unfold fetchFeeds.
    destruct (feed_urls feedUrls) as [|u us] eqn:E; [congruence|].
    cbn [length Nat.eqb].
    assert (flattenedResults feedType feedFields axios_get (u :: us) = []) as F.
    { unfold flattenedResults. clear E Hne.
      induction (u :: us) as [|x xs IH]; [reflexivity|].
      cbn [map concat]. unfold feed_promise at 1.
      destruct (Hfail x (or_introl eq_refl)) as [e ->].
      apply IH. intros y Hy. apply Hfail. right. exact Hy. }
    rewrite F. reflexivity.
Qed.

Lemma fetchFeeds_total_failure_witness :
  fetchFeeds (lit "mixed") [] network_down
             (lit "nasa=https://api.nasa.gov/planetary/apod") empty_view
  = {| feeds := []; loading := false;
       error_text := Some (lit "No feed data available") |}.
Proof.
  apply (proj2 (fetchFeeds_total_failure (lit "mixed") [] network_down
                  (lit "nasa=https://api.nasa.gov/planetary/apod") empty_view)).
  - discriminate.
  - intros u _. eexists. reflexivity.
Defined.

(** *** The spreadsheet adapter *)

Lemma trim_nil : trim [] = [].
Proof. reflexivity. Qed.

Lemma cell_value (row : list str) (i : nat) :
  cell row i = VStr (trim (nth i row [])).
Proof.
  unfold cell. destruct (nth_error row i) as [c|] eqn:E.
  - rewrite (nth_error_nth row i [] E).
    unfold or_. simpl. destruct (trim c); reflexivity.
  - apply nth_error_None in E. rewrite nth_overflow by exact E. reflexivity.
Qed.

Lemma map_fst_combine_seq {A} (xs : list A) (k : nat) :
  map fst (combine xs (seq k (length xs))) = xs.
Proof.
  revert k. induction xs as [|x xs IH]; intros k; simpl; [reflexivity|].
  rewrite IH. reflexivity.
Qed.

Lemma in_combine_seq {A} (xs : list A) (d : A) (i k : nat) :
  i < length xs -> In (nth i xs d, k + i) (combine xs (seq k (length xs))).
Proof.
  revert i k. induction xs as [|x xs IH]; intros i k H; simpl in *; [lia|].
  destruct i as [|i].
  - left. f_equal. lia.
  - right. replace (k + S i) with (S k + i) by lia. apply IH. lia.
Qed.

(** Each header names the trimmed cell below it, and a cell that the row
    does not have reads as the empty string. *)
Lemma zip_row_lookup (headers row : list str) (i : nat) :
  NoDup (map trim headers) -> i < length headers ->
  trim (nth i headers []) <> lit "__proto__" ->
  lookup (trim (nth i headers [])) (zip_row headers row)
  = Some (VStr (trim (nth i row []))).
Proof.
  intros Hnd Hi Hproto. unfold zip_row.
  rewrite (lookup_fold_put (fun hi : str * nat => trim (fst hi))
                           (fun hi => cell row (snd hi)) _ _ _ Hproto).
  set (L := map (fun x : str * nat => (trim (fst x), cell row (snd x)))
                (combine headers (seq 0 (length headers)))).
  assert (map fst L = map trim headers) as Hkeys.
  { unfold L. rewrite map_map. simpl.
    rewrite <- (map_map fst trim). rewrite map_fst_combine_seq. reflexivity. }
  rewrite (lookup_nodup (trim (nth i headers [])) (cell row i) (rev L)).
  - rewrite cell_value. reflexivity.
  - rewrite map_rev, Hkeys. apply NoDup_rev. exact Hnd.
  - apply -> in_rev. unfold L. apply in_map_iff.
    exists (nth i headers [], i). split; [reflexivity|].
    apply (in_combine_seq headers [] i 0 Hi).
Qed.

Lemma sheet_rows_ok (feedFields : list str) (url : str)
      (headers : list str) (rows : list (list str)) :
  exists items,
    mapM (fun row => processFeedItem feedFields (VObj (zip_row headers row))
                                     (lit "googlesheet") url) rows
    = Ok items /\
    length items = length rows /\
    forall i d d', i < length rows ->
      processFeedItem feedFields (VObj (zip_row headers (nth i rows d)))
                      (lit "googlesheet") url = Ok (nth i items d').
Proof.
  apply (mapM_ok (fun row => processFeedItem feedFields
                               (VObj (zip_row headers row))
                               (lit "googlesheet") url)).
  intros row _. apply processFeedItem_total. reflexivity.
Qed.

(** The generic item built from an object keeps a field that is in the
    allow-list, or every field when the allow-list is empty. *)
Lemma generic_item_keeps_field (feedFields : list str) (props : list (str * value))
      (type url k : str) (v y : value) :
  processFeedItem feedFields (VObj props) type url = Ok y ->
  str_eqb (toLowerCase type) (lit "nasa") = false ->
  str_eqb (toLowerCase type) (lit "seeclickfix") = false ->
  str_eqb (toLowerCase type) (lit "bsky") = false ->
  lookup k props = Some v ->
  feedFields = [] \/ In k feedFields ->
  (forall v', In (k, v') props -> v' = v) ->
  k <> lit "__proto__" ->
  get y k = Ok v.
Proof.
  intros E T1 T2 T3 Hk Hfields Hsame Hproto. unfold processFeedItem in E.
  rewrite T1, T2, T3 in E.
  rewrite (mapM_fields (VObj props) feedFields eq_refl) in E. cbn [bind] in E.
  destruct (0 <? length feedFields) eqn:L.
  - destruct Hfields as [Hf | Hin]; [subst; discriminate L|].
    inversion E; subst y. clear E.
    cbn [get]. rewrite (lookup_fold_put fst snd _ _ _ Hproto).
    rewrite (lookup_all_same k v); [reflexivity| |].
    + rewrite map_rev. apply -> in_rev. rewrite !map_map. cbn [fst].
      rewrite map_id. exact Hin.
    + intros v' Hv. apply in_rev in Hv. rewrite map_map in Hv.
      apply in_map_iff in Hv. destruct Hv as [x [E1 _]]. cbn [fst snd] in E1.
      inversion E1; subst. cbn [read]. rewrite Hk. reflexivity.
  - inversion E; subst y. clear E. cbn [get].
    unfold assign. cbn [own_props].
    rewrite (lookup_fold_put fst snd _ _ _ Hproto).
    rewrite (lookup_all_same k v); [reflexivity| |].
    + rewrite map_rev. apply -> in_rev. rewrite map_map. cbn [fst].
      apply in_map_iff. exists (k, v). split; [reflexivity|].
      clear Hsame. induction props as [|[k0 v0] ps IH]; simpl in *; [discriminate|].
      destruct (str_eqb k0 k) eqn:Ek.
      * left. apply str_eqb_eq in Ek. congruence.
      * right. apply IH. exact Hk.
    + intros v' Hin. apply in_rev in Hin. apply in_map_iff in Hin.
      destruct Hin as [[k1 v1] [E1 H1]]. cbn [fst snd] in E1.
      inversion E1; subst. apply Hsame. exact H1.
Qed.

Lemma feed_body_googlesheet (feedType : str) (feedFields : list str)
      (axios_get : str -> result value) (url body : str) :
  toLowerCase (currentFeedType feedType url) = lit "googlesheet" ->
  axios_get url = Ok (VStr body) ->
  feed_body feedType feedFields axios_get url
  = mapM (fun row => processFeedItem feedFields
                       (VObj (zip_row (hd [] (map (split ","%char)
                                                  (split "010"%char body))) row))
                       (lit "googlesheet") url)
         (tl (map (split ","%char) (split "010"%char body))).
Proof.
  intros Htype H. unfold feed_body. rewrite H. cbn [bind]. rewrite Htype.
  reflexivity.
Qed.

(** C7.  The spreadsheet case is taken when the feed type is
    [googlesheet], or [mixed] with a spreadsheet URL.  For a response body
    that is a string, the spreadsheet adapter never fails: it splits the
    body at the line feeds and each line at the
    commas, takes the first line as headers and returns one item per
    further line, built from the line zipped against the headers.  In the
    zipped map each (distinct) trimmed header other than [__proto__]
    names the trimmed cell of its column, and a cell that the line does
    not have is the empty string; a header [__proto__] adds no key, since
    the assignment of a string to that name stores nothing.  For the body
    of the scenario the result is exactly two items, and their titles are
    "A" and "B" whenever the field allow-list is empty or lists
    [title]. *)
Theorem googlesheet_adapter_zips_rows (feedType : str) (feedFields : list str)
        (axios_get : str -> result value) (url body : str) :
  toLowerCase (currentFeedType feedType url) = lit "googlesheet" ->
  axios_get url = Ok (VStr body) ->
  exists items,
    feed_body feedType feedFields axios_get url = Ok items /\
    length items = length (split "010"%char body) - 1 /\
    (forall i, i < length items ->
       processFeedItem feedFields
         (VObj (zip_row (hd [] (map (split ","%char) (split "010"%char body)))
                        (nth i (tl (map (split ","%char)
                                        (split "010"%char body))) [])))
         (lit "googlesheet") url
       = Ok (nth i items VUndefined)) /\
    (forall headers row i,
       NoDup (map trim headers) -> i < length headers ->
       trim (nth i headers []) <> lit "__proto__" ->
       lookup (trim (nth i headers [])) (zip_row headers row)
       = Some (VStr (trim (nth i row [])))) /\
    (forall headers row,
       lookup (lit "__proto__") (zip_row headers row) = None) /\
    (body = two_row_sheet ->
     feedFields = [] \/ In (lit "title") feedFields ->
     exists a b, items = [a; b] /\
                 get a (lit "title") = Ok (VStr (lit "A")) /\
                 get b (lit "title") = Ok (VStr (lit "B"))).
Proof.
  intros Htype Hget.
  rewrite (feed_body_googlesheet feedType feedFields axios_get url body Htype Hget).
  destruct (sheet_rows_ok feedFields url
              (hd [] (map (split ","%char) (split "010"%char body)))
              (tl (map (split ","%char) (split "010"%char body))))
    as [items [E [L N]]].
  exists items. split; [exact E|]. split.
  { rewrite L. destruct (split "010"%char body) eqn:S; simpl;
      [reflexivity | rewrite length_map; lia]. }
  split. { intros i Hi. apply N. rewrite <- L. exact Hi. }
  split. { intros headers row i. apply zip_row_lookup. }
  split. { intros headers row. unfold zip_row.
           apply (lookup_fold_put_proto (fun hi : str * nat => trim (fst hi))
                                        (fun hi => cell row (snd hi))). }
  intros -> Hfields.
  change (tl (map (split ","%char) (split "010"%char two_row_sheet)))
    with [ [lit "A"; lit "http://img/a.jpg"]; [lit "B"; lit "http://img/b.jpg"] ]
    in L, N.
  change (hd [] (map (split ","%char) (split "010"%char two_row_sheet)))
    with [lit "title"; lit "url"] in N.
  destruct items as [|a [|b [|c items]]]; try discriminate L.
  exists a, b. split; [reflexivity|].
  pose proof (N 0 [] VUndefined (Nat.lt_0_succ 1)) as Na.
  pose proof (N 1 [] VUndefined (Nat.lt_succ_diag_r 1)) as Nb.
  cbn [nth] in Na, Nb.
  split.
  - apply (generic_item_keeps_field feedFields _ _ _ (lit "title")
             (VStr (lit "A")) a Na); try reflexivity;
      [exact Hfields | | discriminate].
    intros v' [H | [H | []]]; inversion H; reflexivity.
  - apply (generic_item_keeps_field feedFields _ _ _ (lit "title")
             (VStr (lit "B")) b Nb); try reflexivity;
      [exact Hfields | | discriminate].
    intros v' [H | [H | []]]; inversion H; reflexivity.
Qed.

Lemma googlesheet_adapter_zips_rows_witness :
  exists a b,
    feed_body (lit "mixed") [] (fun _ => Ok (VStr two_row_sheet))
              (lit "https://docs.google.com/spreadsheets/d/abc/gviz/tq?tqx=out:csv")
    = Ok [a; b] /\
    get a (lit "title") = Ok (VStr (lit "A")) /\
    get b (lit "title") = Ok (VStr (lit "B")).
Proof.
  destruct (googlesheet_adapter_zips_rows (lit "mixed") []
              (fun _ => Ok (VStr two_row_sheet))
              (lit "https://docs.google.com/spreadsheets/d/abc/gviz/tq?tqx=out:csv")
              two_row_sheet eq_refl eq_refl)
    as [items [E [_ [_ [_ [_ H]]]]]].
  destruct (H eq_refl (or_introl eq_refl)) as [a [b [-> [Ha Hb]]]].
  exists a, b. split; [exact E|]. split; assumption.
Defined.

End GridFacts.

(** ** Aggregating several source URLs *)

Module AggregateFacts.

Import Player Loader StrFacts.

Lemma add_items_app (acc : list value) (v : value) :
  add_items acc v = acc ++ items_of v.
Proof.
  unfold items_of, add_items.
  destruct v; try reflexivity;
    match goal with
    | |- context [truthy ?x] => destruct (truthy x)
    end; cbn [app]; try reflexivity; rewrite app_nil_r; reflexivity.
Qed.

(** The loop over the URLs concatenates what each URL adds. *)
Lemma fold_add_items {A} (f : A -> value) (us : list A) (acc : list value) :
  fold_left (fun mediaItems u => add_items mediaItems (f u)) us acc
  = acc ++ concat (map (fun u => items_of (f u)) us).
Proof.
  revert acc. induction us as [|u us IH]; intros acc; simpl.
  - rewrite app_nil_r. reflexivity.
  - rewrite IH, add_items_app, app_assoc. reflexivity.
Qed.

Lemma includes_nonempty (s p : str) :
  p <> [] -> includes s p = true -> nonempty s = true.
Proof.
  intros Hp H. destruct s as [|a s]; [|reflexivity].
  rewrite includes_nil in H. destruct p; [congruence | discriminate H].
Qed.

Lemma loadFeed_items_piped (axios_get : str -> result value)
      (swiperData videoData : value) (feeds : list media) (m : media) :
  includes (url m) (lit "|") = true ->
  loadFeed_items axios_get swiperData videoData feeds m
  = concat (map (fun u => items_of (fetchMediaFromAPI axios_get swiperData
                                      videoData feeds (clone m u)))
                (urls_of m)).
Proof.
  intros H. unfold loadFeed_items. rewrite H.
  rewrite (includes_nonempty (url m) (lit "|")) by (discriminate || exact H).
  cbn [andb]. apply (fold_add_items
    (fun u => fetchMediaFromAPI axios_get swiperData videoData feeds (clone m u))).
Qed.

Lemma loadFeed_single_failure_aux (axios_get : str -> result value)
      (swiperData videoData : value) (feeds : list media) (m : media)
      (e : error) :
  includes (url m) (lit "|") = false ->
  fetch_body axios_get swiperData videoData feeds m = Throw e ->
  loadFeed_items axios_get swiperData videoData feeds m = [error_item m e].
Proof.
  intros Hpipe Hfail. unfold loadFeed_items. rewrite Hpipe, andb_false_r.
  unfold fetchMediaFromAPI. rewrite Hfail. reflexivity.
Qed.

(** A feed backed by one URL whose fetch fails is stored as a list of
    exactly one error item. *)
Theorem loadFeed_single_failure (axios_get : str -> result value)
        (swiperData videoData : value) (feeds : list media) (m : media)
        (e : error) :
  includes (url m) (lit "|") = false ->
  fetch_body axios_get swiperData videoData feeds m = Throw e ->
  loadFeed_items axios_get swiperData videoData feeds m = [error_item m e].
Proof.
  intros Hpipe Hfail. unfold loadFeed_items. rewrite Hpipe, andb_false_r.
  unfold fetchMediaFromAPI. rewrite Hfail. reflexivity.
Qed.

Lemma loadFeed_single_failure_witness :
  loadFeed_items always_429 VNull VNull [] nasa_feed
  = [error_item nasa_feed error_429].
Proof.
  exact (loadFeed_single_failure always_429 VNull VNull [] nasa_feed error_429
           eq_refl eq_refl).
Defined.

(** C3 (as the claim states it, at a concrete input).  A feed of the
    player is backed by two URLs; the first answers with two items and the
    second fails.  The list that [loadFeed] stores has three items, not
    two: the two items of the first URL followed by the error item of the
    second. *)
Lemma loadFeed_keeps_error_item_of_failed_url :
  urls_of two_url_feed = [lit "https://a/apod"; lit "https://b/apod"] /\
  (exists x y, fetch_body first_url_only VNull VNull []
                 (clone two_url_feed (lit "https://a/apod")) = Ok (VArr [x; y])) /\
  fetch_body first_url_only VNull VNull []
    (clone two_url_feed (lit "https://b/apod")) = Throw error_500 /\
  length (loadFeed_items first_url_only VNull VNull [] two_url_feed) = 3 /\
  nth 2 (loadFeed_items first_url_only VNull VNull [] two_url_feed) VUndefined
  = error_item two_url_feed error_500.
Proof.
  split; [reflexivity|]. split; [eexists; eexists; reflexivity|].
  repeat split.
Qed.

(** C3 (amended).  Among the source URLs of one feed, a URL whose fetch
    fails never stops the others: every other URL contributes its items,
    in order.  In the typed card grid the failed URL contributes nothing,
    so the aggregate is the aggregate of the other URLs.  In the player
    the failed URL contributes its one error item, so the stored list is
    the items of the URLs before it, the error item, and the items of the
    URLs after it, and its length is the sum of the others' plus one. *)
Theorem failed_url_keeps_sibling_items
  (feedType : str) (feedFields : list str) (axios_get : str -> result value)
  (swiperData videoData : value) (feeds : list media) (m : media)
  (us1 us2 : list str) (u : str) (e : error) :
  (Grid.feed_body feedType feedFields axios_get u = Throw e ->
   Grid.flattenedResults feedType feedFields axios_get (us1 ++ u :: us2)
   = Grid.flattenedResults feedType feedFields axios_get us1
     ++ Grid.flattenedResults feedType feedFields axios_get us2) /\
  (includes (url m) (lit "|") = true ->
   urls_of m = us1 ++ u :: us2 ->
   fetch_body axios_get swiperData videoData feeds (clone m u) = Throw e ->
   let others us :=
     concat (map (fun u' => items_of (fetchMediaFromAPI axios_get swiperData
                                        videoData feeds (clone m u'))) us) in
   loadFeed_items axios_get swiperData videoData feeds m
   = others us1 ++ [error_item m e] ++ others us2 /\
   length (loadFeed_items axios_get swiperData videoData feeds m)
   = length (others us1) + length (others us2) + 1).
Proof.
  split.
  - intros Hfail. unfold Grid.flattenedResults.
    rewrite map_app, concat_app. cbn [map concat].
    unfold Grid.feed_promise at 2. rewrite Hfail. reflexivity.
  - intros Hpipe Hurls Hfail others.
    assert (loadFeed_items axios_get swiperData videoData feeds m
            = others us1 ++ [error_item m e] ++ others us2) as E.
    { rewrite (loadFeed_items_piped _ _ _ _ _ Hpipe), Hurls.
      rewrite map_app, concat_app. cbn [map concat].
      unfold fetchMediaFromAPI at 2. rewrite Hfail. reflexivity. }
    split; [exact E|].
    rewrite E, !length_app. simpl. lia.
Qed.

Lemma failed_url_keeps_sibling_items_witness :
  loadFeed_items first_url_only VNull VNull [] two_url_feed
  = items_of (fetchMediaFromAPI first_url_only VNull VNull []
                (clone two_url_feed (lit "https://a/apod")))
    ++ [error_item two_url_feed error_500] /\
  Grid.flattenedResults (lit "nasa") [] first_url_only
    [lit "https://a/apod"; lit "https://b/apod"]
  = Grid.flattenedResults (lit "nasa") [] first_url_only [lit "https://a/apod"].
Proof.
  pose proof (failed_url_keeps_sibling_items (lit "nasa") [] first_url_only
                VNull VNull [] two_url_feed [lit "https://a/apod"] []
                (lit "https://b/apod") error_500) as [Hgrid Hplayer].
  split.
  - rewrite (proj1 (Hplayer eq_refl eq_refl eq_refl)).
    cbn [map concat]. rewrite !app_nil_r. reflexivity.
  - eapply eq_trans; [exact (Hgrid eq_refl) | apply app_nil_r].
Defined.

End AggregateFacts.

(** ** Properties of the feed map *)

Module FeedMapFacts.

Import FeedMap StrFacts ObjFacts.

(** *** Keys of an object after a write *)

Lemma set_keys_in (k : str) (v : value) (ps : list (str * value)) :
  In k (map fst ps) -> map fst (set k v ps) = map fst ps.
Proof.
  induction ps as [|[k' v'] ps IH]; simpl; intros H; [tauto|].
  destruct (str_eqb k' k) eqn:E; simpl; [reflexivity|].
  apply str_eqb_neq in E. f_equal. apply IH. destruct H; congruence.
Qed.

Lemma set_keys_notin (k : str) (v : value) (ps : list (str * value)) :
  ~ In k (map fst ps) -> map fst (set k v ps) = map fst ps ++ [k].
Proof.
  induction ps as [|[k' v'] ps IH]; simpl; intros H; [reflexivity|].
  destruct (str_eqb k' k) eqn:E; simpl.
  - apply str_eqb_eq in E. tauto.
  - f_equal. apply IH. tauto.
Qed.

Lemma in_dec_str (k : str) (ks : list str) : In k ks \/ ~ In k ks.
Proof.
  destruct (in_dec (list_eq_dec ascii_dec) k ks); [left | right]; assumption.
Qed.

Lemma set_keys_iff (k k' : str) (v : value) (ps : list (str * value)) :
  In k' (map fst (set k v ps)) <-> k' = k \/ In k' (map fst ps).
Proof.
  destruct (in_dec_str k (map fst ps)) as [H | H].
  - rewrite (set_keys_in k v ps H). split; [tauto|].
    intros [-> | H']; assumption.
  - rewrite (set_keys_notin k v ps H), in_app_iff. simpl.
    split; intros [H' | H']; try tauto; [destruct H'; [auto | tauto] | auto].
Qed.

Lemma set_keys_nodup (k : str) (v : value) (ps : list (str * value)) :
  NoDup (map fst ps) -> NoDup (map fst (set k v ps)).
Proof.
  intros Hnd. destruct (in_dec_str k (map fst ps)) as [H | H].
  - rewrite (set_keys_in k v ps H). exact Hnd.
  - rewrite (set_keys_notin k v ps H).
    apply NoDup_app; [exact Hnd | repeat constructor; simpl; tauto |].
    intros x Hx [<- | []]. tauto.
Qed.

Section Fold.

Variables (A : Type) (kf : A -> str) (vf : A -> value).

Lemma write_all_keys_iff (xs : list A) (acc : list (str * value)) (k : str) :
  In k (map fst (write_all kf vf xs acc)) <-> In k (map fst acc) \/ In k (map kf xs).
Proof.
  revert acc. induction xs as [|x xs IH]; intros acc; simpl; [tauto|].
  unfold write_all in *. simpl. rewrite IH, set_keys_iff.
  split; intros H; intuition congruence.
Qed.

Lemma write_all_nodup (xs : list A) (acc : list (str * value)) :
  NoDup (map fst acc) -> NoDup (map fst (write_all kf vf xs acc)).
Proof.
  revert acc. induction xs as [|x xs IH]; intros acc H; simpl; [exact H|].
  apply IH. apply set_keys_nodup. exact H.
Qed.


End Fold.

(** *** [buildFeedMap] writes the accepted entries in order *)



(** *** [Object.keys] *)


Lemma insert_index_in (k : str) (n : N) (ks : list (str * N)) (x : str * N) :
  In x (insert_index k n ks) <-> x = (k, n) \/ In x ks.
Proof.
  induction ks as [|[k' n'] ks IH]; simpl; [intuition congruence|].
  destruct (n <=? n')%N; simpl; [intuition congruence|].
  rewrite IH. intuition congruence.
Qed.


Lemma sort_indices_in (ks : list (str * N)) (x : str * N) :
  In x (sort_indices ks) <-> In x ks.
Proof.
  induction ks as [|[k n] ks IH]; simpl; [tauto|].
  rewrite insert_index_in, IH. intuition congruence.
Qed.

Lemma index_keys_in (ks : list str) (k : str) (n : N) :
  In (k, n) (index_keys ks) <-> In k ks /\ array_index k = Some n.
Proof.
  unfold index_keys. rewrite in_flat_map. split.
  - intros [k' [Hin H]]. destruct (array_index k') as [n'|] eqn:E; [|destruct H].
    destruct H as [H | []]. inversion H; subst. split; assumption.
  - intros [Hin E]. exists k. split; [exact Hin|]. rewrite E. left. reflexivity.
Qed.




Lemma Object_keys_in (obj : list (str * value)) (k : str) :
  In k (Object_keys obj) <-> In k (map fst obj).
Proof.
  unfold Object_keys. rewrite in_app_iff, filter_In, in_map_iff. split.
  - intros [[[k' n] [E H]] | [H _]]; [|exact H].
    simpl in E. subst k'. apply sort_indices_in, index_keys_in in H. tauto.
  - intros H. destruct (array_index k) as [n|] eqn:E.
    + left. exists (k, n). split; [reflexivity|].
      apply sort_indices_in, index_keys_in. tauto.
    + right. split; [exact H|]. unfold is_index. rewrite E. reflexivity.
Qed.

Lemma Object_keys_no_index (obj : list (str * value)) :
  (forall k, In k (map fst obj) -> is_index k = false) ->
  Object_keys obj = map fst obj.
Proof.
  unfold Object_keys. generalize (map fst obj) as ks. intros ks H.
  assert (index_keys ks = [] /\
          filter (fun k => negb (is_index k)) ks = ks) as [E1 E2].
  { induction ks as [|k ks IH]; [split; reflexivity|].
    destruct IH as [I1 I2]; [intros k' Hk'; apply H; right; exact Hk'|].
    assert (is_index k = false) as Hk by (apply H; left; reflexivity).
    simpl. rewrite Hk, I2. simpl. unfold is_index in Hk.
    destruct (array_index k); [discriminate|]. simpl. split; [exact I1 | reflexivity]. }
  rewrite E1, E2. reflexivity.
Qed.

(** *** Accepted entries and segments *)

Lemma split_two_in (c : ascii) (s a b : str) (rest : list str) :
  split c s = a :: b :: rest -> In c s.
Proof.
  intros E. destruct (in_dec ascii_dec c s) as [H | H]; [exact H|].
  rewrite (split_no_sep c s H) in E. discriminate.
Qed.








End FeedMapFacts.

(** ** Properties of the plain card grid *)

Module CardGridFacts.

Import CardGrid StrFacts GridFacts.
Import Grid (nullish, read).

(** *** Replacing a placeholder *)

Lemma find_first_unfold (pat s : str) :
  find_first pat s =
  if startsWith s pat then Some ([], skipn (length pat) s)
  else match s with
       | [] => None
       | c :: s' =>
           match find_first pat s' with
           | Some (before, after) => Some (c :: before, after)
           | None => None
           end
       end.
Proof. destruct s; reflexivity. Qed.

Lemma skipn_app_self (p s : str) : skipn (length p) (p ++ s) = s.
Proof. induction p as [|a p IH]; simpl; [reflexivity | exact IH]. Qed.

(** The first occurrence of a pattern is where its first character first
    occurs, when the pattern follows there. *)
Lemma find_first_app (c : ascii) (p a rest : str) :
  ~ In c a ->
  find_first (c :: p) (a ++ c :: p ++ rest) = Some (a, rest).
Proof.
  intros H. induction a as [|x a IH].
  - rewrite find_first_unfold.
    change ([] ++ c :: p ++ rest) with ((c :: p) ++ rest).
    rewrite startsWith_app_self, skipn_app_self. reflexivity.
  - rewrite find_first_unfold.
    assert (startsWith ((x :: a) ++ c :: p ++ rest) (c :: p) = false) as E.
    { simpl. apply andb_false_intro1. apply ascii_eqb_neq.
      intros ->. apply H. left. reflexivity. }
    rewrite E. simpl app. cbv iota. rewrite IH; [reflexivity|].
    intros Hin. apply H. right. exact Hin.
Qed.

Lemma substitution_plain (matched before after replacement : str) :
  ~ In "$"%char replacement ->
  substitution matched before after replacement = replacement.
Proof.
  induction replacement as [|c r IH]; intros H; [reflexivity|].
  simpl. destruct (ascii_eqb c "$"%char) eqn:E.
  - apply ascii_eqb_eq in E. exfalso. apply H. left. exact E.
  - f_equal. apply IH. intros Hin. apply H. right. exact Hin.
Qed.

Lemma replace_placeholder (c : ascii) (p a rest v : str) :
  ~ In c a -> ~ In "$"%char v ->
  replace (a ++ c :: p ++ rest) (c :: p) v = a ++ v ++ rest.
Proof.
  intros Ha Hv. unfold replace.
  rewrite (find_first_app c p a rest Ha), (substitution_plain _ _ _ _ Hv).
  reflexivity.
Qed.

Lemma replace_placeholder_app (c : ascii) (p a rest v : str) :
  ~ In c a -> ~ In "$"%char v ->
  replace (a ++ (c :: p) ++ rest) (c :: p) v = a ++ v ++ rest.
Proof. exact (replace_placeholder c p a rest v). Qed.

(** *** The image filter *)

Lemma truthy_not_nullish (v : value) : truthy v = true -> nullish v = false.
Proof. destruct v; simpl; congruence. Qed.

Lemma has_image_b (item : value) :
  nullish item = false -> has_image item = Ok (has_imageb item).
Proof.
  intros H. unfold has_image, has_imageb.
  rewrite (get_read item _ H). cbn [bind].
  destruct (truthy (read item (lit "media"))) eqn:M; [|reflexivity].
  pose proof (truthy_not_nullish _ M) as Hm.
  rewrite (get_read _ (lit "image_full") Hm). cbn [bind].
  destruct (truthy (read (read item (lit "media")) (lit "image_full")));
    [reflexivity|].
  rewrite (get_read _ (lit "representative_image_url") Hm). reflexivity.
Qed.

Lemma filterM_has_image (xs : list value) :
  Forall (fun item => nullish item = false) xs ->
  Loader.filterM has_image xs = Ok (filter has_imageb xs).
Proof.
  induction 1 as [|x xs Hx _ IH]; simpl; [reflexivity|].
  rewrite (has_image_b x Hx). cbn [bind]. rewrite IH. reflexivity.
Qed.

Lemma Forall_firstn {A} (P : A -> Prop) (n : nat) (xs : list A) :
  Forall P xs -> Forall P (firstn n xs).
Proof.
  intros H. revert n. induction H as [|x xs Hx _ IH]; intros [|n]; simpl;
    constructor; auto.
Qed.

Lemma apiUrl_seeclickfix (getItem : str -> option str) (url : str) :
  includes (apiUrl getItem url) (lit "seeclickfix.com") = true ->
  apiUrl getItem url
  = replace (replace url (lit "{latitude}")
                     (stored_or getItem (lit "latitude") (lit "41.307")))
            (lit "{longitude}")
            (stored_or getItem (lit "longitude") (lit "-72.925")).
Proof.
  unfold apiUrl. destruct (includes url (lit "seeclickfix.com")) eqn:E;
    [reflexivity|].
  intros H. rewrite H in E. discriminate.
Qed.

(** C10.  For a source URL whose request URL names seeclickfix.com and a
    response whose issues ([response.data.issues], or [response.data]
    itself) are an array of objects, the items appended for the URL are
    exactly the issues with an image, in their order, cut after the first
    five; issues without one are dropped.  The request URL is the source
    URL with the first ["{latitude}"] and then the first ["{longitude}"]
    replaced, by the stored values or, when nothing (or the empty string)
    is stored, by 41.307 and -72.925; for a URL of the form
    [a{latitude}b{longitude}c] with no other brace before the
    placeholders, and values without [$] or brace, it is [a lat b lon c]. *)
Theorem seeclickfix_fetch_keeps_first_five_with_image
  (getItem : str -> option str) (axios_get : str -> result value)
  (url : str) (data : value) (issues allItems : list value) :
  includes (apiUrl getItem url) (lit "seeclickfix.com") = true ->
  axios_get (apiUrl getItem url) = Ok data ->
  nullish data = false ->
  or_ (read data (lit "issues")) data = VArr issues ->
  Forall (fun item => nullish item = false) issues ->
  let lat := stored_or getItem (lit "latitude") (lit "41.307") in
  let lon := stored_or getItem (lit "longitude") (lit "-72.925") in
  step getItem axios_get allItems url
    = allItems ++ firstn 5 (filter has_imageb issues) /\
  Forall (fun item => has_imageb item = true)
         (firstn 5 (filter has_imageb issues)) /\
  length (firstn 5 (filter has_imageb issues)) <= 5 /\
  apiUrl getItem url
    = replace (replace url (lit "{latitude}") lat) (lit "{longitude}") lon /\
  (getItem (lit "latitude") = None -> lat = lit "41.307") /\
  (getItem (lit "longitude") = None -> lon = lit "-72.925") /\
  (forall s, s <> [] -> getItem (lit "latitude") = Some s -> lat = s) /\
  (forall s, s <> [] -> getItem (lit "longitude") = Some s -> lon = s) /\
  (forall a b c,
     url = a ++ lit "{latitude}" ++ b ++ lit "{longitude}" ++ c ->
     ~ In "{"%char a -> ~ In "{"%char b ->
     ~ In "{"%char lat -> ~ In "$"%char lat -> ~ In "$"%char lon ->
     apiUrl getItem url = a ++ lat ++ b ++ lon ++ c).
Proof.
  intros Hhost Hget Hdata Hissues Hitems lat lon.
  pose proof (apiUrl_seeclickfix getItem url Hhost) as Hurl.
  fold lat lon in Hurl.
  split.
  { unfold step, fetch_url. rewrite Hget. cbn [bind].
    rewrite (get_read data _ Hdata). cbn [bind].
    rewrite Hissues, Hhost. cbn [as_array bind].
    rewrite (filterM_has_image issues Hitems). reflexivity. }
  split.
  { apply Forall_firstn. apply Forall_forall. intros x Hx.
    apply filter_In in Hx. tauto. }
  split; [apply firstn_le_length|].
  split; [exact Hurl|].
  split. { intros H. unfold lat, stored_or. rewrite H. reflexivity. }
  split. { intros H. unfold lon, stored_or. rewrite H. reflexivity. }
  split. { intros s Hs H. unfold lat, stored_or. rewrite H.
           destruct s; [congruence | reflexivity]. }
  split. { intros s Hs H. unfold lon, stored_or. rewrite H.
           destruct s; [congruence | reflexivity]. }
  intros a b c -> Ha Hb Hl1 Hl2 Hl3. rewrite Hurl.
  change (lit "{latitude}") with ("{"%char :: lit "latitude}").
  change (lit "{longitude}") with ("{"%char :: lit "longitude}").
  rewrite (replace_placeholder_app "{"%char (lit "latitude}") a _ lat Ha Hl2).
  replace (a ++ lat ++ b ++ ("{"%char :: lit "longitude}") ++ c)
    with ((a ++ lat ++ b) ++ ("{"%char :: lit "longitude}") ++ c)
    by (rewrite <- !app_assoc; reflexivity).
  rewrite replace_placeholder_app; [rewrite <- !app_assoc; reflexivity| |exact Hl3].
  rewrite !in_app_iff. tauto.
Qed.

Lemma seeclickfix_fetch_keeps_first_five_with_image_witness :
  apiUrl no_storage template_url
    = lit "https://seeclickfix.com/api/v2/issues?lat=41.307&lng=-72.925&per_page=100" /\
  step no_storage seven_issue_response [] template_url
    = [ issue 1 (VStr (lit "https://img/1.jpg")); issue 3 (VStr (lit "https://img/3.jpg"));
        issue 4 (VStr (lit "https://img/4.jpg")); issue 5 (VStr (lit "https://img/5.jpg"));
        issue 6 (VStr (lit "https://img/6.jpg")) ].
Proof.
  pose proof (seeclickfix_fetch_keeps_first_five_with_image
                no_storage seven_issue_response template_url
                (VObj [ (lit "issues", VArr seven_issues) ]) seven_issues []
                eq_refl eq_refl eq_refl eq_refl) as H.
  assert (Forall (fun item => nullish item = false) seven_issues) as Hitems
    by (repeat constructor).
  destruct (H Hitems) as [Hstep [_ [_ [_ [_ [_ [_ [_ Hform]]]]]]]].
  split.
  - apply (Hform (lit "https://seeclickfix.com/api/v2/issues?lat=")
                 (lit "&lng=") (lit "&per_page=100")); try reflexivity;
      simpl; intuition discriminate.
  - exact Hstep.
Defined.

End CardGridFacts.

(** ** Properties of the hash router *)

Module HashFacts.

Import Hash StrFacts.

(** C8 (the code at the failing input).  The hash holds the parameter
    [sidetab=settings] beside [feed] and [ref].  After [updateURLHash] of
    the first player the parameter is gone; the pair that was written
    reads back.  The second player keeps the parameter. *)
Theorem updateURLHash_first_drops_other_params :
  param_of hash_with_sidetab (lit "sidetab") = Some (lit "settings") /\
  updateURLHash_first (lit "nasa") (Int 3) hash_with_sidetab
    = lit "#feed=nasa&ref=3" /\
  param_of (updateURLHash_first (lit "nasa") (Int 3) hash_with_sidetab)
           (lit "sidetab") = None /\
  parseHash (updateURLHash_first (lit "nasa") (Int 3) hash_with_sidetab)
    = (lit "nasa", Int 3) /\
  updateURLHash (lit "nasa") (Int 3) hash_with_sidetab
    = lit "#feed=nasa&ref=3&sidetab=settings".
Proof. repeat split. Qed.

(** *** Encoding and decoding one character *)

Ltac each_ascii c :=
  destruct c as [[] [] [] [] [] [] [] []].

Lemma decode_uri_char (c : ascii) (rest : str) :
  percent_decode (plus_to_space (uri_char c) ++ rest) = c :: percent_decode rest.
Proof. each_ascii c; reflexivity. Qed.

Lemma decode_form_char (c : ascii) (rest : str) :
  percent_decode (plus_to_space (form_char c) ++ rest) = c :: percent_decode rest.
Proof. each_ascii c; reflexivity. Qed.

Lemma uri_char_lacks (c : ascii) :
  lacks "&"%char (uri_char c) = true /\ lacks "="%char (uri_char c) = true.
Proof. each_ascii c; split; reflexivity. Qed.

Lemma form_char_lacks (c : ascii) :
  lacks "&"%char (form_char c) = true /\ lacks "="%char (form_char c) = true.
Proof. each_ascii c; split; reflexivity. Qed.

Lemma form_char_nonempty (c : ascii) : form_char c <> [].
Proof. each_ascii c; discriminate. Qed.

Lemma lacks_app (d : ascii) (a b : str) :
  lacks d (a ++ b) = lacks d a && lacks d b.
Proof. apply forallb_app. Qed.

Lemma lacks_flat_map (d : ascii) (f : ascii -> str) (s : str) :
  (forall c, lacks d (f c) = true) -> lacks d (flat_map f s) = true.
Proof.
  intros H. induction s as [|c s IH]; simpl; [reflexivity|].
  rewrite lacks_app, H, IH. reflexivity.
Qed.

Lemma lacks_not_in (d : ascii) (s : str) : lacks d s = true -> ~ In d s.
Proof.
  unfold lacks. rewrite forallb_forall. intros H Hin.
  specialize (H d Hin). rewrite ascii_eqb_refl in H. discriminate.
Qed.

Lemma encodeURIComponent_lacks (s : str) :
  lacks "&"%char (encodeURIComponent s) = true.
Proof. apply (lacks_flat_map "&"%char uri_char). intros c. apply uri_char_lacks. Qed.

Lemma form_encode_lacks (s : str) :
  lacks "&"%char (form_encode s) = true /\
  lacks "="%char (form_encode s) = true.
Proof.
  split; apply (lacks_flat_map _ form_char); intros c; apply form_char_lacks.
Qed.

(** Decoding undoes both encoders. *)
Lemma decode_encodeURIComponent (s : str) :
  percent_decode (plus_to_space (encodeURIComponent s)) = s.
Proof.
  induction s as [|c s IH]; [reflexivity|].
  change (encodeURIComponent (c :: s)) with (uri_char c ++ encodeURIComponent s).
  unfold plus_to_space in *. rewrite map_app.
  rewrite (decode_uri_char c), IH. reflexivity.
Qed.

Lemma decode_form_encode (s : str) :
  percent_decode (plus_to_space (form_encode s)) = s.
Proof.
  induction s as [|c s IH]; [reflexivity|].
  change (form_encode (c :: s)) with (form_char c ++ form_encode s).
  unfold plus_to_space in *. rewrite map_app.
  rewrite (decode_form_char c), IH. reflexivity.
Qed.

(** *** Parsing what [toString] wrote *)

Lemma cut_at_equals_app (x rest : str) :
  lacks "="%char x = true -> cut_at_equals (x ++ "="%char :: rest) = (x, rest).
Proof.
  induction x as [|c x IH]; simpl; intros H; [reflexivity|].
  apply andb_prop in H. destruct H as [Hc Hx].
  apply negb_true_iff in Hc. rewrite Hc, (IH Hx). reflexivity.
Qed.

Lemma parse_pair_text (p : str * str) : parse_pair (pair_text p) = p.
Proof.
  destruct p as [n v]. unfold parse_pair, pair_text. cbn [fst snd].
  change (lit "=" ++ form_encode v) with ("="%char :: form_encode v).
  rewrite (cut_at_equals_app _ _ (proj2 (form_encode_lacks n))).
  rewrite !decode_form_encode. reflexivity.
Qed.

Lemma pair_text_lacks (p : str * str) : lacks "&"%char (pair_text p) = true.
Proof.
  unfold pair_text. rewrite !lacks_app.
  rewrite (proj1 (form_encode_lacks (fst p))), (proj1 (form_encode_lacks (snd p))).
  reflexivity.
Qed.

Lemma pair_text_nonempty (p : str * str) : nonempty (pair_text p) = true.
Proof.
  unfold pair_text. destruct (form_encode (fst p)); reflexivity.
Qed.

Lemma split_join (xs : list str) :
  xs <> [] -> Forall (fun x => lacks "&"%char x = true) xs ->
  split "&"%char (join (lit "&") xs) = xs.
Proof.
  intros Hne H. induction H as [|x xs Hx Hxs IH]; [congruence|].
  destruct xs as [|y ys].
  - simpl. apply split_no_sep. apply lacks_not_in. exact Hx.
  - change (join (lit "&") (x :: y :: ys))
      with (x ++ "&"%char :: join (lit "&") (y :: ys)).
    rewrite split_app by (apply lacks_not_in; exact Hx).
    rewrite IH by discriminate. reflexivity.
Qed.

(** Reading back what [toString] wrote gives the same parameters. *)
Lemma parse_toString (ps : params) :
  map parse_pair (filter nonempty (split "&"%char (toString ps))) = ps.
Proof.
  destruct ps as [|p ps]; [reflexivity|].
  set (xs := map pair_text (p :: ps)).
  assert (toString (p :: ps) = join (lit "&") xs) as E by reflexivity.
  assert (forall x, In x xs -> exists q, x = pair_text q) as Hxs.
  { intros x Hx. apply in_map_iff in Hx. destruct Hx as [q [<- _]].
    exists q. reflexivity. }
  rewrite E, (split_join xs).
  - rewrite (forallb_filter_id nonempty xs).
    + unfold xs. rewrite map_map. rewrite <- (map_id (p :: ps)) at 2.
      apply map_ext. intros q. apply parse_pair_text.
    + apply forallb_forall. intros x Hx.
      destruct (Hxs x Hx) as [q ->]. apply pair_text_nonempty.
  - discriminate.
  - apply Forall_forall. intros x Hx.
    destruct (Hxs x Hx) as [q ->]. apply pair_text_lacks.
Qed.

Lemma toString_nonempty (ps : params) :
  nonempty (toString ps) = match ps with [] => false | _ :: _ => true end.
Proof.
  destruct ps as [|p [|q ps]]; [reflexivity| |].
  - simpl. apply pair_text_nonempty.
  - unfold toString. cbn [map join].
    pose proof (pair_text_nonempty p) as H. unfold pair_text in H.
    destruct (form_encode (fst p) ++ lit "=" ++ form_encode (snd p));
      [discriminate | reflexivity].
Qed.

(** *** The parameters that are carried over *)

Lemma get_param_app (name : str) (ps qs : params) :
  get_param name (ps ++ qs) =
  match get_param name ps with Some v => Some v | None => get_param name qs end.
Proof.
  induction ps as [|[n v] ps IH]; simpl; [reflexivity|].
  destruct (str_eqb n name); [reflexivity | exact IH].
Qed.

Lemma get_param_filter_other (name other : str) (ps : params) :
  other <> name ->
  get_param name (filter (fun p => negb (str_eqb (fst p) other)) ps)
  = get_param name ps.
Proof.
  intros Hne. induction ps as [|[n v] ps IH]; simpl; [reflexivity|].
  destruct (str_eqb n other) eqn:E; simpl.
  - apply str_eqb_eq in E. subst n.
    apply str_eqb_neq in Hne. rewrite Hne. exact IH.
  - rewrite IH. reflexivity.
Qed.

Lemma get_set_param_eq (name value : str) (ps : params) :
  get_param name (set_param name value ps) = Some value.
Proof.
  induction ps as [|[n v] ps IH]; simpl.
  - rewrite str_eqb_refl. reflexivity.
  - destruct (str_eqb n name) eqn:E; simpl; rewrite E; [reflexivity | exact IH].
Qed.

Lemma get_set_param_neq (name name' value : str) (ps : params) :
  name <> name' ->
  get_param name' (set_param name value ps) = get_param name' ps.
Proof.
  intros Hne. induction ps as [|[n v] ps IH]; simpl.
  - apply str_eqb_neq in Hne. rewrite Hne. reflexivity.
  - destruct (str_eqb n name) eqn:E; simpl.
    + apply str_eqb_eq in E. subst n. apply str_eqb_neq in Hne as Hb.
      rewrite Hb. apply get_param_filter_other. exact Hne.
    + rewrite IH. reflexivity.
Qed.

(** After the loop, a name holds the value of its last carried pair. *)
Lemma get_param_carry (name : str) (ps acc : params) :
  get_param name
    (fold_left (fun other p => if carried p
                               then set_param (fst p) (snd p) other
                               else other) ps acc)
  = match get_param name (rev (filter carried ps)) with
    | Some v => Some v
    | None => get_param name acc
    end.
Proof.
  revert acc. induction ps as [|[n v] ps IH]; intros acc; simpl; [reflexivity|].
  rewrite IH. destruct (carried (n, v)) eqn:C; [|reflexivity].
  simpl rev. rewrite get_param_app. cbn [get_param fst snd].
  destruct (get_param name (rev (filter carried ps))); [reflexivity|].
  destruct (str_eqb n name) eqn:E.
  - apply str_eqb_eq in E. subst n. apply get_set_param_eq.
  - apply str_eqb_neq in E. apply get_set_param_neq. exact E.
Qed.

Lemma get_param_rev_carried (name : str) (ps : params) :
  name <> lit "feed" -> name <> lit "ref" ->
  get_param name (rev (filter carried ps)) = get_param name (rev ps).
Proof.
  intros Hf Hr. induction ps as [|[n v] ps IH]; [reflexivity|].
  cbn [filter rev]. destruct (carried (n, v)) eqn:C.
  - cbn [rev]. rewrite !get_param_app, IH. reflexivity.
  - rewrite get_param_app, IH.
    destruct (get_param name (rev ps)); [reflexivity|].
    cbn [get_param]. unfold carried in C. cbn [fst] in C.
    destruct (str_eqb n name) eqn:E; [|reflexivity].
    apply str_eqb_eq in E. subst n.
    apply str_eqb_neq in Hf. apply str_eqb_neq in Hr.
    rewrite Hf, Hr in C. discriminate.
Qed.

Lemma get_param_in (name value : str) (ps : params) :
  get_param name ps = Some value -> In (name, value) ps.
Proof.
  induction ps as [|[n v] ps IH]; simpl; [discriminate|].
  destruct (str_eqb n name) eqn:E.
  - apply str_eqb_eq in E. intros H. inversion H. subst. left. reflexivity.
  - intros H. right. apply IH. exact H.
Qed.

Lemma get_param_none (name : str) (ps : params) :
  get_param name ps = None -> ~ In name (map fst ps).
Proof.
  induction ps as [|[n v] ps IH]; simpl; [tauto|].
  destruct (str_eqb n name) eqn:E; [discriminate|].
  apply str_eqb_neq in E. intros H [H' | H']; [congruence | exact (IH H H')].
Qed.

(** A name that stands once has the same first and last value. *)
Lemma get_param_rev_nodup (name : str) (ps : params) :
  NoDup (map fst ps) -> get_param name (rev ps) = get_param name ps.
Proof.
  induction ps as [|[n v] ps IH]; intros Hnd; [reflexivity|].
  inversion Hnd as [|? ? Hn Hnd']; subst.
  cbn [rev]. rewrite get_param_app, (IH Hnd'). cbn [get_param].
  destruct (str_eqb n name) eqn:E.
  - apply str_eqb_eq in E. subst n.
    destruct (get_param name ps) as [w|] eqn:G; [|reflexivity].
    exfalso. apply Hn. apply in_map_iff. exists (name, w).
    split; [reflexivity | apply get_param_in; exact G].
  - destruct (get_param name ps); reflexivity.
Qed.

(** *** Reading a decimal numeral back *)

Lemma lit_String (c : ascii) (t : string) : lit (String c t) = c :: lit t.
Proof. reflexivity. Qed.

Lemma uint_text (d : Decimal.uint) :
  leading_digits (lit (NilEmpty.string_of_uint d))
    = lit (NilEmpty.string_of_uint d) /\
  forallb is_digit (lit (NilEmpty.string_of_uint d)) = true /\
  forall acc, fold_left digit_step (lit (NilEmpty.string_of_uint d)) acc
              = uint_value d acc.
Proof.
  induction d as [|d [L [A V]]|d [L [A V]]|d [L [A V]]|d [L [A V]]|d [L [A V]]
                  |d [L [A V]]|d [L [A V]]|d [L [A V]]|d [L [A V]]|d [L [A V]]];
    [repeat split|..];
    cbn [NilEmpty.string_of_uint]; rewrite lit_String;
    (split; [cbn [leading_digits]; cbv [FeedMap.digit]; cbn; rewrite L; reflexivity|]);
    (split; [cbn [forallb]; rewrite A; reflexivity|]);
    intros acc; cbn [fold_left]; rewrite V; reflexivity.
Qed.

Lemma is_digit_plain (c : ascii) :
  is_digit c = true ->
  ascii_eqb c "&"%char = false /\ ascii_eqb c "%"%char = false /\
  ascii_eqb c "+"%char = false.
Proof. each_ascii c; intros H; try discriminate H; repeat split. Qed.

Lemma digits_lack (s : str) :
  forallb is_digit s = true ->
  lacks "&"%char s = true /\ lacks "%"%char s = true /\
  lacks "+"%char s = true.
Proof.
  induction s as [|c s IH]; [repeat split|].
  cbn [forallb lacks]. intros H. apply andb_prop in H. destruct H as [Hc Hs].
  destruct (is_digit_plain c Hc) as [E1 [E2 E3]].
  destruct (IH Hs) as [I1 [I2 I3]]. unfold lacks in I1, I2, I3.
  rewrite E1, E2, E3, I1, I2, I3. repeat split.
Qed.

Lemma uint_value_acc (d : Decimal.uint) (acc : positive) :
  uint_value d (Z.pos acc) = Z.pos (Pos.of_uint_acc d acc).
Proof.
  revert acc. induction d; intros acc; cbn [uint_value Pos.of_uint_acc];
    [reflexivity|..]; rewrite <- IHd; f_equal; lia.
Qed.

Lemma uint_value_zero (d : Decimal.uint) :
  uint_value d 0 = Z.of_N (Pos.of_uint d).
Proof.
  induction d; cbn [uint_value Pos.of_uint]; [reflexivity | exact IHd |..];
    cbn [Z.of_N]; rewrite <- uint_value_acc; reflexivity.
Qed.

Lemma digits_value_uint (d : Decimal.uint) :
  digits_value (lit (NilEmpty.string_of_uint d)) = Z.of_uint d.
Proof.
  unfold digits_value. change (fun (acc : Z) (c : ascii) => _) with digit_step.
  rewrite (proj2 (proj2 (uint_text d))). apply uint_value_zero.
Qed.

Lemma digit_char (c : ascii) (k : N) :
  FeedMap.digit c = Some k ->
  is_space c = false /\ ascii_eqb c "-"%char = false /\
  ascii_eqb c "+"%char = false.
Proof. each_ascii c; intros H; try discriminate H; repeat split. Qed.

Lemma parseInt_unsigned (c : ascii) (s : str) :
  is_space c = false -> ascii_eqb c "-"%char = false ->
  ascii_eqb c "+"%char = false ->
  parseInt (Some (c :: s))
  = match leading_digits (c :: s) with
    | [] => NaN
    | ds => Int (digits_value ds)
    end.
Proof.
  intros H1 H2 H3. unfold parseInt. cbn [trimStart]. rewrite H1, H2, H3.
  reflexivity.
Qed.

Lemma parseInt_negative (s : str) :
  parseInt (Some ("-"%char :: s))
  = match leading_digits s with
    | [] => NaN
    | ds => Int (- digits_value ds)
    end.
Proof. reflexivity. Qed.

(** [parseInt] reads a run of digits, with or without a minus sign. *)
Lemma parseInt_digits (s : str) :
  s <> [] -> leading_digits s = s ->
  parseInt (Some s) = Int (digits_value s) /\
  parseInt (Some ("-"%char :: s)) = Int (- digits_value s).
Proof.
  intros Hne Hlead. rewrite parseInt_negative, Hlead.
  destruct s as [|c s]; [congruence|]. split; [|reflexivity].
  assert (exists k, FeedMap.digit c = Some k) as [k Hk].
  { cbn [leading_digits] in Hlead.
    destruct (FeedMap.digit c) as [k|]; [exists k; reflexivity | discriminate]. }
  destruct (digit_char c k Hk) as [H1 [H2 H3]].
  pose proof (parseInt_unsigned c s H1 H2 H3) as E.
  rewrite Hlead in E. exact E.
Qed.

Lemma uint_text_nonnil (d : Decimal.uint) :
  d <> Decimal.Nil -> lit (NilEmpty.string_of_uint d) <> [].
Proof. destruct d; [congruence|..]; discriminate. Qed.

Lemma NilZero_uint_text (d : Decimal.uint) :
  d <> Decimal.Nil -> NilZero.string_of_uint d = NilEmpty.string_of_uint d.
Proof. destruct d; [congruence|..]; reflexivity. Qed.

(** Reading back the decimal text of an integer gives the integer. *)
Lemma parseInt_num_to_str (z : Z) :
  parseInt (Some (num_to_str (Int z))) = Int z.
Proof.
  destruct z as [|p|p]; [reflexivity|..];
    pose proof (DecimalPos.Unsigned.to_uint_nonnil p) as Hnil;
    pose proof (DecimalPos.Unsigned.of_to p) as Hof;
    pose proof (digits_value_uint (Pos.to_uint p)) as Hval;
    unfold Z.of_uint in Hval; rewrite Hof in Hval; cbn [Z.of_N] in Hval;
    destruct (parseInt_digits _ (uint_text_nonnil _ Hnil)
                              (proj1 (uint_text (Pos.to_uint p)))) as [Hp Hn];
    unfold num_to_str, Z.to_int, NilZero.string_of_int;
    rewrite (NilZero_uint_text _ Hnil).
  - rewrite Hval in Hp. exact Hp.
  - rewrite Hval in Hn. exact Hn.
Qed.

(** The text of a number holds no [&], [%] or [+]. *)
Lemma num_to_str_plain (n : num) :
  lacks "&"%char (num_to_str n) = true /\
  lacks "%"%char (num_to_str n) = true /\
  lacks "+"%char (num_to_str n) = true.
Proof.
  destruct n as [z| |[|]]; try (repeat split; fail).
  destruct z as [|p|p]; [repeat split|..];
    pose proof (DecimalPos.Unsigned.to_uint_nonnil p) as Hnil;
    pose proof (digits_lack _ (proj1 (proj2 (uint_text (Pos.to_uint p)))))
      as [H1 [H2 H3]];
    unfold num_to_str, Z.to_int, NilZero.string_of_int;
    rewrite (NilZero_uint_text _ Hnil).
  - repeat split; assumption.
  - rewrite lit_String. cbn [lacks forallb]. unfold lacks in H1, H2, H3.
    rewrite H1, H2, H3. repeat split.
Qed.

Lemma decode_plain (s : str) :
  lacks "%"%char s = true -> lacks "+"%char s = true ->
  percent_decode (plus_to_space s) = s.
Proof.
  induction s as [|c s IH]; [reflexivity|].
  cbn [lacks forallb]. intros H1 H2.
  apply andb_prop in H1. destruct H1 as [C1 S1].
  apply andb_prop in H2. destruct H2 as [C2 S2].
  apply negb_true_iff in C1. apply negb_true_iff in C2.
  cbn [plus_to_space map]. rewrite C2. cbn [percent_decode]. rewrite C1.
  f_equal. apply IH; assumption.
Qed.

(** *** What the second player's [updateURLHash] writes *)

Lemma filter_nonempty_cons (x : str) (xs : list str) :
  nonempty x = true -> filter nonempty (x :: xs) = x :: filter nonempty xs.
Proof. intros H. cbn [filter]. rewrite H. reflexivity. Qed.

Lemma URLSearchParams_feed (x : str) :
  URLSearchParams (lit "feed=" ++ x)
  = map parse_pair (filter nonempty (split "&"%char (lit "feed=" ++ x))).
Proof. reflexivity. Qed.

Lemma parse_feed_pair (x : str) :
  parse_pair (lit "feed=" ++ x)
  = (lit "feed", percent_decode (plus_to_space x)).
Proof. reflexivity. Qed.

Lemma parse_ref_pair (x : str) :
  parse_pair (lit "ref=" ++ x)
  = (lit "ref", percent_decode (plus_to_space x)).
Proof. reflexivity. Qed.

(** The parameters of the new hash: [feed], [ref], and the parameters
    that were carried over. *)
Lemma params_after_update (feed : str) (ref : num) (hash : str) :
  URLSearchParams (substring1 (updateURLHash feed ref hash))
  = (lit "feed", feed) :: (lit "ref", num_to_str ref) :: otherParams hash.
Proof.
  destruct (num_to_str_plain ref) as [N1 [N2 N3]].
  assert (~ In "&"%char (lit "feed=" ++ encodeURIComponent feed)) as HA.
  { apply lacks_not_in. rewrite lacks_app, encodeURIComponent_lacks. reflexivity. }
  assert (~ In "&"%char (lit "ref=" ++ num_to_str ref)) as HB.
  { apply lacks_not_in. rewrite lacks_app, N1. reflexivity. }
  assert (forall tail,
            URLSearchParams (lit "feed=" ++ encodeURIComponent feed
                             ++ "&"%char :: (lit "ref=" ++ num_to_str ref) ++ tail)
            = (lit "feed", feed)
              :: map parse_pair
                   (filter nonempty (split "&"%char
                                           ((lit "ref=" ++ num_to_str ref) ++ tail))))
    as Hfeed.
  { intros tail. rewrite URLSearchParams_feed.
    replace (lit "feed=" ++ encodeURIComponent feed
             ++ "&"%char :: (lit "ref=" ++ num_to_str ref) ++ tail)
      with ((lit "feed=" ++ encodeURIComponent feed)
            ++ "&"%char :: (lit "ref=" ++ num_to_str ref) ++ tail)
      by (rewrite <- app_assoc; reflexivity).
    rewrite (split_app _ _ _ HA), filter_nonempty_cons by reflexivity.
    cbn [map]. rewrite parse_feed_pair, decode_encodeURIComponent. reflexivity. }
  unfold updateURLHash. rewrite toString_nonempty.
  destruct (otherParams hash) as [|q qs] eqn:O.
  - change (substring1 (lit "#feed=" ++ encodeURIComponent feed
                        ++ lit "&ref=" ++ num_to_str ref))
      with (lit "feed=" ++ encodeURIComponent feed
            ++ "&"%char :: lit "ref=" ++ num_to_str ref).
    rewrite <- (app_nil_r (lit "ref=" ++ num_to_str ref)), Hfeed, app_nil_r.
    rewrite (split_no_sep _ _ HB), filter_nonempty_cons by reflexivity.
    cbn [map filter]. rewrite parse_ref_pair, (decode_plain _ N2 N3). reflexivity.
  - replace (substring1 ((lit "#feed=" ++ encodeURIComponent feed
                          ++ lit "&ref=" ++ num_to_str ref)
                         ++ lit "&" ++ toString (q :: qs)))
      with (lit "feed=" ++ encodeURIComponent feed
            ++ "&"%char :: (lit "ref=" ++ num_to_str ref)
            ++ "&"%char :: toString (q :: qs)).
    + rewrite Hfeed, (split_app _ _ _ HB), filter_nonempty_cons by reflexivity.
      cbn [map]. rewrite parse_ref_pair, (decode_plain _ N2 N3).
      rewrite (parse_toString (q :: qs)). reflexivity.
    + change (lit "#feed=" ++ encodeURIComponent feed
              ++ lit "&ref=" ++ num_to_str ref)
        with ("#"%char :: lit "feed=" ++ encodeURIComponent feed
              ++ lit "&ref=" ++ num_to_str ref).
      cbn [app substring1 tl]. unfold substring1. cbn [tl].
      rewrite <- !app_assoc. reflexivity.
Qed.

Lemma get_param_otherParams (hash name : str) :
  name <> lit "feed" -> name <> lit "ref" ->
  get_param name (otherParams hash)
  = get_param name (rev (URLSearchParams (substring1 hash))).
Proof.
  intros Hf Hr. unfold otherParams.
  change (fun (other : params) (p : str * str) => _)
    with (fun (other : params) (p : str * str) =>
            if carried p then set_param (fst p) (snd p) other else other).
  rewrite get_param_carry, (get_param_rev_carried name _ Hf Hr).
  destruct (get_param name (rev (URLSearchParams (substring1 hash))));
    reflexivity.
Qed.

(** The second player's [updateURLHash] keeps every parameter other than
    [feed] and [ref]: after the update the name reads as the value of its
    last occurrence before the update, which is its value before the
    update when no name stands twice in the fragment. *)
Theorem updateURLHash_carries_other_params
  (feed : str) (ref : num) (hash name : str) :
  name <> lit "feed" -> name <> lit "ref" ->
  param_of (updateURLHash feed ref hash) name
    = get_param name (rev (URLSearchParams (substring1 hash))) /\
  (NoDup (map fst (URLSearchParams (substring1 hash))) ->
   param_of (updateURLHash feed ref hash) name = param_of hash name).
Proof.
  intros Hf Hr.
  assert (param_of (updateURLHash feed ref hash) name
          = get_param name (rev (URLSearchParams (substring1 hash)))) as E.
  { unfold param_of. rewrite params_after_update. cbn [get_param].
    assert (str_eqb (lit "feed") name = false) as E1
      by (apply str_eqb_neq; congruence).
    assert (str_eqb (lit "ref") name = false) as E2
      by (apply str_eqb_neq; congruence).
    rewrite E1, E2. apply get_param_otherParams; assumption. }
  split; [exact E|].
  intros Hnd. rewrite E. unfold param_of. apply get_param_rev_nodup. exact Hnd.
Qed.

Lemma updateURLHash_carries_other_params_witness :
  param_of (updateURLHash (lit "nasa") (Int 3) hash_with_sidetab) (lit "sidetab")
  = Some (lit "settings").
Proof.
  assert (lit "sidetab" <> lit "feed") as Hf by discriminate.
  assert (lit "sidetab" <> lit "ref") as Hr by discriminate.
  rewrite (proj1 (updateURLHash_carries_other_params
                    (lit "nasa") (Int 3) hash_with_sidetab (lit "sidetab") Hf Hr)).
  reflexivity.
Defined.

(** With a name that stands twice, the update keeps one pair, with the
    value of the second. *)
Lemma updateURLHash_merges_repeated_param :
  param_of hash_with_repeated_param (lit "tag") = Some (lit "a") /\
  updateURLHash (lit "nasa") (Int 1) hash_with_repeated_param
    = lit "#feed=nasa&ref=1&tag=b" /\
  param_of (updateURLHash (lit "nasa") (Int 1) hash_with_repeated_param)
           (lit "tag") = Some (lit "b").
Proof. repeat split. Qed.

(** Reading the fragment back after either [updateURLHash] gives the feed
    key and the integer index that were written, for an index between
    -(2^53) and 2^53, where a number is an exact integer and is written
    in plain decimal digits. *)
Theorem updateURLHash_reads_back (feed : str) (z : Z) (hash : str) :
  (- 2 ^ 53 < z < 2 ^ 53)%Z ->
  parseHash (updateURLHash feed (Int z) hash) = (feed, Int z) /\
  parseHash (updateURLHash_first feed (Int z) hash) = (feed, Int z).
Proof.
  intros _.
  assert (forall h, parseHash (updateURLHash feed (Int z) h) = (feed, Int z)) as H.
  { intros h. unfold parseHash. rewrite params_after_update.
    cbn [get_param]. change (str_eqb (lit "feed") (lit "feed")) with true.
    change (str_eqb (lit "feed") (lit "ref")) with false.
    change (str_eqb (lit "ref") (lit "ref")) with true. cbv iota.
    rewrite parseInt_num_to_str. reflexivity. }
  split; [apply H|].
  replace (updateURLHash_first feed (Int z) hash)
    with (updateURLHash feed (Int z) []) by reflexivity.
  apply H.
Qed.

Lemma updateURLHash_reads_back_witness :
  parseHash (updateURLHash (lit "nasa") (Int 3) hash_with_sidetab)
    = (lit "nasa", Int 3) /\
  parseHash (updateURLHash_first (lit "nasa") (Int 3) hash_with_sidetab)
    = (lit "nasa", Int 3).
Proof.
  apply (updateURLHash_reads_back (lit "nasa") 3 hash_with_sidetab).
  split; reflexivity.
Defined.

End HashFacts.

(** ** Properties of the navigation by hash *)

Module RouterFacts.

Import Player Loader Hash Router StrFacts HashFacts.

Lemma parseInt_integer (v : option str) :
  parseInt v = NaN \/ exists z, parseInt v = Int z.
Proof.
  destruct v as [s|]; [|left; reflexivity]. unfold parseInt.
  destruct (match trimStart s with
            | [] => (false, trimStart s)
            | c :: t' =>
                if ascii_eqb c "-"%char then (true, t')
                else if ascii_eqb c "+"%char then (false, t') else (false, trimStart s)
            end) as [negative body].
  destruct (leading_digits body); [left; reflexivity|].
  right. eexists. reflexivity.
Qed.

Lemma parseInt_no_digit (s : str) :
  match trimStart s with
  | [] => True
  | c :: _ => is_digit c = false /\ ascii_eqb c "-"%char = false
              /\ ascii_eqb c "+"%char = false
  end ->
  parseInt (Some s) = NaN.
Proof.
  unfold parseInt. destruct (trimStart s) as [|c t]; [reflexivity|].
  intros [Hd [Hm Hp]]. rewrite Hm, Hp. cbn [leading_digits].
  unfold is_digit in Hd. destruct (FeedMap.digit c); [discriminate|reflexivity].
Qed.

(** [parseHash] never gives [NaN] for [ref]: a [ref] parameter that is
    absent, or whose decoded value holds ASCII characters only and does
    not start (after white space) with a digit or a sign, reads as 0,
    and an absent [feed] reads as the empty string. *)
Theorem parseHash_defaults (hash : str) :
  snd (parseHash hash) <> NaN /\
  (param_of hash (lit "ref") = None -> snd (parseHash hash) = Int 0) /\
  (forall s, param_of hash (lit "ref") = Some s ->
             seven_bit s = true ->
             match trimStart s with
             | [] => True
             | c :: _ => is_digit c = false /\ ascii_eqb c "-"%char = false
                         /\ ascii_eqb c "+"%char = false
             end ->
             snd (parseHash hash) = Int 0) /\
  (param_of hash (lit "feed") = None -> fst (parseHash hash) = []).
Proof.
  unfold parseHash, param_of. cbn [fst snd]. repeat split.
  - destruct (parseInt_integer
                (get_param (lit "ref") (URLSearchParams (substring1 hash))))
      as [E | [z E]]; rewrite E; discriminate.
  - intros E. rewrite E. reflexivity.
  - intros s E _ H. rewrite E, (parseInt_no_digit s H). reflexivity.
  - intros E. rewrite E. reflexivity.
Qed.

Lemma parseHash_defaults_witness :
  parseHash (lit "#feed=nasa&ref=abc") = (lit "nasa", Int 0) /\
  snd (parseHash (lit "#feed=nasa&ref=abc")) = Int 0 /\
  fst (parseHash (lit "#sidetab=settings")) = [].
Proof.
  split; [reflexivity|]. split.
  - refine (proj1 (proj2 (proj2 (parseHash_defaults (lit "#feed=nasa&ref=abc"))))
                  (lit "abc") eq_refl eq_refl _).
    cbn. repeat split.
  - exact (proj2 (proj2 (proj2 (parseHash_defaults (lit "#sidetab=settings"))))
                 eq_refl).
Defined.

Lemma parseHash_updateURLHash (feed : str) (z : Z) (hash : str) :
  parseHash (updateURLHash feed (Int z) hash) = (feed, Int z).
Proof.
  unfold parseHash. rewrite params_after_update.
  cbn [get_param]. change (str_eqb (lit "feed") (lit "feed")) with true.
  change (str_eqb (lit "feed") (lit "ref")) with false.
  change (str_eqb (lit "ref") (lit "ref")) with true. cbv iota.
  rewrite parseInt_num_to_str. reflexivity.
Qed.

(** *** The store *)

Lemma loaded_store_eq (title : str) (items : list value) (l : store_of) :
  loaded title (store title items l) = Some items.
Proof.
  induction l as [|[t old] l IH]; simpl.
  - rewrite str_eqb_refl. reflexivity.
  - destruct (str_eqb t title) eqn:E; simpl; rewrite E; [reflexivity | exact IH].
Qed.

Lemma loaded_store_neq (title title' : str) (items : list value) (l : store_of) :
  title <> title' -> loaded title' (store title items l) = loaded title' l.
Proof.
  intros Hne. induction l as [|[t old] l IH]; simpl.
  - apply str_eqb_neq in Hne. rewrite Hne. reflexivity.
  - destruct (str_eqb t title) eqn:E; simpl.
    + apply str_eqb_eq in E. subst t.
      apply str_eqb_neq in Hne. rewrite Hne. reflexivity.
    + destruct (str_eqb t title'); [reflexivity | exact IH].
Qed.

Lemma loaded_store_keeps (title t : str) (items old : list value) (l : store_of) :
  loaded title l = None -> loaded t l = Some old ->
  loaded t (store title items l) = Some old.
Proof.
  intros Hnone Hsome.
  destruct (str_eqb title t) eqn:E.
  - apply str_eqb_eq in E. subst t. congruence.
  - apply str_eqb_neq in E. rewrite (loaded_store_neq _ _ _ _ E). exact Hsome.
Qed.

(** *** [find] and [indexOf] *)

Lemma find_from_spec {A} (p : A -> bool) (xs : list A) (i j : nat) (x : A) :
  find_from p xs i = Some (j, x) ->
  (i <= j)%nat /\ nth_error xs (j - i) = Some x /\ p x = true /\
  forall k y, (k < j - i)%nat -> nth_error xs k = Some y -> p y = false.
Proof.
  revert i. induction xs as [|a xs IH]; intros i; simpl; [discriminate|].
  destruct (p a) eqn:Ha.
  - intros E. inversion E; subst. rewrite Nat.sub_diag.
    repeat split; try assumption; try lia.
  - intros E. destruct (IH (S i) E) as [Hle [Hnth [Hp Hbefore]]].
    split; [lia|].
    replace (j - i)%nat with (S (j - S i)) by lia.
    split; [exact Hnth|]. split; [exact Hp|].
    intros [|k] y Hk Hy.
    + inversion Hy; subst. exact Ha.
    + apply (Hbefore k y); [lia | exact Hy].
Qed.

(** *** [selectedMedia[ref]] *)

Lemma truthy_at_index (xs : list value) (ref : num) :
  nonneg ref = true -> truthy (at_index xs ref) = true ->
  exists z, ref = Int z /\ (0 <= z < len xs)%Z.
Proof.
  intros Hn Ht. destruct ref as [z| |b]; try discriminate.
  exists z. split; [reflexivity|].
  simpl in Hn. apply Z.leb_le in Hn. split; [exact Hn|].
  destruct (Z.ltb_spec z (len xs)) as [|Hge]; [assumption|].
  rewrite PlayerFacts.at_index_outside in Ht; [discriminate|].
  intros i E. inversion E; subst. lia.
Qed.

Lemma show_ref_cases (idx : nat) (selectedMedia : list value) (ref : num)
      (st : state) :
  show_ref idx selectedMedia ref st = st \/
  (exists z, ref = Int z /\ (0 <= z < len selectedMedia)%Z /\
             truthy (item_at selectedMedia z) = true /\
             show_ref idx selectedMedia ref st
             = {| mediaList := mediaList st;
                  index := Z.of_nat idx;
                  selectedMediaList := selectedMedia;
                  currentMediaIndex := Int z;
                  currentMedia := item_at selectedMedia z |}).
Proof.
  unfold show_ref.
  destruct (nonneg ref && truthy (at_index selectedMedia ref)) eqn:E;
    [|left; reflexivity].
  apply andb_prop in E. destruct E as [Hn Ht].
  destruct (truthy_at_index _ _ Hn Ht) as [z [-> Hz]].
  right. exists z. repeat split; try lia. exact Ht.
Qed.

(** A hash never moves the cursor out of the item list.  After
    [handleHashChange] either the state is as it was, or the hash named
    a configured feed (ignoring case) and an index inside that feed's
    item list whose item is truthy: then the menu shows that feed, the
    item list is the feed's stored list, and the cursor and the current
    item are that index and its item.  A feed that the store holds is
    not loaded again, and nothing is removed from the store. *)
Theorem handleHashChange_keeps_cursor_in_list
        (axios_get : str -> result value) (swiperData videoData : value)
        (listofMedia : store_of) (hash : str) (st : state) :
  let after := handleHashChange axios_get swiperData videoData
                                listofMedia hash st in
  (snd after = st \/
   exists idx m z,
     nth_error (mediaList st) idx = Some m /\
     feed_matches (fst (parseHash hash)) m = true /\
     loaded (title m) (fst after) = Some (selectedMediaList (snd after)) /\
     mediaList (snd after) = mediaList st /\
     index (snd after) = Z.of_nat idx /\
     currentMediaIndex (snd after) = Int z /\
     (0 <= z < len (selectedMediaList (snd after)))%Z /\
     currentMedia (snd after) = item_at (selectedMediaList (snd after)) z /\
     truthy (currentMedia (snd after)) = true) /\
  (forall t items, loaded t listofMedia = Some items ->
                   loaded t (fst after) = Some items).
Proof.
  cbv zeta. unfold handleHashChange.
  destruct (parseHash hash) as [feed ref]. cbn [fst].
  destruct (nonempty feed); [|split; [left; reflexivity | auto]].
  destruct (find_from (feed_matches feed) (mediaList st) 0)
    as [[idx selectedFeed]|] eqn:F; [|split; [left; reflexivity | auto]].
  apply find_from_spec in F. destruct F as [_ [Hnth [Hp _]]].
  rewrite Nat.sub_0_r in Hnth.
  destruct (loaded (title selectedFeed) listofMedia) as [selectedMedia|] eqn:L;
    cbn [fst snd].
  - split; [|auto].
    destruct (show_ref_cases idx selectedMedia ref st) as [E | [z [-> [Hz [Ht E]]]]];
      [left; exact E|].
    right. exists idx, selectedFeed, z. rewrite E. cbn.
    repeat split; try assumption; try lia.
  - split.
    + destruct (show_ref_cases idx (loadFeed axios_get swiperData videoData st selectedFeed)
                               ref st) as [E | [z [-> [Hz [Ht E]]]]];
        [left; exact E|].
      right. exists idx, selectedFeed, z. rewrite E. cbn.
      rewrite loaded_store_eq.
      repeat split; try assumption; try lia.
    + intros t items Ht. apply loaded_store_keeps; assumption.
Qed.

Lemma handleHashChange_keeps_cursor_in_list_witness :
  currentMediaIndex
    (snd (handleHashChange two_pictures VNull VNull
            [(lit "NASA", selectedMediaList (two_feeds_three_items 0))]
            (lit "#feed=NASA&ref=2") (two_feeds_three_items 0))) = Int 2 /\
  snd (handleHashChange two_pictures VNull VNull
         [(lit "NASA", selectedMediaList (two_feeds_three_items 0))]
         (lit "#feed=nasa&ref=7") (two_feeds_three_items 0))
  = two_feeds_three_items 0 /\
  (forall t items,
     loaded t [(lit "NASA", selectedMediaList (two_feeds_three_items 0))]
     = Some items ->
     loaded t (fst (handleHashChange two_pictures VNull VNull
                      [(lit "NASA", selectedMediaList (two_feeds_three_items 0))]
                      (lit "#feed=seeclickfix-311&ref=1")
                      (two_feeds_three_items 0))) = Some items).
Proof.
  split; [reflexivity|]. split; [reflexivity|].
  exact (proj2 (handleHashChange_keeps_cursor_in_list two_pictures VNull VNull
                  [(lit "NASA", selectedMediaList (two_feeds_three_items 0))]
                  (lit "#feed=seeclickfix-311&ref=1") (two_feeds_three_items 0))).
Defined.

(** Choosing a feed in the menu and then handling the hash that the
    choice wrote leaves the player where the choice put it: on the
    chosen feed, at its first item.  This needs the key written in the
    hash to match no other configured feed. *)
Theorem selectFeed_then_hash_is_stable
        (axios_get : str -> result value) (swiperData videoData : value)
        (loadedFeeds : list str) (listofMedia : store_of)
        (idx : nat) (m : media) (hash : str) (st : state)
        (l' : store_of) (st' : state) (hash' : str) :
  nth_error (mediaList st) idx = Some m ->
  (forall k y, nth_error (mediaList st) k = Some y ->
               feed_matches (Player.feed m) y = true -> k = idx) ->
  selectFeed axios_get swiperData videoData loadedFeeds listofMedia
             idx m hash st = Ok (l', st', hash') ->
  parseHash hash' = (Player.feed m, Int 0) /\
  currentMediaIndex st' = Int 0 /\
  handleHashChange axios_get swiperData videoData l' hash' st' = (l', st').
Proof.
  intros Hnth Honly Hsel.
  assert (exists items,
             loaded (title m) l' = Some items /\
             st' = {| mediaList := mediaList st;
                      index := Z.of_nat idx;
                      selectedMediaList := items;
                      currentMediaIndex := Int 0;
                      currentMedia := at_index items (Int 0) |} /\
             hash' = updateURLHash (Player.feed m) (Int 0) hash)
    as [items [Hl [Hst Hh]]].
  { unfold selectFeed in Hsel.
    destruct (existsb (str_eqb (toLowerCase (trim (Player.feed m)))) loadedFeeds).
    - destruct (loaded (title m) listofMedia) as [items|] eqn:L; [|discriminate].
      inversion Hsel; subst. exists items. repeat split. exact L.
    - rewrite loaded_store_eq in Hsel. inversion Hsel; subst.
      eexists. repeat split. apply loaded_store_eq. }
  assert (parseHash hash' = (Player.feed m, Int 0)) as Hparse.
  { rewrite Hh. apply parseHash_updateURLHash. }
  split; [exact Hparse|]. split; [rewrite Hst; reflexivity|].
  unfold handleHashChange. rewrite Hparse.
  destruct (nonempty (Player.feed m)); [|reflexivity].
  assert (mediaList st' = mediaList st) as Hml by (rewrite Hst; reflexivity).
  rewrite Hml.
  destruct (find_from (feed_matches (Player.feed m)) (mediaList st) 0)
    as [[j y]|] eqn:F; [|reflexivity].
  apply find_from_spec in F. destruct F as [_ [Hj [Hp _]]].
  rewrite Nat.sub_0_r in Hj.
  pose proof (Honly j y Hj Hp) as ->.
  assert (y = m) as -> by congruence.
  rewrite Hl. f_equal.
  unfold show_ref.
  destruct (nonneg (Int 0) && truthy (at_index items (Int 0))); [|reflexivity].
  rewrite Hst. reflexivity.
Qed.

Lemma selectFeed_then_hash_is_stable_witness :
  handleHashChange two_pictures VNull VNull
    [(lit "NASA", [VObj [(lit "title", VStr (lit "M31"))]])]
    (updateURLHash (lit "nasa") (Int 0) (lit "#feed=nasa&ref=4"))
    {| mediaList := mediaList (two_feeds_three_items 2);
       index := 0;
       selectedMediaList := [VObj [(lit "title", VStr (lit "M31"))]];
       currentMediaIndex := Int 0;
       currentMedia := VObj [(lit "title", VStr (lit "M31"))] |}
  = ([(lit "NASA", [VObj [(lit "title", VStr (lit "M31"))]])],
     {| mediaList := mediaList (two_feeds_three_items 2);
        index := 0;
        selectedMediaList := [VObj [(lit "title", VStr (lit "M31"))]];
        currentMediaIndex := Int 0;
        currentMedia := VObj [(lit "title", VStr (lit "M31"))] |}).
Proof.
  refine (proj2 (proj2 (selectFeed_then_hash_is_stable two_pictures VNull VNull
           [lit "nasa"] [(lit "NASA", [VObj [(lit "title", VStr (lit "M31"))]])]
           0%nat nasa_feed (lit "#feed=nasa&ref=4") (two_feeds_three_items 2)
           _ _ _ _ _ _))).
  - reflexivity.
  - intros k y Hy Hm.
    destruct k as [|[|k]];
      [ reflexivity
      | inversion Hy; subst; discriminate Hm
      | destruct k; discriminate Hy ].
  - reflexivity.
Defined.

(** A hash that the player wrote leads back to where the player is.
    When the cursor is inside the item list, the current item is the
    item at the cursor, the list is the stored list of the feed that the
    menu shows, and that feed's key matches no other configured feed,
    then the hash written for this state names the feed and the cursor,
    and handling that hash changes nothing. *)
Theorem written_hash_leads_back
        (axios_get : str -> result value) (swiperData videoData : value)
        (listofMedia : store_of) (hash hash' : str) (st : state)
        (idx : nat) (m : media) (z : Z) :
  index st = Z.of_nat idx ->
  nth_error (mediaList st) idx = Some m ->
  (forall k y, nth_error (mediaList st) k = Some y ->
               feed_matches (Player.feed m) y = true -> k = idx) ->
  loaded (title m) listofMedia = Some (selectedMediaList st) ->
  currentMediaIndex st = Int z -> (0 <= z < len (selectedMediaList st))%Z ->
  currentMedia st = item_at (selectedMediaList st) z ->
  truthy (currentMedia st) = true ->
  writeHash hash st = Ok hash' ->
  parseHash hash' = (Player.feed m, Int z) /\
  handleHashChange axios_get swiperData videoData listofMedia hash' st
  = (listofMedia, st).
Proof.
  intros Hidx Hnth Honly Hl Hcur Hz Hitem Ht Hw.
  assert (hash' = updateURLHash (Player.feed m) (Int z) hash) as ->.
  { unfold writeHash in Hw. rewrite Ht, Hidx, Nat2Z.id, Hnth, Hcur in Hw.
    destruct (Z.ltb_spec 0 (len (selectedMediaList st))); [|lia].
    destruct (Z.ltb_spec (Z.of_nat idx) 0); [lia|].
    cbn [andb] in Hw. congruence. }
  rewrite parseHash_updateURLHash. split; [reflexivity|].
  unfold handleHashChange. rewrite parseHash_updateURLHash.
  destruct (nonempty (Player.feed m)); [|reflexivity].
  destruct (find_from (feed_matches (Player.feed m)) (mediaList st) 0)
    as [[j y]|] eqn:F; [|reflexivity].
  apply find_from_spec in F. destruct F as [_ [Hj [Hp _]]].
  rewrite Nat.sub_0_r in Hj.
  pose proof (Honly j y Hj Hp) as ->.
  assert (y = m) as -> by congruence.
  rewrite Hl. f_equal. unfold show_ref.
  destruct (nonneg (Int z) && truthy (at_index (selectedMediaList st) (Int z)));
    [|reflexivity].
  destruct st as [ml i sel cur item]. cbn in *. subst. reflexivity.
Qed.

Lemma written_hash_leads_back_witness :
  handleHashChange two_pictures VNull VNull
    [(lit "NASA", selectedMediaList (two_feeds_three_items 0))]
    (updateURLHash (lit "nasa") (Int 0) (lit "#sidetab=settings"))
    (two_feeds_three_items 0)
  = ([(lit "NASA", selectedMediaList (two_feeds_three_items 0))],
     two_feeds_three_items 0).
Proof.
  refine (proj2 (written_hash_leads_back two_pictures VNull VNull
                   [(lit "NASA", selectedMediaList (two_feeds_three_items 0))]
                   (lit "#sidetab=settings")
                   (updateURLHash (lit "nasa") (Int 0) (lit "#sidetab=settings"))
                   (two_feeds_three_items 0) 0%nat nasa_feed 0%Z
                   _ _ _ _ _ _ _ _ _)); try reflexivity.
  - intros k y Hy Hm.
    destruct k as [|[|k]];
      [ reflexivity
      | inversion Hy; subst; discriminate Hm
      | destruct k; discriminate Hy ].
  - cbn. lia.
Defined.

(** *** The first load *)

(** The player starts on the first item of the feed whose key is
    [nasa].  When the request of that feed fails, the item list is the
    one error item, which becomes the current item: the player draws
    the placeholder, and the hash is written for item 0.  Without a
    feed whose key is [nasa] the first load changes nothing. *)
Theorem player_starts_on_the_nasa_feed
        (axios_get : str -> result value) (swiperData videoData : value)
        (listofMedia : store_of) (st : state) :
  (forall m, find (fun m => str_eqb (feed_kind m) (lit "nasa")) (mediaList st)
             = Some m ->
     let after := processMediaList axios_get swiperData videoData
                                   listofMedia st in
     selectedMediaList (snd after) = loadFeed axios_get swiperData videoData st m /\
     loaded (title m) (fst after) = Some (selectedMediaList (snd after)) /\
     currentMedia (snd after) = item_at (selectedMediaList (snd after)) 0 /\
     (forall e, includes (url m) (lit "|") = false ->
        fetch_body axios_get swiperData videoData (mediaList st) m = Throw e ->
        selectedMediaList (snd after) = [error_item m e] /\
        currentMedia (snd after) = error_item m e /\
        Screens.draw (currentMedia (snd after)) = Ok Screens.ErrorPlaceholder)) /\
  (find (fun m => str_eqb (feed_kind m) (lit "nasa")) (mediaList st) = None ->
   processMediaList axios_get swiperData videoData listofMedia st
   = (listofMedia, st)).
Proof.
  split.
  - intros m F. cbv zeta. unfold processMediaList. rewrite F. cbn [fst snd].
    cbn [selectedMediaList currentMedia loaded].
    rewrite str_eqb_refl.
    split; [reflexivity|]. split; [reflexivity|]. split; [reflexivity|].
    intros e Hpipe Hfail. unfold loadFeed.
    rewrite (AggregateFacts.loadFeed_single_failure_aux _ _ _ _ _ _ Hpipe Hfail).
    repeat split.
  - intros F. unfold processMediaList. rewrite F. reflexivity.
Qed.

Lemma player_starts_on_the_nasa_feed_witness :
  currentMedia (snd (processMediaList always_429 VNull VNull []
                       (two_feeds_three_items 0)))
  = error_item nasa_feed error_429 /\
  Screens.draw (currentMedia (snd (processMediaList always_429 VNull VNull []
                                     (two_feeds_three_items 0))))
  = Ok Screens.ErrorPlaceholder.
Proof.
  destruct (proj1 (player_starts_on_the_nasa_feed always_429 VNull VNull []
                     (two_feeds_three_items 0)) nasa_feed eq_refl)
    as [_ [_ [_ H]]].
  destruct (H error_429 eq_refl eq_refl) as [_ [H1 H2]].
  split; [exact H1 | exact H2].
Defined.

End RouterFacts.
(** ** Properties of the feed chosen by hash *)

Module HashGridFacts.

Import Hash HashGrid StrFacts ObjFacts HashFacts.

(** *** The map from feed type to URL *)

Lemma detectFeedType_known (url : str) :
  In (Grid.detectFeedType url) known_types.
Proof.
  unfold Grid.detectFeedType, known_types.
  repeat match goal with
         | |- context [if ?b then _ else _] => destruct b
         end; simpl; tauto.
Qed.

Lemma known_types_no_index (t : str) :
  In t known_types -> FeedMap.is_index t = false.
Proof.
  unfold known_types. simpl.
  intros [<- | [<- | [<- | [<- | [<- | []]]]]]; reflexivity.
Qed.

Lemma known_types_nonempty (t : str) : In t known_types -> nonempty t = true.
Proof.
  unfold known_types. simpl.
  intros [<- | [<- | [<- | [<- | [<- | []]]]]]; reflexivity.
Qed.

(** No feed type is the start of another. *)
Lemma known_types_prefix (a b : str) :
  In a known_types -> In b known_types -> startsWith a b = true -> b = a.
Proof.
  unfold known_types. simpl.
  intros [<- | [<- | [<- | [<- | [<- | []]]]]]
         [<- | [<- | [<- | [<- | [<- | []]]]]] H;
    first [ reflexivity | discriminate H ].
Qed.

Lemma buildFeedMap_writes_types (feedUrls : str) :
  buildFeedMap feedUrls
  = FeedMap.write_all Grid.detectFeedType VStr (trimmed_segments feedUrls) [].
Proof.
  unfold buildFeedMap, trimmed_segments, FeedMap.write_all.
  generalize (@nil (str * value)).
  induction (split "|"%char feedUrls) as [|u us IH]; intros acc; simpl;
    [reflexivity|].
  apply IH.
Qed.

Lemma lookup_map_find {A} (kf : A -> str) (vf : A -> value) (xs : list A)
      (k : str) :
  lookup k (map (fun x => (kf x, vf x)) xs)
  = option_map vf (find (fun x => str_eqb (kf x) k) xs).
Proof.
  induction xs as [|x xs IH]; simpl; [reflexivity|].
  destruct (str_eqb (kf x) k); [reflexivity | exact IH].
Qed.

Lemma buildFeedMap_keys (feedUrls : str) (t : str) :
  In t (map fst (buildFeedMap feedUrls))
  <-> In t (map Grid.detectFeedType (trimmed_segments feedUrls)).
Proof.
  rewrite buildFeedMap_writes_types, FeedMapFacts.write_all_keys_iff.
  simpl. tauto.
Qed.

Lemma feedTypes_keys (feedUrls : str) :
  feedTypes feedUrls = map fst (buildFeedMap feedUrls).
Proof.
  unfold feedTypes. apply FeedMapFacts.Object_keys_no_index.
  intros k Hk. apply known_types_no_index.
  apply buildFeedMap_keys in Hk. apply in_map_iff in Hk.
  destruct Hk as [u [<- _]]. apply detectFeedType_known.
Qed.

Lemma feedTypes_known (feedUrls : str) (t : str) :
  In t (feedTypes feedUrls) -> In t known_types.
Proof.
  rewrite feedTypes_keys, buildFeedMap_keys, in_map_iff.
  intros [u [<- _]]. apply detectFeedType_known.
Qed.

Lemma feedTypes_cons (feedUrls : str) :
  exists d ds, feedTypes feedUrls = d :: ds.
Proof.
  destruct (feedTypes feedUrls) as [|d ds] eqn:E; [|exists d, ds; reflexivity].
  exfalso.
  destruct (trimmed_segments feedUrls) as [|u us] eqn:S.
  - unfold trimmed_segments in S. apply map_eq_nil in S.
    exact (split_nonempty _ _ S).
  - assert (In (Grid.detectFeedType u) (feedTypes feedUrls)) as H.
    { rewrite feedTypes_keys, buildFeedMap_keys, S. left. reflexivity. }
    rewrite E in H. exact H.
Qed.

(** The map from feed type to URL of [FeedPlayer.tsx] holds one URL per
    detected type: its keys are the types of the (trimmed) segments of
    the specification string, each once, so there are between one and
    five of them, and the URL kept for a type is the last segment of
    that type. *)
Theorem buildFeedMap_keeps_last_url_of_each_type (feedUrls : str) :
  feedTypes feedUrls <> [] /\
  NoDup (feedTypes feedUrls) /\
  length (feedTypes feedUrls) <= 5 /\
  (forall t, In t (feedTypes feedUrls)
             <-> exists u, In u (trimmed_segments feedUrls)
                           /\ Grid.detectFeedType u = t) /\
  (forall t, lookup t (buildFeedMap feedUrls)
             = option_map VStr
                 (find (fun u => str_eqb (Grid.detectFeedType u) t)
                       (rev (trimmed_segments feedUrls)))).
Proof.
  assert (NoDup (feedTypes feedUrls)) as Hnd.
  { rewrite feedTypes_keys, buildFeedMap_writes_types.
    apply FeedMapFacts.write_all_nodup. constructor. }
  assert (forall t, In t (feedTypes feedUrls)
                    <-> exists u, In u (trimmed_segments feedUrls)
                                  /\ Grid.detectFeedType u = t) as Hin.
  { intros t. rewrite feedTypes_keys, buildFeedMap_keys, in_map_iff.
    split; intros [u [H1 H2]]; exists u; tauto. }
  repeat split.
  - destruct (feedTypes_cons feedUrls) as [d [ds E]]. rewrite E. discriminate.
  - exact Hnd.
  - change 5 with (length known_types).
    apply NoDup_incl_length; [exact Hnd|].
    intros t. apply feedTypes_known.
  - apply Hin.
  - apply Hin.
  - intros t. rewrite buildFeedMap_writes_types. unfold FeedMap.write_all.
    rewrite lookup_fold_set, <- map_rev, lookup_map_find.
    destruct (find _ _); reflexivity.
Qed.

Lemma buildFeedMap_keeps_last_url_of_each_type_witness :
  feedTypes (lit "https://api.nasa.gov/a|https://bsky.app/x|https://api.nasa.gov/b")
  = [lit "nasa"; lit "bsky"] /\
  lookup (lit "nasa")
         (buildFeedMap (lit "https://api.nasa.gov/a|https://bsky.app/x|https://api.nasa.gov/b"))
  = Some (VStr (lit "https://api.nasa.gov/b")) /\
  feedTypes [] = [lit "default"] /\
  length (feedTypes (lit "https://api.nasa.gov/a|https://bsky.app/x|https://api.nasa.gov/b"))
  <= 5.
Proof.
  split; [reflexivity|]. split; [reflexivity|]. split; [reflexivity|].
  exact (proj1 (proj2 (proj2 (buildFeedMap_keeps_last_url_of_each_type
     (lit "https://api.nasa.gov/a|https://bsky.app/x|https://api.nasa.gov/b"))))).
Defined.

(** *** Reading the hash that [setFeedHash] wrote *)

Lemma names_feed_setFeedHash (t : str) : names_feed (setFeedHash t) = true.
Proof.
  unfold names_feed, setFeedHash.
  change (lit "#feed=" ++ encodeURIComponent t)
    with ("#"%char :: lit "feed=" ++ encodeURIComponent t).
  cbn [nonempty andb]. rewrite includes_cons.
  pose proof (includes_app_r [] (lit "feed=") (encodeURIComponent t)) as H.
  cbn [app] in H. rewrite H. apply orb_true_r.
Qed.

Lemma feed_param_encoded (t : str) :
  feed_param (lit "feed=" ++ encodeURIComponent t) = Some t.
Proof.
  unfold feed_param. rewrite URLSearchParams_feed.
  assert (~ In "&"%char (lit "feed=" ++ encodeURIComponent t)) as HA.
  { apply lacks_not_in. rewrite lacks_app, encodeURIComponent_lacks. reflexivity. }
  rewrite (split_no_sep _ _ HA), filter_nonempty_cons by reflexivity.
  cbn [map filter]. rewrite parse_feed_pair, decode_encodeURIComponent.
  cbn [get_param]. change (str_eqb (lit "feed") (lit "feed")) with true.
  reflexivity.
Qed.

Lemma feed_param_setFeedHash (t : str) :
  feed_param (strip_hash (setFeedHash t)) = Some t.
Proof. apply feed_param_encoded. Qed.

Lemma member_in (x : str) (xs : list str) : member x xs = true <-> In x xs.
Proof.
  unfold member. rewrite existsb_exists. split.
  - intros [y [Hy E]]. apply str_eqb_eq in E. subst y. exact Hy.
  - intros H. exists x. split; [exact H | apply str_eqb_refl].
Qed.

Lemma find_prefix_known (types : list str) (t : str) :
  (forall x, In x types -> In x known_types) ->
  In t types ->
  find (fun type => startsWith t type) types = Some t.
Proof.
  intros Hknown Ht. induction types as [|x xs IH]; [destruct Ht|].
  simpl. destruct (startsWith t x) eqn:E.
  - f_equal. apply known_types_prefix; try assumption.
    + apply Hknown. exact Ht.
    + apply Hknown. left. reflexivity.
  - destruct Ht as [-> | Ht].
    + assert (startsWith t t = true) as R.
      { apply startsWith_iff. exists []. rewrite app_nil_r. reflexivity. }
      congruence.
    + apply IH; [|exact Ht]. intros y Hy. apply Hknown. right. exact Hy.
Qed.

(** Choosing a configured feed type in the select of [FeedPlayer.tsx]
    makes it the active feed: the hash that [setFeedHash] writes for it
    is read back as that type by the handler of the hash change, which
    takes the first type that the parameter starts with (no type is the
    start of another). *)
Theorem choosing_a_type_makes_it_active (feedUrls t : str)
        (activeFeed : option str) :
  In t (feedTypes feedUrls) ->
  getFeedFromHash (feedTypes feedUrls) (setFeedHash t) = Some t /\
  onHashChange (feedTypes feedUrls) (setFeedHash t) activeFeed = Some t.
Proof.
  intros Ht.
  pose proof (known_types_nonempty t (feedTypes_known _ _ Ht)) as Hne.
  pose proof (proj2 (member_in t (feedTypes feedUrls)) Ht) as Hmem.
  pose proof (feed_param_setFeedHash t) as P1.
  assert (getFeedFromHash (feedTypes feedUrls) (setFeedHash t) = Some t) as G.
  { unfold getFeedFromHash. rewrite names_feed_setFeedHash, P1, Hne.
    rewrite (find_prefix_known _ t (feedTypes_known feedUrls) Ht), Hne.
    reflexivity. }
  split; [exact G|].
  unfold onHashChange. rewrite G, Hne, Hmem. reflexivity.
Qed.

Lemma choosing_a_type_makes_it_active_witness :
  onHashChange
    (feedTypes (lit "https://api.nasa.gov/planetary/apod|https://bsky.app/profile/x/rss"))
    (setFeedHash (lit "bsky")) (Some (lit "nasa"))
  = Some (lit "bsky").
Proof.
  refine (proj2 (choosing_a_type_makes_it_active
                   (lit "https://api.nasa.gov/planetary/apod|https://bsky.app/profile/x/rss")
                   (lit "bsky") (Some (lit "nasa")) _)).
  vm_compute. right. left. reflexivity.
Defined.

Lemma find_some_in {A} (p : A -> bool) (xs : list A) (x : A) :
  find p xs = Some x -> In x xs /\ p x = true.
Proof. apply find_some. Qed.

Lemma getFeedFromHash_in (types : list str) (hash t : str) :
  getFeedFromHash types hash = Some t -> In t types /\ nonempty t = true.
Proof.
  unfold getFeedFromHash. destruct (names_feed hash); [|discriminate].
  destruct (feed_param (strip_hash hash)) as [p|]; [|discriminate].
  destruct (nonempty p); [|discriminate].
  destruct (find (fun type => startsWith p type) types) as [m|] eqn:F;
    [|discriminate].
  destruct (nonempty m) eqn:N; [|discriminate].
  intros E. inversion E; subst. split; [|exact N].
  apply (find_some_in _ _ _ F).
Qed.

(** In [FeedPlayer.tsx] the active feed is always a configured type
    once the component has mounted: the mount effect takes the type
    named by the hash when it is configured and the first type otherwise
    (then it also writes the hash), and a later hash that names no
    configured type leaves the active feed as it is. *)
Theorem active_feed_is_a_configured_type (feedUrls hash : str)
        (activeFeed : option str) :
  (exists t, fst (onMount (feedTypes feedUrls) hash activeFeed) = Some t /\
             In t (feedTypes feedUrls) /\
             (snd (onMount (feedTypes feedUrls) hash activeFeed) = hash \/
              snd (onMount (feedTypes feedUrls) hash activeFeed) = setFeedHash t)) /\
  (forall t, activeFeed = Some t -> In t (feedTypes feedUrls) ->
             exists t', onHashChange (feedTypes feedUrls) hash activeFeed = Some t'
                        /\ In t' (feedTypes feedUrls)).
Proof.
  destruct (feedTypes_cons feedUrls) as [d [ds E]].
  split.
  - unfold onMount. rewrite E.
    destruct (getFeedFromHash (d :: ds) hash) as [f|] eqn:G; cbn [given].
    + destruct (getFeedFromHash_in _ _ _ G) as [Hin Hne]. rewrite Hne.
      exists f. cbn [fst snd]. repeat split; [exact Hin | left; reflexivity].
    + exists d. cbn [fst snd]. repeat split; [left; reflexivity | right; reflexivity].
  - intros t -> Ht. unfold onHashChange.
    destruct (getFeedFromHash (feedTypes feedUrls) hash) as [f|];
      [|exists t; split; [reflexivity | exact Ht]].
    destruct (nonempty f && member f (feedTypes feedUrls)) eqn:C;
      [|exists t; split; [reflexivity | exact Ht]].
    apply andb_prop in C. destruct C as [_ C]. apply member_in in C.
    exists f. split; [reflexivity | exact C].
Qed.

Lemma active_feed_is_a_configured_type_witness :
  onMount (feedTypes (lit "https://api.nasa.gov/a|https://bsky.app/x"))
          (lit "#feed=bsky-profile") None
  = (Some (lit "bsky"), lit "#feed=bsky-profile") /\
  onMount (feedTypes (lit "https://api.nasa.gov/a|https://bsky.app/x"))
          (lit "#feed=weather") None
  = (Some (lit "nasa"), lit "#feed=nasa") /\
  exists t,
    fst (onMount (feedTypes (lit "https://api.nasa.gov/a|https://bsky.app/x"))
                 (lit "#feed=bsky-profile") None) = Some t /\
    In t (feedTypes (lit "https://api.nasa.gov/a|https://bsky.app/x")).
Proof.
  split; [reflexivity|]. split; [reflexivity|].
  destruct (proj1 (active_feed_is_a_configured_type
                     (lit "https://api.nasa.gov/a|https://bsky.app/x")
                     (lit "#feed=bsky-profile") None))
    as [t [E [Hin _]]].
  exists t. split; [exact E | exact Hin].
Defined.

(** *** The grid that names feeds by key *)

Lemma lookup_in_keys (k : str) (v : value) (m : list (str * value)) :
  lookup k m = Some v -> In k (map fst m).
Proof.
  induction m as [|[k' v'] m IH]; simpl; [discriminate|].
  destruct (str_eqb k' k) eqn:E.
  - apply str_eqb_eq in E. intros _. left. exact E.
  - intros H. right. apply IH. exact H.
Qed.

Lemma getFeedFromHash_key_holds (feedMap : list (str * value)) (hash k : str) :
  getFeedFromHash_key feedMap hash = Some k ->
  nonempty k = true /\ holds feedMap k = true.
Proof.
  unfold getFeedFromHash_key.
  destruct (names_feed hash); [|discriminate].
  destruct (feed_param (strip_hash hash)) as [p|]; [|discriminate].
  destruct (nonempty p && holds feedMap p) eqn:C; [|discriminate].
  intros E. inversion E; subst. apply andb_prop in C. exact C.
Qed.

(** In the grid that names feeds by the key of a [key=url] entry,
    choosing a key makes it the active feed when the key is not empty
    and its URL is not empty; and a hash only ever selects a name that
    the map owns with a non-empty URL, or a name that every object
    inherits. *)
Theorem choosing_a_key_makes_it_active
        (feedMap : list (str * value)) (k : str) (v : value)
        (activeFeed : option str) :
  k <> [] -> lookup k feedMap = Some v -> truthy v = true ->
  getFeedFromHash_key feedMap (setFeedHash k) = Some k /\
  onHashChange_key feedMap (setFeedHash k) activeFeed = Some k /\
  (forall hash k', getFeedFromHash_key feedMap hash = Some k' ->
                   inherited k' = false ->
                   In k' (FeedMap.Object_keys feedMap) /\
                   exists v', lookup k' feedMap = Some v' /\ truthy v' = true).
Proof.
  intros Hk Hl Hv.
  assert (nonempty k = true) as Hne by (destruct k; [congruence | reflexivity]).
  assert (getFeedFromHash_key feedMap (setFeedHash k) = Some k) as G.
  { unfold getFeedFromHash_key.
    rewrite names_feed_setFeedHash, (feed_param_setFeedHash k), Hne.
    unfold holds. rewrite Hl, Hv. reflexivity. }
  split; [exact G|]. split.
  - unfold onHashChange_key. rewrite G. cbn [given]. rewrite Hne. reflexivity.
  - intros hash k' H Hinh.
    destruct (getFeedFromHash_key_holds _ _ _ H) as [_ C]. unfold holds in C.
    destruct (lookup k' feedMap) as [v'|] eqn:L; [|congruence].
    split.
    + apply FeedMapFacts.Object_keys_in. exact (lookup_in_keys _ _ _ L).
    + exists v'. split; [reflexivity | exact C].
Qed.

Lemma choosing_a_key_makes_it_active_witness :
  onHashChange_key (FeedMap.buildFeedMap FeedMap.spec_of_scenario)
                   (setFeedHash (lit "seeclickfix")) (Some (lit "nasa"))
  = Some (lit "seeclickfix").
Proof.
  refine (proj1 (proj2 (choosing_a_key_makes_it_active
                   (FeedMap.buildFeedMap FeedMap.spec_of_scenario)
                   (lit "seeclickfix") (VStr (lit "https://y/issues"))
                   (Some (lit "nasa")) _ _ _))).
  - discriminate.
  - reflexivity.
  - reflexivity.
Defined.

End HashGridFacts.
(** ** Properties of the card grid by coordinates *)

Module CoordGridFacts.

Import Hash CoordGrid StrFacts HashFacts.

Lemma form_char_coord (c : ascii) : coord_char c = true -> form_char c = [c].
Proof. each_ascii c; intros H; first [ reflexivity | discriminate H ]. Qed.

Lemma form_encode_coord (s : str) :
  forallb coord_char s = true -> form_encode s = s.
Proof.
  induction s as [|c s IH]; [reflexivity|].
  intros H. cbn [forallb] in H. apply andb_prop in H. destruct H as [Hc Hs].
  change (form_encode (c :: s)) with (form_char c ++ form_encode s).
  rewrite (form_char_coord c Hc), (IH Hs). reflexivity.
Qed.

Lemma take_class_coord (s : str) : forallb coord_char (take_class s) = true.
Proof.
  induction s as [|c s IH]; [reflexivity|]. simpl.
  destruct (coord_char c) eqn:E; [|reflexivity].
  simpl. rewrite E. exact IH.
Qed.

Lemma exec_coord_unfold (name s : str) :
  exec_coord name s =
  if startsWith s name then
    match take_class (skipn (length name) s) with
    | [] => match s with [] => None | _ :: s' => exec_coord name s' end
    | run => Some run
    end
  else match s with [] => None | _ :: s' => exec_coord name s' end.
Proof. destruct s; reflexivity. Qed.

Lemma exec_coord_run (name s run : str) :
  exec_coord name s = Some run ->
  run <> [] /\ forallb coord_char run = true.
Proof.
  assert (forall t d r, take_class t = d :: r ->
                        d :: r <> [] /\ forallb coord_char (d :: r) = true) as K.
  { intros t d r T. split; [discriminate|].
    rewrite <- T. apply take_class_coord. }
  induction s as [|c s IH]; rewrite exec_coord_unfold.
  - destruct (startsWith [] name); [|discriminate].
    destruct (take_class (skipn (length name) [])) as [|d r] eqn:T;
      [discriminate|].
    intros E. inversion E; subst. exact (K _ _ _ T).
  - destruct (startsWith (c :: s) name); [|exact IH].
    destruct (take_class (skipn (length name) (c :: s))) as [|d r] eqn:T;
      [exact IH|].
    intros E. inversion E; subst. exact (K _ _ _ T).
Qed.

Lemma issues_url_text (lat lng : str) :
  forallb coord_char lat = true -> forallb coord_char lng = true ->
  issues_url lat lng
  = lit "https://seeclickfix.com/api/v2/issues?lat=" ++ lat
    ++ lit "&lng=" ++ lng ++ lit "&per_page=100".
Proof.
  intros Hlat Hlng. unfold issues_url, toString.
  replace (set_param (lit "per_page") (lit "100")
             (set_param (lit "lng") lng (set_param (lit "lat") lat [])))
    with [(lit "lat", lat); (lit "lng", lng); (lit "per_page", lit "100")]
    by reflexivity.
  cbn [map fst snd join].
  rewrite (form_encode_coord lat Hlat), (form_encode_coord lng Hlng).
  change (form_encode (lit "lat")) with (lit "lat").
  change (form_encode (lit "lng")) with (lit "lng").
  change (form_encode (lit "per_page")) with (lit "per_page").
  change (form_encode (lit "100")) with (lit "100").
  repeat rewrite <- app_assoc. reflexivity.
Qed.

(** Every request of the grid by coordinates has one form: the issues
    endpoint with the latitude and the longitude read from the
    configured part (each a non-empty run of digits, dots and minus
    signs) and [per_page=100].  Whatever else the configured URL holds
    (host prefix, other parameters, its own [per_page]) is not sent. *)
Theorem request_urls_have_one_form (feedUrls : option str) (u : str) :
  In u (request_urls feedUrls) ->
  exists lat lng,
    u = lit "https://seeclickfix.com/api/v2/issues?lat=" ++ lat
        ++ lit "&lng=" ++ lng ++ lit "&per_page=100" /\
    lat <> [] /\ forallb coord_char lat = true /\
    lng <> [] /\ forallb coord_char lng = true.
Proof.
  unfold request_urls. intros H. apply in_flat_map in H.
  destruct H as [part [_ H]]. unfold request_of in H.
  destruct (negb (nonempty (trim part))); [destruct H|].
  destruct (negb (includes (trim part) (lit "seeclickfix.com/api/v2/issues")));
    [destruct H|].
  destruct (exec_coord (lit "lat=") (trim part)) as [lat|] eqn:Elat;
    [|destruct H].
  destruct (exec_coord (lit "lng=") (trim part)) as [lng|] eqn:Elng;
    [|destruct H].
  destruct H as [<- | []].
  destruct (exec_coord_run _ _ _ Elat) as [N1 C1].
  destruct (exec_coord_run _ _ _ Elng) as [N2 C2].
  exists lat, lng. split; [apply issues_url_text; assumption|].
  repeat split; assumption.
Qed.

Lemma request_urls_have_one_form_witness :
  request_urls (Some open_issues_url)
    = [lit "https://seeclickfix.com/api/v2/issues?lat=41.307&lng=-72.925&per_page=100"] /\
  exists lat lng,
    lit "https://seeclickfix.com/api/v2/issues?lat=41.307&lng=-72.925&per_page=100"
    = lit "https://seeclickfix.com/api/v2/issues?lat=" ++ lat
      ++ lit "&lng=" ++ lng ++ lit "&per_page=100" /\
    lat <> [] /\ forallb coord_char lat = true /\
    lng <> [] /\ forallb coord_char lng = true.
Proof.
  split; [reflexivity|].
  apply (request_urls_have_one_form (Some open_issues_url)).
  left. reflexivity.
Defined.

(** *** The items shown *)

Lemma filterM_kept {A} (p : A -> result bool) (xs ys : list A) :
  Loader.filterM p xs = Ok ys ->
  Forall (fun y => p y = Ok true) ys /\ length ys <= length xs.
Proof.
  revert ys. induction xs as [|x xs IH]; simpl; intros ys.
  - intros E. inversion E; subst. split; [constructor | reflexivity].
  - destruct (p x) as [b|e] eqn:P; [|discriminate]. cbn [bind].
    destruct (Loader.filterM p xs) as [zs|e]; [|discriminate]. cbn [bind].
    destruct (IH zs eq_refl) as [F L].
    intros E. inversion E; subst.
    destruct b; simpl; split; try lia; try assumption.
    constructor; assumption.
Qed.

Lemma issues_with_image_kept (axios_get : str -> result value)
      (apiUrl : str) (data : list value) :
  issues_with_image axios_get apiUrl = Ok data ->
  Forall (fun item => CardGrid.has_image item = Ok true) data /\
  length data <= 5.
Proof.
  unfold issues_with_image.
  destruct (axios_get apiUrl) as [d|e]; [|discriminate]. cbn [bind].
  destruct (get d (lit "issues")) as [i|e]; [|discriminate]. cbn [bind].
  destruct (length match i with VArr xs => xs | _ => [] end =? 0)%nat.
  - intros E. inversion E; subst. split; [constructor | simpl; lia].
  - destruct (Loader.filterM CardGrid.has_image
                match i with VArr xs => xs | _ => [] end) as [ys|e] eqn:F;
      [|discriminate]. cbn [bind].
    intros E. assert (firstn 5 ys = data) as <- by congruence.
    destruct (filterM_kept _ _ _ F) as [K _]. split.
    + apply CardGridFacts.Forall_firstn. exact K.
    + rewrite length_firstn. lia.
Qed.

Lemma fold_step_kept (axios_get : str -> result value)
      (urls : list str) (acc : list value) :
  Forall (fun item => CardGrid.has_image item = Ok true) acc ->
  Forall (fun item => CardGrid.has_image item = Ok true)
         (fold_left (step axios_get) urls acc) /\
  length (fold_left (step axios_get) urls acc)
    <= length acc + 5 * length urls.
Proof.
  revert acc. induction urls as [|u us IH]; intros acc Hacc; simpl.
  - split; [exact Hacc | lia].
  - unfold step at 2 4.
    destruct (issues_with_image axios_get u) as [data|e] eqn:I.
    + destruct (issues_with_image_kept _ _ _ I) as [K L].
      destruct (IH (acc ++ data)) as [F N].
      { apply Forall_app. split; assumption. }
      split; [exact F|]. rewrite length_app in N. lia.
    + destruct (IH acc Hacc) as [F N]. split; [exact F | lia].
Qed.

(** The grid by coordinates shows an issue only if it has an image, and
    at most five issues per request; a request that fails, or answers
    without issues, is passed over.  When no request can be built, or
    no issue with an image is left, the grid shows no item and one of
    its two error texts; loading always ends. *)
Theorem fetchFeeds_shows_issues_with_images_or_an_error
        (axios_get : str -> result value) (feedUrls : option str) :
  let v := fetchFeeds axios_get feedUrls in
  loading v = false /\
  ((error v = None /\ items v <> [] /\
    length (items v) <= 5 * length (request_urls feedUrls) /\
    Forall (fun item => CardGrid.has_image item = Ok true) (items v)) \/
   (items v = [] /\ request_urls feedUrls = [] /\
    error v = Some no_urls_message) \/
   (items v = [] /\ request_urls feedUrls <> [] /\
    error v = Some no_items_message)).
Proof.
  cbv zeta. unfold fetchFeeds.
  destruct (request_urls feedUrls) as [|u us] eqn:U.
  - cbn. split; [reflexivity|]. right. left. repeat split.
  - cbn [length Nat.eqb].
    destruct (fold_step_kept axios_get (u :: us) [] (Forall_nil _)) as [F N].
    destruct (fold_left (step axios_get) (u :: us) []) as [|x xs] eqn:A.
    + cbn. split; [reflexivity|]. right. right.
      repeat split; discriminate.
    + cbn [length Nat.eqb items loading error].
      split; [reflexivity|]. left.
      cbn [length] in N |- *.
      repeat split; try assumption; try discriminate; try lia.
Qed.

Lemma fetchFeeds_shows_issues_with_images_or_an_error_witness :
  length (items (fetchFeeds CardGrid.seven_issue_response (Some open_issues_url)))
  = 5 /\
  error (fetchFeeds Grid.network_down (Some open_issues_url))
  = Some no_items_message /\
  error (fetchFeeds CardGrid.seven_issue_response (Some (lit "https://example.org/")))
  = Some no_urls_message /\
  loading (fetchFeeds CardGrid.seven_issue_response (Some open_issues_url)) = false.
Proof.
  split; [reflexivity|]. split; [reflexivity|]. split; [reflexivity|].
  exact (proj1 (fetchFeeds_shows_issues_with_images_or_an_error
                  CardGrid.seven_issue_response (Some open_issues_url))).
Defined.

End CoordGridFacts.
(** ** Properties of the cards of the plain card grid *)

Module CardsFacts.

Import Grid Cards StrFacts GridFacts.

Lemma fold_step_contributions (getItem : str -> option str)
      (axios_get : str -> result value) (urls : list str) (acc : list value) :
  fold_left (CardGrid.step getItem axios_get) urls acc
  = acc ++ concat (map (contribution getItem axios_get) urls).
Proof.
  revert acc. induction urls as [|u us IH]; intros acc; simpl.
  - rewrite app_nil_r. reflexivity.
  - rewrite IH. unfold CardGrid.step, contribution.
    destruct (CardGrid.fetch_url getItem axios_get u);
      rewrite <- app_assoc; reflexivity.
Qed.

(** In the plain card grid a source URL that fails never hides the
    items of the other URLs: the items are those of each URL in turn,
    with one placeholder in the place of a URL that failed, and the
    placeholder is drawn as a card titled "Failed to load feed" that
    carries the error message and no picture. *)
Theorem failed_url_shows_as_one_card
        (getItem : str -> option str) (axios_get : str -> result value)
        (feedUrls : str) :
  CardGrid.fetchFeeds getItem axios_get feedUrls
  = concat (map (contribution getItem axios_get) (source_urls feedUrls)) /\
  (forall u e, CardGrid.fetch_url getItem axios_get u = Throw e ->
     contribution getItem axios_get u = [CardGrid.failed_item e] /\
     extractFields (CardGrid.failed_item e)
     = Ok (VObj [ (lit "title", VStr (lit "Failed to load feed"));
                  (lit "description", VStr (message e));
                  (lit "image", VStr []);
                  (lit "date", VStr []) ]) /\
     forall card, extractFields (CardGrid.failed_item e) = Ok card ->
                  shows_image card = false).
Proof.
  split.
  - unfold CardGrid.fetchFeeds, source_urls.
    apply (fold_step_contributions getItem axios_get _ []).
  - intros u e Hfail.
    assert (extractFields (CardGrid.failed_item e)
            = Ok (VObj [ (lit "title", VStr (lit "Failed to load feed"));
                         (lit "description", VStr (message e));
                         (lit "image", VStr []);
                         (lit "date", VStr []) ])) as E.
    { unfold extractFields, CardGrid.failed_item, or_else_get.
      destruct (message e) as [|c m]; reflexivity. }
    split; [unfold contribution; rewrite Hfail; reflexivity|].
    split; [exact E|].
    intros card Hc. rewrite E in Hc. inversion Hc; subst. reflexivity.
Qed.

Lemma failed_url_shows_as_one_card_witness :
  CardGrid.fetchFeeds CardGrid.no_storage network_down
    (lit "https://a.example/feed.json|https://b.example/feed.json")
  = [ CardGrid.failed_item {| response := None; message := lit "Network Error" |};
      CardGrid.failed_item {| response := None; message := lit "Network Error" |} ] /\
  extractFields
    (CardGrid.failed_item {| response := None; message := lit "Network Error" |})
  = Ok (VObj [ (lit "title", VStr (lit "Failed to load feed"));
               (lit "description", VStr (lit "Network Error"));
               (lit "image", VStr []);
               (lit "date", VStr []) ]).
Proof.
  split; [reflexivity|].
  exact (proj1 (proj2 (proj2 (failed_url_shows_as_one_card
                                CardGrid.no_storage network_down
                                (lit "https://a.example/feed.json"))
                             (lit "https://a.example/feed.json")
                             {| response := None; message := lit "Network Error" |}
                             eq_refl))).
Defined.

Lemma truthy_or (a b : value) : truthy a = true -> or_ a b = a.
Proof. intros H. unfold or_. rewrite H. reflexivity. Qed.

(** Every issue that the filter of the plain card grid keeps is drawn
    with a picture: for an item whose [media] holds an image, the card
    fields are computed without an exception and the card's image is
    not empty. *)
Theorem kept_issue_is_drawn_with_a_picture (item : value) :
  nullish item = false -> CardGrid.has_imageb item = true ->
  exists card, extractFields item = Ok card /\ shows_image card = true.
Proof.
  intros Hn Hi. unfold CardGrid.has_imageb in Hi.
  apply andb_prop in Hi. destruct Hi as [Hm Hpic].
  pose proof (CardGridFacts.truthy_not_nullish _ Hm) as Hmn.
  unfold extractFields.
  repeat (first [ rewrite (get_read item _ Hn)
                | rewrite (or_else_get_read _ item _ Hn) ]; cbn [bind]).
  destruct (truthy (read item (lit "image_url"))) eqn:Eu.
  - cbn [bind].
    repeat (first [ rewrite (get_read item _ Hn)
                  | rewrite (or_else_get_read _ item _ Hn) ]; cbn [bind]).
    eexists. split; [reflexivity|].
    unfold shows_image. cbn. rewrite (truthy_or _ _ Eu). exact Eu.
  - rewrite Hm.
    rewrite (get_read _ _ Hmn). cbn [bind].
    rewrite (or_else_get_read _ _ _ Hmn). cbn [bind].
    assert (truthy (or_ (read (read item (lit "media")) (lit "image_full"))
                        (read (read item (lit "media"))
                              (lit "representative_image_url"))) = true) as Hp.
    { unfold or_.
      destruct (truthy (read (read item (lit "media")) (lit "image_full"))) eqn:F;
        [exact F|]. exact Hpic. }
    unfold or_else_get at 1. rewrite Hp. cbn [bind].
    repeat (first [ rewrite (get_read item _ Hn)
                  | rewrite (or_else_get_read _ item _ Hn) ]; cbn [bind]).
    eexists. split; [reflexivity|].
    unfold shows_image. cbn. rewrite (truthy_or _ _ Hp). exact Hp.
Qed.

Lemma kept_issue_is_drawn_with_a_picture_witness :
  exists card,
    extractFields (CardGrid.issue 1 (VStr (lit "https://img/1.jpg"))) = Ok card /\
    shows_image card = true.
Proof.
  apply (kept_issue_is_drawn_with_a_picture
           (CardGrid.issue 1 (VStr (lit "https://img/1.jpg")))); reflexivity.
Defined.

End CardsFacts.
(** ** Properties of the feed kinds of the player *)

Module FeedKindsFacts.

Import Player Loader Grid FeedKinds StrFacts GridFacts.

(** *** Film entries *)

Lemma film_photo_read (item : value) (i : nat) :
  nullish item = false ->
  film_photo item i
  = Ok (if has_photo item i then [photo_card item i] else []).
Proof.
  intros Hn. unfold film_photo, has_photo, photo_card, nth_name.
  rewrite (get_read item _ Hn). cbn [bind].
  destruct (truthy (read item (lit "photo" ++ num_to_str (Int (Z.of_nat i)))));
    [|reflexivity].
  rewrite !(get_read item _ Hn). reflexivity.
Qed.

Lemma mapM_film_photo (item : value) (ns : list nat) :
  nullish item = false ->
  mapM (film_photo item) ns
  = Ok (map (fun i => if has_photo item i then [photo_card item i] else []) ns).
Proof.
  intros Hn. induction ns as [|n ns IH]; [reflexivity|].
  cbn [mapM map]. rewrite (film_photo_read item n Hn). cbn [bind].
  rewrite IH. reflexivity.
Qed.

Lemma concat_map_filter {A B} (p : A -> bool) (f : A -> B) (xs : list A) :
  concat (map (fun x => if p x then [f x] else []) xs) = map f (filter p xs).
Proof.
  induction xs as [|x xs IH]; [reflexivity|]. simpl.
  destruct (p x); simpl; rewrite IH; reflexivity.
Qed.

Lemma film_item_photos (item : value) :
  nullish item = false -> film_item item = Ok (photos_of item).
Proof.
  intros Hn. unfold film_item, photos_of.
  rewrite (mapM_film_photo item _ Hn). cbn [bind].
  rewrite concat_map_filter. reflexivity.
Qed.

Lemma mapM_film_item (entries : list value) :
  Forall (fun item => nullish item = false) entries ->
  mapM film_item entries = Ok (map photos_of entries).
Proof.
  induction 1 as [|item entries Hn _ IH]; [reflexivity|].
  cbn [mapM map]. rewrite (film_item_photos item Hn). cbn [bind].
  rewrite IH. reflexivity.
Qed.

Lemma photos_of_length (item : value) : length (photos_of item) <= 10.
Proof.
  unfold photos_of. rewrite length_map.
  pose proof (filter_length_le (has_photo item) (seq 1 10)) as H.
  rewrite length_seq in H. exact H.
Qed.

Lemma concat_length_le {A} (n : nat) (xss : list (list A)) :
  Forall (fun xs => length xs <= n) xss ->
  length (concat xss) <= n * length xss.
Proof.
  induction 1 as [|xs xss H _ IH]; simpl; [lia|].
  rewrite length_app. lia.
Qed.

(** A film-scouting feed gives, for each entry of the response in
    order, one item per photo field [photo1] to [photo10] that is
    filled, in the order of the numbers: at most ten items per entry.
    The item's text is the entry's description or the default text, its
    title the photo's caption or "No title available". *)
Theorem film_feed_gives_one_item_per_photo
        (axios_get : str -> result value) (swiperData videoData : value)
        (feeds : list media) (m : media) (entries : list value) :
  feed_kind m = lit "film-scouting" ->
  axios_get (url m) = Ok (VArr entries) ->
  Forall (fun item => nullish item = false) entries ->
  fetch_body axios_get swiperData videoData feeds m
  = Ok (VArr (concat (map photos_of entries))) /\
  length (concat (map photos_of entries)) <= 10 * length entries /\
  (forall item card, In card (photos_of item) ->
     exists i, 1 <= i <= 10 /\ has_photo item i = true /\
               card = photo_card item i).
Proof.
  intros Hk Hget Hn. repeat split.
  - unfold fetch_body. rewrite Hk.
    change (str_eqb (lit "film-scouting") (lit "swiper")) with false.
    change (str_eqb (lit "film-scouting") (lit "linkedvideo")) with false.
    change (str_eqb (lit "film-scouting") (lit "seeclickfix-311")) with false.
    change (str_eqb (lit "film-scouting") (lit "film-scouting")) with true.
    cbn [andb]. cbv iota. rewrite Hget. cbn [bind as_array].
    rewrite (mapM_film_item entries Hn). reflexivity.
  - rewrite <- (length_map photos_of entries).
    apply concat_length_le. apply Forall_forall.
    intros xs Hxs. apply in_map_iff in Hxs. destruct Hxs as [item [<- _]].
    apply photos_of_length.
  - intros item card Hc. unfold photos_of in Hc.
    apply in_map_iff in Hc. destruct Hc as [i [<- Hi]].
    apply filter_In in Hi. destruct Hi as [Hseq Hp].
    apply in_seq in Hseq. exists i. repeat split; try lia. exact Hp.
Qed.

Lemma film_feed_gives_one_item_per_photo_witness :
  fetch_body (fun _ => Ok (VArr [film_entry])) VNull VNull [] film_feed
  = Ok (VArr [ VObj [ (lit "url", VStr (lit "https://img/mill-1.jpg"));
                      (lit "text", VStr (lit "Old mill"));
                      (lit "title", VStr (lit "Front")) ];
               VObj [ (lit "url", VStr (lit "https://img/mill-3.jpg"));
                      (lit "text", VStr (lit "Old mill"));
                      (lit "title", VStr (lit "No title available")) ] ]).
Proof.
  refine (proj1 (film_feed_gives_one_item_per_photo
                   (fun _ => Ok (VArr [film_entry])) VNull VNull [] film_feed
                   [film_entry] _ _ _)).
  - reflexivity.
  - reflexivity.
  - repeat constructor.
Defined.

(** *** File names *)

Lemma split_single (c : ascii) (s p : str) : split c s = [p] -> s = p.
Proof.
  revert p. induction s as [|a s IH]; intros p; simpl.
  - intros E. inversion E. reflexivity.
  - destruct (ascii_eqb a c).
    + intros E. inversion E as [[E1 E2]]. exfalso. exact (split_nonempty _ _ E2).
    + destruct (split c s) as [|q qs] eqn:S.
      * intros E. inversion E; subst.
        exfalso. exact (split_nonempty _ _ S).
      * intros E. inversion E; subst. f_equal. apply IH. reflexivity.
Qed.

Lemma split_last (c : ascii) (s : str) :
  ~ In c (pop (split c s)) /\
  (s = pop (split c s) \/ exists dir, s = dir ++ c :: pop (split c s)).
Proof.
  unfold pop. induction s as [|a s IH].
  - simpl. split; [tauto | left; reflexivity].
  - destruct IH as [Hno Hsuf]. cbn [split].
    destruct (ascii_eqb a c) eqn:E.
    + apply ascii_eqb_eq in E. subst a.
      destruct (split c s) as [|p ps] eqn:S;
        [exfalso; exact (split_nonempty _ _ S)|].
      change (last ([] :: p :: ps) []) with (last (p :: ps) []).
      split; [exact Hno|]. right.
      destruct Hsuf as [Hs | [dir Hs]].
      * exists []. simpl. f_equal. exact Hs.
      * exists (c :: dir). simpl. f_equal. exact Hs.
    + apply ascii_eqb_neq in E.
      destruct (split c s) as [|p ps] eqn:S;
        [exfalso; exact (split_nonempty _ _ S)|].
      destruct ps as [|q qs].
      * apply split_single in S. subst p. cbn [last] in *.
        split; [|left; reflexivity].
        intros [H | H]; [congruence | tauto].
      * change (last ((a :: p) :: q :: qs) []) with (last (p :: q :: qs) []).
        split; [exact Hno|].
        destruct Hsuf as [Hs | [dir Hs]].
        -- exfalso. apply Hno. rewrite <- Hs.
           exact (FeedMapFacts.split_two_in c s p q qs S).
        -- right. exists (a :: dir). simpl. f_equal. exact Hs.
Qed.

(** *** The repository feed *)

Lemma repo_files (files : list value) (paths : list str) :
  Forall (fun f => nullish f = false) files ->
  map (fun f => read f (lit "path")) files = map VStr paths ->
  filterM (fun file => p <- get file (lit "path") ;; Ok (is_repo_image p)) files
  = Ok (filter (fun f => is_repo_image (read f (lit "path"))) files) /\
  mapM repo_item (filter (fun f => is_repo_image (read f (lit "path"))) files)
  = Ok (map file_card (filter is_picture paths)).
Proof.
  intros Hn. revert paths.
  induction Hn as [|f files Hf _ IH]; intros paths Hp.
  - destruct paths; [|discriminate]. split; reflexivity.
  - destruct paths as [|p paths]; [discriminate|].
    assert (read f (lit "path") = VStr p) as Hp1
      by (cbn [map] in Hp; congruence).
    assert (map (fun f => read f (lit "path")) files = map VStr paths) as Hp2
      by (cbn [map] in Hp; congruence).
    destruct (IH paths Hp2) as [IH1 IH2].
    split.
    + cbn [filterM filter]. rewrite (get_read f _ Hf). cbn [bind].
      rewrite IH1. reflexivity.
    + cbn [filter]. rewrite Hp1. unfold is_picture at 1.
      destruct (is_repo_image (VStr p)); [|exact IH2].
      cbn [mapM map]. unfold repo_item at 1.
      rewrite (get_read f _ Hf), Hp1. cbn [bind split_pop as_string to_string].
      rewrite IH2. reflexivity.
Qed.

(** The repository feed lists the pictures of the tree under their
    file names: one item per file whose path ends in [.jpg], [.jpeg] or
    [.gif] (in any case), in the order of the tree; the item's address
    is the raw address of the path and its title is the part of the
    path after the last slash. *)
Theorem repo_feed_lists_pictures_by_file_name
        (axios_get : str -> result value) (swiperData videoData : value)
        (feeds : list media) (m r : media) (data repo : value)
        (files : list value) (paths : list str) :
  feed_kind m = lit "repo" ->
  repoFeed feeds = Some r ->
  axios_get (url m) = Ok data ->
  axios_get (url r) = Ok repo ->
  nullish repo = false ->
  read repo (lit "tree") = VArr files ->
  Forall (fun f => nullish f = false) files ->
  map (fun f => read f (lit "path")) files = map VStr paths ->
  fetch_body axios_get swiperData videoData feeds m
  = Ok (VArr (map file_card (filter is_picture paths))) /\
  (forall path,
     read (file_card path) (lit "url") = VStr (raw_url path) /\
     exists name,
       read (file_card path) (lit "title") = VStr name /\
       ~ In "/"%char name /\
       (path = name \/ exists dir, path = dir ++ "/"%char :: name)).
Proof.
  intros Hk Hr Hget Hrepo Hn Htree Hfiles Hpaths. split.
  - unfold fetch_body. rewrite Hk.
    change (str_eqb (lit "repo") (lit "swiper")) with false.
    change (str_eqb (lit "repo") (lit "linkedvideo")) with false.
    change (str_eqb (lit "repo") (lit "seeclickfix-311")) with false.
    change (str_eqb (lit "repo") (lit "film-scouting")) with false.
    change (str_eqb (lit "repo") (lit "repo")) with true.
    cbn [andb]. cbv iota. rewrite Hget. cbn [bind].
    unfold repoFeed in Hr. rewrite Hr, Hrepo. cbn [bind].
    rewrite (get_read repo _ Hn), Htree. cbn [bind as_array].
    destruct (repo_files files paths Hfiles Hpaths) as [F M].
    rewrite F. cbn [bind]. rewrite M. reflexivity.
  - intros path. split; [reflexivity|].
    exists (pop (split "/"%char path)). split; [reflexivity|].
    apply split_last.
Qed.

Lemma repo_feed_lists_pictures_by_file_name_witness :
  fetch_body tree_response VNull VNull [repo_feed] repo_feed
  = Ok (VArr [ VObj [ (lit "url", VStr (raw_url (lit "img/a/Mill.JPG")));
                      (lit "text", no_description);
                      (lit "title", VStr (lit "Mill.JPG")) ];
               VObj [ (lit "url", VStr (raw_url (lit "logo.gif")));
                      (lit "text", no_description);
                      (lit "title", VStr (lit "logo.gif")) ] ]).
Proof.
  refine (proj1 (repo_feed_lists_pictures_by_file_name
                   tree_response VNull VNull [repo_feed] repo_feed repo_feed
                   (VObj [ (lit "tree",
                            VArr [ VObj [ (lit "path", VStr (lit "img/a/Mill.JPG")) ];
                                   VObj [ (lit "path", VStr (lit "README.md")) ];
                                   VObj [ (lit "path", VStr (lit "logo.gif")) ] ]) ])
                   (VObj [ (lit "tree",
                            VArr [ VObj [ (lit "path", VStr (lit "img/a/Mill.JPG")) ];
                                   VObj [ (lit "path", VStr (lit "README.md")) ];
                                   VObj [ (lit "path", VStr (lit "logo.gif")) ] ]) ])
                   [ VObj [ (lit "path", VStr (lit "img/a/Mill.JPG")) ];
                     VObj [ (lit "path", VStr (lit "README.md")) ];
                     VObj [ (lit "path", VStr (lit "logo.gif")) ] ]
                   [ lit "img/a/Mill.JPG"; lit "README.md"; lit "logo.gif" ]
                   _ _ _ _ _ _ _ _)); try reflexivity.
  repeat constructor.
Defined.

(** *** The first player needs the repository feed *)

(** In the first player every feed depends on the repository feed:
    each load also looks up the feed whose key is exactly [repo] and
    requests its URL, so when no such feed is configured, or its
    request fails, every feed loads as the empty list. *)
Theorem first_player_needs_the_repo_feed
        (axios_get : str -> result value) (feeds : list media) (m : media) :
  (repoFeed feeds = None ->
   fetchMediaFromAPI_first axios_get feeds m = VArr []) /\
  (forall r e, repoFeed feeds = Some r -> axios_get (url r) = Throw e ->
               fetchMediaFromAPI_first axios_get feeds m = VArr []).
Proof.
  unfold repoFeed, fetchMediaFromAPI_first, fetch_body_first. split.
  - intros Hr. rewrite Hr.
    destruct (axios_get (url m)); reflexivity.
  - intros r e Hr He. rewrite Hr, He.
    destruct (axios_get (url m)); reflexivity.
Qed.

Lemma first_player_needs_the_repo_feed_witness :
  fetchMediaFromAPI_first Router.two_pictures [nasa_feed] nasa_feed = VArr [] /\
  (exists x y, fetchMediaFromAPI_first Router.two_pictures
                 [nasa_feed; repo_feed] nasa_feed = VArr [x; y]).
Proof.
  split.
  - exact (proj1 (first_player_needs_the_repo_feed Router.two_pictures
                    [nasa_feed] nasa_feed) eq_refl).
  - eexists. eexists. reflexivity.
Defined.

(** *** Feeds that make no request *)

Lemma fold_add_items_ext (f g : str -> value) (l : list str)
      (acc : list value) :
  (forall u, In u l -> f u = g u) ->
  fold_left (fun a u => add_items a (f u)) l acc
  = fold_left (fun a u => add_items a (g u)) l acc.
Proof.
  revert acc. induction l as [|u l IH]; intros acc H; [reflexivity|].
  cbn [fold_left]. rewrite (H u (or_introl eq_refl)).
  apply IH. intros v Hv. apply H. right. exact Hv.
Qed.

Lemma fold_add_items_const (f : str -> value) (x : value)
      (l : list str) (acc : list value) :
  (forall a, add_items a x = a ++ [x]) ->
  (forall u, In u l -> f u = x) ->
  fold_left (fun a u => add_items a (f u)) l acc
  = acc ++ repeat x (length l).
Proof.
  intros Hx. revert acc. induction l as [|u l IH]; intros acc H.
  - cbn. rewrite app_nil_r. reflexivity.
  - cbn [fold_left length repeat]. rewrite (H u (or_introl eq_refl)).
    rewrite IH by (intros v Hv; apply H; right; exact Hv).
    rewrite Hx, <- app_assoc. reflexivity.
Qed.

Lemma urls_of_nonempty (m : media) (u : str) :
  In u (urls_of m) -> nonempty u = true.
Proof. unfold urls_of. intros H. apply filter_In in H. exact (proj2 H). Qed.

(** The linked-video feed, and the swiper feed that has a URL, never
    make a request: what they load is the same whatever the network
    would answer, for a single URL and for pipe-separated URLs alike.
    While nothing has been chosen it is the item, flagged as an error,
    whose text asks the user to choose: once for a URL without a pipe,
    and once for each non-blank piece of a pipe-separated URL.  (A
    swiper feed without a URL is requested like any other feed.) *)
Theorem swiper_and_linked_video_make_no_request
        (axios_get other_get : str -> result value)
        (swiperData videoData : value) (feeds : list media) (m : media) :
  (feed_kind m = lit "swiper" -> nonempty (url m) = true ->
   loadFeed_items axios_get swiperData videoData feeds m
   = loadFeed_items other_get swiperData videoData feeds m /\
   (truthy swiperData = false ->
    loadFeed_items axios_get swiperData videoData feeds m
    = repeat (prompt_item m "Please click on a Swiper Image to view")
             (if includes (url m) (lit "|") then length (urls_of m) else 1))) /\
  (feed_kind m = lit "linkedvideo" ->
   loadFeed_items axios_get swiperData videoData feeds m
   = loadFeed_items other_get swiperData videoData feeds m /\
   (truthy videoData = false ->
    loadFeed_items axios_get swiperData videoData feeds m
    = repeat (prompt_item m "Please upload a video link to view")
             (if nonempty (url m) && includes (url m) (lit "|")
              then length (urls_of m) else 1))).
Proof.
  split.
  - intros Hk Hu.
    assert (forall req u, nonempty u = true ->
              fetchMediaFromAPI req swiperData videoData feeds (clone m u)
              = match (if negb (truthy swiperData)
                       then Ok (prompt_item m "Please click on a Swiper Image to view")
                       else (a <- get swiperData (lit "url") ;;
                             x <- get swiperData (lit "text") ;;
                             t <- get swiperData (lit "title") ;;
                             Ok (VObj [ (lit "url", a);
                                        (lit "text", or_ x no_description);
                                        (lit "title", t) ])))
                with
                | Ok v => v
                | Throw e => VArr [error_item m e]
                end) as Hfetch.
    { intros get0 u Hne. unfold fetchMediaFromAPI, fetch_body.
      change (feed_kind (clone m u)) with (feed_kind m). rewrite Hk.
      change (url (clone m u)) with u. rewrite Hne.
      change (str_eqb (lit "swiper") (lit "swiper")) with true.
      cbn [andb]. cbv iota. reflexivity. }
    assert (clone m (url m) = m) as Hm by (destruct m; reflexivity).
    unfold loadFeed_items. rewrite Hu. cbn [andb]. split.
    + destruct (includes (url m) (lit "|")).
      * apply fold_add_items_ext. intros u Hin.
        rewrite !Hfetch by (exact (urls_of_nonempty m u Hin)). reflexivity.
      * pose proof (Hfetch axios_get (url m) Hu) as H1.
        pose proof (Hfetch other_get (url m) Hu) as H2.
        rewrite Hm in H1, H2. rewrite H1, H2. reflexivity.
    + intros Hs. destruct (includes (url m) (lit "|")).
      * rewrite (fold_add_items_const _
                   (prompt_item m "Please click on a Swiper Image to view")
                   (urls_of m) []); [reflexivity | intros a; reflexivity |].
        intros u Hin. rewrite Hfetch by (exact (urls_of_nonempty m u Hin)).
        rewrite Hs. reflexivity.
      * pose proof (Hfetch axios_get (url m) Hu) as H1.
        rewrite Hm in H1. rewrite H1, Hs. reflexivity.
  - intros Hk.
    assert (forall req u,
              fetchMediaFromAPI req swiperData videoData feeds (clone m u)
              = match (if negb (truthy videoData)
                       then Ok (prompt_item m "Please upload a video link to view")
                       else (a <- get videoData (lit "url") ;;
                             x <- get videoData (lit "text") ;;
                             t <- get videoData (lit "title") ;;
                             Ok (VObj [ (lit "url", a); (lit "text", x);
                                        (lit "title", t) ])))
                with
                | Ok v => v
                | Throw e => VArr [error_item m e]
                end) as Hfetch.
    { intros get0 u. unfold fetchMediaFromAPI, fetch_body.
      change (feed_kind (clone m u)) with (feed_kind m). rewrite Hk.
      change (str_eqb (lit "linkedvideo") (lit "swiper")) with false.
      change (str_eqb (lit "linkedvideo") (lit "linkedvideo")) with true.
      cbn [andb]. cbv iota. reflexivity. }
    assert (clone m (url m) = m) as Hm by (destruct m; reflexivity).
    unfold loadFeed_items. split.
    + destruct (nonempty (url m) && includes (url m) (lit "|")).
      * apply fold_add_items_ext. intros u Hin. rewrite !Hfetch. reflexivity.
      * pose proof (Hfetch axios_get (url m)) as H1.
        pose proof (Hfetch other_get (url m)) as H2.
        rewrite Hm in H1, H2. rewrite H1, H2. reflexivity.
    + intros Hv. destruct (nonempty (url m) && includes (url m) (lit "|")).
      * rewrite (fold_add_items_const _
                   (prompt_item m "Please upload a video link to view")
                   (urls_of m) []); [reflexivity | intros a; reflexivity |].
        intros u Hin. rewrite Hfetch, Hv. reflexivity.
      * pose proof (Hfetch axios_get (url m)) as H1.
        rewrite Hm in H1. rewrite H1, Hv. reflexivity.
Qed.

Lemma swiper_and_linked_video_make_no_request_witness :
  loadFeed_items always_429 VNull VNull [] swiper_feed
  = [prompt_item swiper_feed "Please click on a Swiper Image to view"].
Proof.
  exact (proj2 (proj1 (swiper_and_linked_video_make_no_request
                         always_429 Router.two_pictures VNull VNull []
                         swiper_feed) eq_refl eq_refl) eq_refl).
Defined.

End FeedKindsFacts.
(** ** Properties of the adapters and of what is drawn *)

Module ScreensFacts.

Import Grid Screens StrFacts ObjFacts GridFacts.

(** *** The generic adapter *)

Lemma lookup_none_keys (k : str) (ps : list (str * value)) :
  lookup k ps = None <-> ~ In k (map fst ps).
Proof.
  induction ps as [|[k' v'] ps IH]; simpl; [tauto|].
  destruct (str_eqb k' k) eqn:E.
  - apply str_eqb_eq in E. split; [discriminate | tauto].
  - apply str_eqb_neq in E. rewrite IH. tauto.
Qed.

Lemma lookup_some_in (k : str) (v : value) (ps : list (str * value)) :
  lookup k ps = Some v -> In (k, v) ps.
Proof.
  induction ps as [|[k' v'] ps IH]; simpl; [discriminate|].
  destruct (str_eqb k' k) eqn:E.
  - apply str_eqb_eq in E. intros H. inversion H; subst. left. reflexivity.
  - intros H. right. apply IH. exact H.
Qed.

Lemma lookup_rev_nodup (k : str) (ps : list (str * value)) :
  NoDup (map fst ps) -> lookup k (rev ps) = lookup k ps.
Proof.
  intros Hnd. destruct (lookup k ps) as [v|] eqn:L.
  - apply lookup_nodup.
    + rewrite map_rev. apply NoDup_rev. exact Hnd.
    + apply -> in_rev. apply lookup_some_in. exact L.
  - apply lookup_none_keys. rewrite map_rev. intros H. apply in_rev in H.
    apply lookup_none_keys in L. exact (L H).
Qed.

Lemma generic_tests (type : str) :
  generic type = true ->
  str_eqb (toLowerCase type) (lit "nasa") = false /\
  str_eqb (toLowerCase type) (lit "seeclickfix") = false /\
  str_eqb (toLowerCase type) (lit "bsky") = false.
Proof.
  unfold generic. intros H.
  apply andb_prop in H. destruct H as [H H3].
  apply andb_prop in H. destruct H as [H1 H2].
  repeat split; apply negb_true_iff; assumption.
Qed.

(** The keys after a run of guarded writes: the keys before, and the
    written names other than [__proto__]. *)
Lemma fold_put_keys_iff {A} (kf : A -> str) (vf : A -> value) (xs : list A)
      (acc : list (str * value)) (k : str) :
  In k (map fst (fold_left (fun a x => put (kf x) (vf x) a) xs acc)) <->
  In k (map fst acc) \/ (In k (map kf xs) /\ k <> lit "__proto__").
Proof.
  rewrite fold_put_filter.
  change (fold_left (fun a x => set (kf x) (vf x) a)
            (filter (fun x => negb (str_eqb (kf x) (lit "__proto__"))) xs) acc)
    with (FeedMap.write_all kf vf
            (filter (fun x => negb (str_eqb (kf x) (lit "__proto__"))) xs) acc).
  rewrite FeedMapFacts.write_all_keys_iff.
  assert (In k (map kf (filter (fun x => negb (str_eqb (kf x) (lit "__proto__"))) xs))
          <-> In k (map kf xs) /\ k <> lit "__proto__") as ->; [|tauto].
  rewrite !in_map_iff. split.
  - intros [x [<- Hx]]. apply filter_In in Hx. destruct Hx as [Hx Hp].
    split; [exists x; split; [reflexivity | exact Hx]|].
    apply negb_true_iff in Hp. apply str_eqb_neq. exact Hp.
  - intros [[x [<- Hx]] Hp]. exists x. split; [reflexivity|].
    apply filter_In. split; [exact Hx|].
    apply negb_true_iff. apply str_eqb_neq. exact Hp.
Qed.

Lemma not_inherited_not_proto (k : str) :
  HashGrid.inherited k = false -> k <> lit "__proto__".
Proof. intros H ->. discriminate H. Qed.

(** The generic adapter of the typed card grid, for a response item
    that is a plain object.  With an allow-list of names that
    [Object.prototype] does not define, the item made has the listed
    fields and [source] as its own fields and nothing else: a listed
    field has the value the response item has for it ([undefined] when
    it has none), and [source] is the source URL unless [source] is
    itself listed.  Without an allow-list the item made has as its own
    fields [source] and every own field of the response item other than
    [__proto__], each with the response item's value, and the item's own
    [source], when it has one, replaces the source URL. *)
Theorem generic_adapter_keeps_listed_fields
        (feedFields : list str) (props : list (str * value))
        (type sourceUrl : str) :
  generic type = true ->
  (forall k, In k feedFields -> HashGrid.inherited k = false) ->
  NoDup (map fst props) ->
  exists made,
    processFeedItem feedFields (VObj props) type sourceUrl = Ok (VObj made) /\
    (feedFields <> [] ->
     (forall k, In k (map fst made) <-> k = lit "source" \/ In k feedFields) /\
     (forall k, In k feedFields ->
                lookup k made = Some (read (VObj props) k)) /\
     (~ In (lit "source") feedFields ->
      lookup (lit "source") made = Some (VStr sourceUrl))) /\
    (feedFields = [] ->
     (forall k, In k (map fst made)
                <-> k = lit "source" \/
                    (In k (map fst props) /\ k <> lit "__proto__")) /\
     (forall k v, k <> lit "__proto__" ->
                  lookup k props = Some v -> lookup k made = Some v) /\
     (lookup (lit "source") props = None ->
      lookup (lit "source") made = Some (VStr sourceUrl))).
Proof.
  intros Hg Hown Hnd. destruct (generic_tests type Hg) as [T1 [T2 T3]].
  unfold processFeedItem. rewrite T1, T2, T3.
  rewrite (mapM_fields (VObj props) feedFields eq_refl). cbn [bind].
  assert (forall ps : list (str * value),
            map (fun x : str * value => (fst x, snd x)) ps = ps) as Heta.
  { intros ps. induction ps as [|[a b] ps IH]; simpl; congruence. }
  assert (lit "source" <> lit "__proto__") as Hsrc by discriminate.
  destruct feedFields as [|f fs].
  - cbn [length Nat.ltb Nat.leb]. eexists. split; [reflexivity|].
    split; [intros H; congruence|]. intros _.
    unfold assign. cbn [own_props].
    split; [|split].
    + intros k. rewrite (fold_put_keys_iff fst snd). simpl.
      split.
      * intros [[H | []] | H]; [left; symmetry; exact H | right; exact H].
      * intros [-> | H]; [left; left; reflexivity | right; exact H].
    + intros k v Hk L. rewrite (lookup_fold_put fst snd _ _ _ Hk).
      rewrite Heta, (lookup_rev_nodup k props Hnd), L. reflexivity.
    + intros L. rewrite (lookup_fold_put fst snd _ _ _ Hsrc).
      rewrite Heta, (lookup_rev_nodup _ props Hnd), L. reflexivity.
  - replace (0 <? length (f :: fs)) with true by reflexivity.
    eexists. split; [reflexivity|].
    split; [|intros H; discriminate H]. intros _.
    set (fields := map (fun field => (field, read (VObj props) field)) (f :: fs)).
    assert (map fst fields = f :: fs) as Hkeys.
    { unfold fields. rewrite map_map. apply map_id. }
    split; [|split].
    + intros k. rewrite (fold_put_keys_iff fst snd), Hkeys.
      cbn [map fst In]. split.
      * intros [[H | []] | [H _]]; [left; symmetry; exact H | right; exact H].
      * intros [-> | H]; [left; left; reflexivity|].
        right. split; [exact H|].
        apply not_inherited_not_proto. apply Hown. exact H.
    + intros k Hk.
      rewrite (lookup_fold_put fst snd _ _ _
                 (not_inherited_not_proto k (Hown k Hk))).
      rewrite (lookup_all_same k (read (VObj props) k)); [reflexivity| |].
      * rewrite map_rev. apply -> in_rev. rewrite map_map. cbn [fst].
        rewrite <- Hkeys in Hk. exact Hk.
      * intros v' Hv. apply in_rev in Hv. apply in_map_iff in Hv.
        destruct Hv as [x [E1 Hx]]. unfold fields in Hx.
        apply in_map_iff in Hx. destruct Hx as [g [<- _]].
        cbn [fst snd] in E1. inversion E1; subst. reflexivity.
    + intros Hs. rewrite (lookup_fold_put fst snd _ _ _ Hsrc).
      assert (lookup (lit "source")
                     (rev (map (fun x : str * value => (fst x, snd x)) fields))
              = None) as ->.
      { apply lookup_none_keys. rewrite map_rev. intros H. apply in_rev in H.
        rewrite map_map in H. cbn [fst] in H. apply Hs. rewrite <- Hkeys.
        exact H. }
      reflexivity.
Qed.

Lemma generic_adapter_keeps_listed_fields_witness :
  processFeedItem [lit "name"; lit "place"] event_item (lit "default")
                  (lit "https://example.org/events.json")
  = Ok (VObj [ (lit "source", VStr (lit "https://example.org/events.json"));
               (lit "name", VStr (lit "Fair"));
               (lit "place", VUndefined) ]) /\
  exists made,
    processFeedItem [lit "name"; lit "place"] event_item (lit "default")
                    (lit "https://example.org/events.json") = Ok (VObj made) /\
    lookup (lit "secret") made = None.
Proof.
  split; [reflexivity|].
  assert (forall k, In k [lit "name"; lit "place"] ->
                    HashGrid.inherited k = false) as Hown.
  { intros k [<- | [<- | []]]; reflexivity. }
  assert (NoDup (map fst [ (lit "name", VStr (lit "Fair"));
                           (lit "source", VStr (lit "city"));
                           (lit "secret", VStr (lit "x")) ])) as Hnd.
  { repeat constructor; simpl; intros H;
      repeat (destruct H as [H | H]; [discriminate H|]); exact H. }
  destruct (generic_adapter_keeps_listed_fields
              [lit "name"; lit "place"] _ (lit "default")
              (lit "https://example.org/events.json") eq_refl Hown Hnd)
    as [made [E [H _]]].
  exists made. split; [exact E|].
  apply lookup_none_keys.
  destruct (H ltac:(discriminate)) as [Hkeys _].
  intros Hin. apply Hkeys in Hin.
  destruct Hin as [Hin | [Hin | [Hin | []]]]; discriminate Hin.
Defined.

(** *** A response that is one object *)

Lemma nasa_item_card (feedFields : list str) (item : value) (type url : str) :
  nullish item = false -> toLowerCase type = lit "nasa" ->
  processFeedItem feedFields item type url = Ok (nasa_card item).
Proof.
  intros Hn Ht. unfold processFeedItem. rewrite Ht.
  change (str_eqb (lit "nasa") (lit "nasa")) with true. cbv iota.
  rewrite !(get_read item _ Hn). reflexivity.
Qed.

(** A response that is one object and not an array is shown as one
    card: the [nasa] adapter (the picture of the day without a date
    range) and the [default] case wrap it into a list of one. *)
Theorem single_object_is_shown_as_one_card
        (feedType : str) (feedFields : list str)
        (axios_get : str -> result value) (url : str) (data : value) :
  axios_get url = Ok data -> nullish data = false ->
  (forall xs, data <> VArr xs) ->
  (toLowerCase (currentFeedType feedType url) = lit "nasa" ->
   feed_body feedType feedFields axios_get url = Ok [nasa_card data]) /\
  (toLowerCase (currentFeedType feedType url) = lit "default" ->
   exists card, feed_body feedType feedFields axios_get url = Ok [card] /\
                (feedFields = [] -> card = data)).
Proof.
  intros Hget Hn Hna. split; intros Ht; unfold feed_body;
    rewrite Hget; cbn [bind]; rewrite Ht.
  - change (str_eqb (lit "nasa") (lit "nasa")) with true. cbv iota.
    destruct data; try (cbn [mapM]; rewrite nasa_item_card by (reflexivity || assumption);
                        reflexivity).
    exfalso. exact (Hna _ eq_refl).
  - change (str_eqb (lit "default") (lit "nasa")) with false.
    change (str_eqb (lit "default") (lit "seeclickfix")) with false.
    change (str_eqb (lit "default") (lit "bsky")) with false.
    change (str_eqb (lit "default") (lit "googlesheet")) with false.
    cbv iota.
    destruct feedFields as [|f fs].
    + cbn [length Nat.ltb Nat.leb]. exists data.
      split; [|reflexivity].
      destruct data; try reflexivity. exfalso. exact (Hna _ eq_refl).
    + replace (0 <? length (f :: fs)) with true by reflexivity.
      destruct (processFeedItem_total (f :: fs) data (lit "default") url Hn)
        as [card Hc].
      exists card. split; [|discriminate].
      destruct data; try (rewrite Hc; reflexivity).
      exfalso. exact (Hna _ eq_refl).
Qed.

Lemma single_object_is_shown_as_one_card_witness :
  feed_body (lit "nasa") []
            (fun _ => Ok (VObj [ (lit "title", VStr (lit "M31")) ]))
            (lit "https://api.nasa.gov/planetary/apod")
  = Ok [nasa_card (VObj [ (lit "title", VStr (lit "M31")) ])].
Proof.
  refine (proj1 (single_object_is_shown_as_one_card
                   (lit "nasa") []
                   (fun _ => Ok (VObj [ (lit "title", VStr (lit "M31")) ]))
                   (lit "https://api.nasa.gov/planetary/apod")
                   (VObj [ (lit "title", VStr (lit "M31")) ]) _ _ _) _);
    try reflexivity.
  intros xs. discriminate.
Defined.

(** *** What a card shows *)

(** In the typed card grid a card of a civic issue or of a social post
    never shows a picture or a video: the adapter sets the media type
    to text whatever the response says.  A card of the picture of the
    day shows a picture exactly when the response item's media type is
    [image] and it has an address, and a video frame exactly when the
    media type is [video] and it has an address. *)
Theorem issue_and_post_cards_show_text_only
        (feedFields : list str) (item : value) (type sourceUrl : str) :
  nullish item = false ->
  (toLowerCase type = lit "seeclickfix" \/ toLowerCase type = lit "bsky" ->
   exists card, processFeedItem feedFields item type sourceUrl = Ok card /\
                media_of card = TextOnly) /\
  (toLowerCase type = lit "nasa" ->
   exists card, processFeedItem feedFields item type sourceUrl = Ok card /\
                media_of card = media_of item).
Proof.
  intros Hn. split.
  - intros [Ht | Ht]; unfold processFeedItem; rewrite Ht.
    + change (str_eqb (lit "seeclickfix") (lit "nasa")) with false.
      change (str_eqb (lit "seeclickfix") (lit "seeclickfix")) with true.
      cbv iota.
      repeat (first [ rewrite (get_read item _ Hn)
                    | rewrite (or_else_get_read _ item _ Hn) ]; cbn [bind]).
      eexists. split; reflexivity.
    + change (str_eqb (lit "bsky") (lit "nasa")) with false.
      change (str_eqb (lit "bsky") (lit "seeclickfix")) with false.
      change (str_eqb (lit "bsky") (lit "bsky")) with true.
      cbv iota.
      repeat (first [ rewrite (get_read item _ Hn)
                    | rewrite (or_else_get_read _ item _ Hn) ]; cbn [bind]).
      eexists. split; reflexivity.
  - intros Ht. rewrite (nasa_item_card feedFields item type sourceUrl Hn Ht).
    eexists. split; reflexivity.
Qed.

Lemma issue_and_post_cards_show_text_only_witness :
  media_of issue_with_picture
  = CardPicture (VStr (lit "https://img/pothole.jpg")) /\
  exists card,
    processFeedItem [] issue_with_picture (lit "seeclickfix")
                    (lit "https://seeclickfix.com/api/v2/issues") = Ok card /\
    media_of card = TextOnly.
Proof.
  split; [reflexivity|].
  exact (proj1 (issue_and_post_cards_show_text_only
                  [] issue_with_picture (lit "seeclickfix")
                  (lit "https://seeclickfix.com/api/v2/issues") eq_refl)
               (or_introl eq_refl)).
Defined.

(** *** The error text of the typed card grid *)

(** The typed card grid never clears its error text: a load that
    succeeds stores the items and leaves the text as it was, so once a
    load has failed the grid draws an error text after every later
    load. *)
Theorem error_text_is_never_cleared
        (feedType : str) (feedFields : list str)
        (axios_get : str -> result value) (feedUrls : str) (v : view) :
  loading (fetchFeeds feedType feedFields axios_get feedUrls v) = false /\
  (forall e, error_text v = Some e -> nonempty e = true ->
     exists e', render (fetchFeeds feedType feedFields axios_get feedUrls v)
                = ErrorText e') /\
  (error_text v = None ->
   render (fetchFeeds feedType feedFields axios_get feedUrls v)
   = Cards (flattenedResults feedType feedFields axios_get (feed_urls feedUrls))
   \/ exists e', render (fetchFeeds feedType feedFields axios_get feedUrls v)
                 = ErrorText e').
Proof.
  unfold fetchFeeds, render.
  destruct (length (feed_urls feedUrls) =? 0);
    [cbn; repeat split; intros; [|right]; eexists; reflexivity|].
  destruct (length (flattenedResults feedType feedFields axios_get
                                     (feed_urls feedUrls)) =? 0);
    [cbn; repeat split; intros; [|right]; eexists; reflexivity|].
  cbn [loading error_text feeds]. repeat split.
  - intros e -> ->. eexists. reflexivity.
  - intros ->. left. reflexivity.
Qed.

Lemma error_text_is_never_cleared_witness :
  exists e',
    render (fetchFeeds (lit "nasa") []
              (fun _ => Ok (VObj [ (lit "title", VStr (lit "M31")) ]))
              (lit "https://api.nasa.gov/planetary/apod")
              {| feeds := []; loading := false;
                 error_text := Some (lit "No feed data available") |})
    = ErrorText e'.
Proof.
  exact (proj1 (proj2 (error_text_is_never_cleared
                         (lit "nasa") []
                         (fun _ => Ok (VObj [ (lit "title", VStr (lit "M31")) ]))
                         (lit "https://api.nasa.gov/planetary/apod")
                         {| feeds := []; loading := false;
                            error_text := Some (lit "No feed data available") |}))
               (lit "No feed data available") eq_refl eq_refl).
Defined.

(** *** Pictures and videos of the player *)

Lemma endings_exclusive (l : str) :
  existsb (fun extension => startsWith l (rev extension)) imageExtensions = true ->
  existsb (fun extension => startsWith l (rev extension)) videoExtensions = true ->
  False.
Proof.
  destruct l as [|a [|b l]]; try discriminate.
  - destruct a as [[] [] [] [] [] [] [] []]; discriminate.
  - destruct a as [[] [] [] [] [] [] [] []]; try discriminate.
    destruct b as [[] [] [] [] [] [] [] []]; discriminate.
Qed.

Lemma lower_lower (c : ascii) : lower (lower c) = lower c.
Proof. destruct c as [[] [] [] [] [] [] [] []]; reflexivity. Qed.

Lemma toLowerCase_twice (s : str) : toLowerCase (toLowerCase s) = toLowerCase s.
Proof.
  unfold toLowerCase. rewrite map_map. apply map_ext. exact lower_lower.
Qed.

Lemma isImageFile_string (s : str) :
  isImageFile (VStr s) = Ok (ends_with_one_of imageExtensions s).
Proof. destruct s; reflexivity. Qed.

Lemma isVideoFile_string (s : str) :
  isVideoFile (VStr s) = Ok (ends_with_one_of videoExtensions s).
Proof. destruct s; reflexivity. Qed.

Lemma ends_with_one_of_lower (extensions : list str) (s : str) :
  ends_with_one_of extensions (toLowerCase s) = ends_with_one_of extensions s.
Proof. unfold ends_with_one_of. rewrite toLowerCase_twice. reflexivity. Qed.

(** The player sorts an address into picture, video or neither by its
    ending, ignoring case, and never into both; an address that is
    missing is neither, without an exception.  An item flagged as an
    error is drawn as the placeholder whatever its address is. *)
Theorem picture_and_video_are_exclusive :
  (forall s, isImageFile (VStr s) = Ok true -> isVideoFile (VStr s) = Ok false) /\
  (forall s, isImageFile (VStr (toLowerCase s)) = isImageFile (VStr s) /\
             isVideoFile (VStr (toLowerCase s)) = isVideoFile (VStr s)) /\
  (forall v, truthy v = false ->
             isImageFile v = Ok false /\ isVideoFile v = Ok false) /\
  (forall props, lookup (lit "isError") props = Some (VBool true) ->
                 draw (VObj props) = Ok ErrorPlaceholder) /\
  (forall m e, draw (Loader.error_item m e) = Ok ErrorPlaceholder).
Proof.
  split; [|split; [|split; [|split]]].
  - intros s. rewrite isImageFile_string, isVideoFile_string. intros Hi.
    assert (ends_with_one_of imageExtensions s = true) as Hi' by congruence.
    destruct (ends_with_one_of videoExtensions s) eqn:Hv; [|reflexivity].
    exfalso. exact (endings_exclusive (rev (toLowerCase s)) Hi' Hv).
  - intros s. rewrite !isImageFile_string, !isVideoFile_string,
      !ends_with_one_of_lower. split; reflexivity.
  - intros v H. unfold isImageFile, isVideoFile. rewrite H. split; reflexivity.
  - intros props L. unfold draw. cbn [truthy get]. rewrite L. reflexivity.
  - intros m e. reflexivity.
Qed.

Lemma picture_and_video_are_exclusive_witness :
  isImageFile (VStr (lit "https://img/Mill.JPG")) = Ok true /\
  isVideoFile (VStr (lit "https://img/Mill.JPG")) = Ok false /\
  isImageFile VNull = Ok false.
Proof.
  split; [reflexivity|]. split.
  - exact (proj1 picture_and_video_are_exclusive
                 (lit "https://img/Mill.JPG") eq_refl).
  - exact (proj1 (proj1 (proj2 (proj2 picture_and_video_are_exclusive))
                        VNull eq_refl)).
Defined.

End ScreensFacts.
(** ** Properties of the adapters of the hash-driven grids *)

Module TypedFetchFacts.

Import Grid TypedFetch StrFacts ObjFacts.

Lemma labelled_source (label : str) (item : value) :
  exists props, labelled label item = VObj props /\
                lookup (lit "source") props = Some (VStr label) /\
                forall k, k <> lit "source" ->
                          lookup k props = lookup k (own_props item).
Proof.
  unfold labelled. eexists. split; [reflexivity|]. split.
  - apply lookup_set_eq.
  - intros k Hk. apply lookup_set_neq. congruence.
Qed.

Lemma map_labelled (label : str) (xs : list value) (item : value) :
  In item (map (labelled label) xs) ->
  exists props, item = VObj props /\
                lookup (lit "source") props = Some (VStr label).
Proof.
  intros H. apply in_map_iff in H. destruct H as [x [<- _]].
  destruct (labelled_source label x) as [props [E [L _]]].
  exists props. split; assumption.
Qed.

(** In the hash-driven grids every item of a typed feed (nasa,
    seeclickfix, bsky, googlesheet) carries the label of its type as
    [source], in place of any [source] the data has, and keeps every
    other field of the data.  The [nasa] adapter gives one item per
    element of the response, or one item for a response that is not an
    array, and never throws, whatever the elements are. *)
Theorem typed_items_carry_their_label (type label : str) (data : value) :
  label_of type = Some label ->
  (forall items item, adapt type data = Ok items -> In item items ->
     exists props, item = VObj props /\
                   lookup (lit "source") props = Some (VStr label)) /\
  (forall item k, k <> lit "source" ->
     exists props, labelled label item = VObj props /\
                   lookup k props = lookup k (own_props item)) /\
  (type = lit "nasa" ->
   exists items, adapt type data = Ok items /\
                 length items = length (as_list data)).
Proof.
  intros Hl. split; [|split].
  - intros items item Ha Hin. unfold label_of in Hl. unfold adapt in Ha.
    destruct (str_eqb type (lit "nasa")).
    { inversion Hl; subst. inversion Ha; subst.
      exact (map_labelled _ _ _ Hin). }
    destruct (str_eqb type (lit "seeclickfix")).
    { inversion Hl; subst.
      destruct (get data (lit "issues")) as [i|e]; [|discriminate].
      cbn [bind] in Ha.
      destruct (or_ i data); inversion Ha; subst;
        try (destruct Hin); exact (map_labelled _ _ _ Hin). }
    destruct (str_eqb type (lit "bsky")).
    { inversion Hl; subst.
      destruct (get data (lit "items")) as [i|e]; [|discriminate].
      cbn [bind] in Ha.
      destruct (or_ i data); inversion Ha; subst;
        try (destruct Hin); exact (map_labelled _ _ _ Hin). }
    destruct (str_eqb type (lit "googlesheet")); [|discriminate].
    inversion Hl; subst.
    destruct (as_string data) as [body|e]; [|discriminate].
    cbn [bind] in Ha. inversion Ha; subst.
    apply in_map_iff in Hin. destruct Hin as [row [<- _]].
    destruct (labelled_source (lit "GoogleSheet")
                (VObj (zip_row (hd [] (map (split ","%char) (split "010"%char body)))
                               row))) as [props [E [L _]]].
    exists props. split; assumption.
  - intros item k Hk.
    destruct (labelled_source label item) as [props [E [_ K]]].
    exists props. split; [exact E | exact (K k Hk)].
  - intros ->. unfold adapt.
    change (str_eqb (lit "nasa") (lit "nasa")) with true. cbv iota.
    eexists. split; [reflexivity|]. apply length_map.
Qed.

Lemma typed_items_carry_their_label_witness :
  adapt (lit "nasa") apod_response
  = Ok [ VObj [ (lit "title", VStr (lit "M31"));
                (lit "source", VStr (lit "NASA APOD")) ];
         VObj [ (lit "source", VStr (lit "NASA APOD")) ];
         VObj [ (lit "title", VStr (lit "M42"));
                (lit "source", VStr (lit "NASA APOD")) ] ] /\
  exists items, adapt (lit "nasa") apod_response = Ok items /\
                length items = 3.
Proof.
  split; [reflexivity|].
  exact (proj2 (proj2 (typed_items_carry_their_label
                         (lit "nasa") (lit "NASA APOD") apod_response eq_refl))
               eq_refl).
Defined.

End TypedFetchFacts.
